(** * Collisional-radiative impurity model: rate matrices, direct solve, evolution

    A shallow embedding of [impurity.py] (class [Impurity]), of [solver.py]
    (functions [solve] and [evolve]) and of the grid widths of [sike/core.py],
    together with the properties stated for them.

    Numbers.  The Python code computes with IEEE doubles.  The embedding
    idealises them as the elements of an arbitrary real field [R] (exact
    arithmetic, no rounding, no NaN); concrete runs are carried out over the
    rationals.  What the properties say of a computed number holds of the
    code up to rounding; where the rounding itself is the question, the
    direct solve is modelled once more on binary64 floats.  numpy arrays of
    shape (m, n) are MathComp matrices ['M[R]_(m, n)], one-dimensional arrays
    are column vectors.

    Exceptions.  A Python method that mutates [self] and may raise is a
    function from the object to an [outcome]: either it returns, or it raises
    and leaves the object as mutated so far. *)

From HB Require Import structures.
From mathcomp Require Import ssreflect ssrfun ssrbool eqtype ssrnat div seq choice.
From mathcomp Require Import fintype finfun bigop order ssralg ssrnum ssrint.
From mathcomp Require Import rat matrix.
From mathcomp Require Import ring lra.
From Stdlib Require Import String PrimFloat.

Set Implicit Arguments.
Unset Strict Implicit.
Unset Printing Implicit Defensive.

Import Order.TTheory GRing.Theory Num.Theory.
Local Open Scope ring_scope.

(** ** Python exceptions and loops *)

Inductive exn : Type :=
| LinAlgError        (* numpy.linalg.inv on a singular matrix *)
| ZeroDivisionError  (* int / int with a zero divisor *)
| UnboundLocalError. (* a local read before any assignment *)

Inductive outcome (S : Type) : Type :=
| Returns (s : S)
| Raises (e : exn) (s : S).

Arguments Returns {S} s.
Arguments Raises {S} e s.

(** [s >>= f]: run [f] on the state a command returned; a raised exception
    propagates. *)
Definition obind (S : Type) (o : outcome S) (f : S -> outcome S) : outcome S :=
  match o with
  | Returns s => f s
  | Raises e s => Raises e s
  end.

Notation "o >>= f" := (obind o f) (at level 50, left associativity).

(** [for x in xs: body(x)] on a mutable state. *)
Fixpoint for_each (T S : Type) (xs : seq T) (body : T -> S -> outcome S)
    (s : S) : outcome S :=
  match xs with
  | [::] => Returns s
  | x :: xs' => body x s >>= for_each xs' body
  end.

(** [range(n)] as the indices of an array of length [n]. *)
Definition range (n : nat) : seq 'I_n := enum 'I_n.

(** ** numpy *)

Section Numpy.

Variable R : realFieldType.

(** Python's builtin [max(a, b)]: [b] when [b > a], else [a]. *)
Definition py_max (a b : R) : R := if a < b then b else a.

(** [np.linalg.inv]: raises [LinAlgError] on a singular matrix.  In the
    field the inverse is exact and singularity is decided exactly; LAPACK on
    doubles rounds the inverse and reports a matrix as singular only when a
    pivot is exactly zero.  The properties below are about the calls that
    return. *)
Definition linalg_inv (n : nat) (A : 'M[R]_n) : option 'M[R]_n :=
  if A \in unitmx then Some (invmx A) else None.

(** [np.sum] of a one-dimensional array. *)
Definition np_sum (n : nat) (v : 'cV[R]_n) : R := \sum_i v i 0.

(** [A[i, :]] as a one-dimensional array. *)
Definition get_row (m n : nat) (A : 'M[R]_(m, n)) (i : 'I_m) : 'cV[R]_n :=
  \col_j A i j.

(** [A[i, :] = v]. *)
Definition set_row (m n : nat) (A : 'M[R]_(m, n)) (i : 'I_m)
    (v : 'cV[R]_n) : 'M[R]_(m, n) :=
  \matrix_(k, j) if k == i then v j 0 else A k j.

(** [A[-1, :] = 1.0] on an array with at least one row. *)
Definition set_last_row_ones (n : nat) (A : 'M[R]_n.+1) : 'M[R]_n.+1 :=
  \matrix_(r, c) if r == ord_max then 1 else A r c.

(** [rhs = np.zeros(n); rhs[-1] = total]. *)
Definition rhs_last (n : nat) (total : R) : 'cV[R]_n.+1 :=
  \col_r if r == ord_max then total else 0.

(** [A[row, col] += v]. *)
Definition add_at (n : nat) (A : 'M[R]_n) (row col : 'I_n) (v : R) : 'M[R]_n :=
  \matrix_(r, c) if (r == row) && (c == col) then A r c + v else A r c.

(** [np.max(np.abs(A - B))] on arrays with at least one entry. *)
Definition np_max_abs_diff (m n : nat) (A B : 'M[R]_(m.+1, n.+1)) : R :=
  \big[Num.max/`|A ord0 ord0 - B ord0 ord0|]_(i < m.+1)
     \big[Num.max/`|A ord0 ord0 - B ord0 ord0|]_(j < n.+1) `|A i j - B i j|.

(** The sum of column [j] of a square matrix. *)
Definition colsum (n : nat) (A : 'M[R]_n) (j : 'I_n) : R := \sum_i A i j.

End Numpy.

(** ** Facts about loops and arrays *)

Section LoopFacts.

Variables (T S : Type).

(** A property that every returning iteration preserves holds when the loop
    returns. *)
Lemma for_each_inv (P : S -> Prop) (body : T -> S -> outcome S) (xs : seq T) :
  (forall x s s', P s -> body x s = Returns s' -> P s') ->
  forall s s', P s -> for_each xs body s = Returns s' -> P s'.
Proof.
move=> step; elim: xs => [|x xs IH] s s' Ps /=; first by case=> <-.
case E: (body x s) => [s1|e s1] //= run.
exact: IH (step _ _ _ Ps E) run.
Qed.

(** A loop whose iterations all return, returns. *)
Lemma for_each_total (body : T -> S -> outcome S) (xs : seq T) :
  (forall x s, exists s', body x s = Returns s') ->
  forall s, exists s', for_each xs body s = Returns s'.
Proof.
move=> tot; elim: xs => [|x xs IH] s /=; first by exists s.
by case: (tot x s) => s1 ->; apply: IH.
Qed.

End LoopFacts.

Section NumpyFacts.

Variable R : realFieldType.

Lemma py_maxE (a b : R) : py_max a b = Num.max a b.
Proof. by []. Qed.

Lemma py_max_ge_r (a b : R) : b <= py_max a b.
Proof. by rewrite py_maxE le_max lexx orbT. Qed.

Lemma py_max_ge_l (a b : R) : a <= py_max a b.
Proof. by rewrite py_maxE le_max lexx. Qed.

Lemma linalg_invP (n : nat) (A B : 'M[R]_n) :
  linalg_inv A = Some B -> A \in unitmx /\ B = invmx A.
Proof. by rewrite /linalg_inv; case: ifP => // U [<-]. Qed.

Lemma linalg_inv_unit (n : nat) (A : 'M[R]_n) :
  A \in unitmx -> linalg_inv A = Some (invmx A).
Proof. by rewrite /linalg_inv => ->. Qed.

Lemma set_last_row_onesK (n : nat) (A : 'M[R]_n.+1) :
  set_last_row_ones (set_last_row_ones A) = set_last_row_ones A.
Proof.
by apply/matrixP => r c; rewrite /set_last_row_ones !mxE; case: (r == _).
Qed.

(** The override depends on the rows above the last one only. *)
Lemma set_last_row_ones_eq (n : nat) (A B : 'M[R]_n.+1) :
  (forall r c, r != ord_max -> A r c = B r c) ->
  set_last_row_ones A = set_last_row_ones B.
Proof.
move=> AB; apply/matrixP => r c; rewrite /set_last_row_ones !mxE.
by case: ifPn => // /AB.
Qed.

Lemma get_row_set_row (m n : nat) (A : 'M[R]_(m, n)) i v k :
  get_row (set_row A i v) k = if k == i then v else get_row A k.
Proof.
by apply/colP => j; rewrite /get_row !mxE; case: ifP => _; rewrite ?mxE.
Qed.

(** The total of [A.dot(v)] weighs the entries of [v] by the column sums. *)
Lemma np_sum_mulmx (n : nat) (A : 'M[R]_n) (v : 'cV[R]_n) :
  np_sum (A *m v) = \sum_j colsum A j * v j 0.
Proof.
rewrite /np_sum /colsum.
under eq_bigr do rewrite mxE.
rewrite exchange_big /=.
by apply: eq_bigr => j _; rewrite mulr_suml.
Qed.

Lemma colsum_add_at (n : nat) (A : 'M[R]_n) (row col : 'I_n) (v : R) j :
  colsum (add_at A row col v) j = colsum A j + (if j == col then v else 0).
Proof.
rewrite /colsum /add_at.
under eq_bigr do rewrite mxE.
case: (j =P col) => [->|_]; last first.
  by rewrite addr0; apply: eq_bigr => i _; rewrite andbF.
rewrite (bigD1 row) //= [in RHS](bigD1 row) //= eqxx /= -!addrA; congr (_ + _).
rewrite addrC; congr (_ + _).
by apply: eq_bigr => i /negbTE ->.
Qed.

(** The two updates of a transition, a loss [-v] on the diagonal and the
    gain [v] in the same column, leave every column sum as it was. *)
Lemma colsum_loss_gain (n : nat) (A : 'M[R]_n) (src dst : 'I_n) (v : R) j :
  colsum (add_at (add_at A src src (- v)) dst src v) j = colsum A j.
Proof.
rewrite !colsum_add_at; case: ifP => _; last by rewrite !addr0.
by rewrite -addrA addNr addr0.
Qed.

(** Entry [ord_max] of [A.dot(x)] when the last row of [A] is all ones. *)
Lemma last_row_ones_mulmx (n : nat) (A : 'M[R]_n.+1) (x : 'cV[R]_n.+1) :
  (set_last_row_ones A *m x) ord_max 0 = np_sum x.
Proof.
rewrite mxE /np_sum; apply: eq_bigr => j _.
by rewrite /set_last_row_ones mxE eqxx mul1r.
Qed.

(** The solution of the system with the conservation row has the imposed
    total. *)
Lemma np_sum_solution (n : nat) (A : 'M[R]_n.+1) (total : R) :
  set_last_row_ones A \in unitmx ->
  np_sum (invmx (set_last_row_ones A) *m rhs_last n total) = total.
Proof.
move=> U; rewrite -(last_row_ones_mulmx A) mulmxA mulmxV // mul1mx.
by rewrite /rhs_last mxE eqxx.
Qed.

Lemma colsum_set_last_row_ones (n : nat) (A : 'M[R]_n.+1) j :
  colsum (set_last_row_ones A) j = colsum A j - A ord_max j + 1.
Proof.
rewrite /colsum /set_last_row_ones.
rewrite (bigD1 ord_max) //= [in RHS](bigD1 ord_max) //= mxE eqxx.
rewrite [A _ _ + _]addrC addrK addrC; congr (_ + _).
by apply: eq_bigr => i /negbTE ne; rewrite mxE ne.
Qed.

(** Column sums as a product with the row of ones. *)
Lemma colsum_ones (n : nat) (A : 'M[R]_n) j :
  colsum A j = ((const_mx 1 : 'rV[R]_n) *m A) 0 j.
Proof. by rewrite mxE; apply: eq_bigr => i _; rewrite mxE mul1r. Qed.


(** The columns of an invertible matrix do not all sum to zero. *)
Lemma colsum_unit_neq0 (n : nat) (A : 'M[R]_n.+1) :
  A \in unitmx -> exists j, colsum A j != 0.
Proof.
move=> U; apply/existsP; rewrite -negb_forall; apply/negP => /forallP c0.
have Z : (const_mx 1 : 'rV[R]_n.+1) *m A = 0.
  by apply/rowP => j; rewrite -colsum_ones (eqP (c0 j)) mxE.
have : (const_mx 1 : 'rV[R]_n.+1) 0 ord0 = 0.
  by rewrite -[const_mx 1](mulmxK U) Z mul0mx mxE.
by move/eqP; rewrite mxE oner_eq0.
Qed.

(** The operator of a backward Euler step built on a matrix with vanishing
    column sums has column sums one. *)
Lemma colsum_euler (n : nat) (A : 'M[R]_n) (dt : R) j :
  colsum A j = 0 -> colsum (1%:M - dt *: A) j = 1.
Proof.
move=> cA; rewrite /colsum.
under eq_bigr do rewrite !mxE.
rewrite sumrB -mulr_sumr -/(colsum A j) cA mulr0 subr0.
rewrite (bigD1 j) //= eqxx big1 ?addr0 // => i /negbTE ne.
by rewrite ne.
Qed.

(** [np.max(np.abs(A - B))] bounds every entry and is one of them. *)
Lemma np_max_abs_diff_ub (m n : nat) (A B : 'M[R]_(m.+1, n.+1)) i j :
  `|A i j - B i j| <= np_max_abs_diff A B.
Proof.
rewrite /np_max_abs_diff; set x0 := `|A ord0 ord0 - _|.
apply: le_trans (le_bigmax x0 (fun j => `|A i j - B i j|) j) _.
exact: (le_bigmax x0 (fun i => \big[Num.max/x0]_(j < n.+1) `|A i j - B i j|) i).
Qed.

Lemma np_max_abs_diff_attained (m n : nat) (A B : 'M[R]_(m.+1, n.+1)) :
  exists i j, np_max_abs_diff A B = `|A i j - B i j|.
Proof.
rewrite /np_max_abs_diff; set x0 := `|A ord0 ord0 - _|.
have inner i : exists j, \big[Num.max/x0]_(j < n.+1) `|A i j - B i j| = `|A i j - B i j|
                         \/ \big[Num.max/x0]_(j < n.+1) `|A i j - B i j| = x0.
  elim/big_ind: _ => [|x y [jx Hx] [jy Hy]|j _]; first by exists ord0; right.
  - by rewrite /Num.max; case: ifP => _; [exists jy | exists jx].
  - by exists j; left.
elim/big_ind: _ => [|x y [ix [jx Hx]] [iy [jy Hy]]|i _].
- by exists ord0, ord0.
- by rewrite /Num.max; case: ifP => _; [exists iy, jy | exists ix, jx].
- by case: (inner i) => j [] ->; [exists i, j | exists ord0, ord0].
Qed.

Lemma np_max_abs_diff_ge0 (m n : nat) (A B : 'M[R]_(m.+1, n.+1)) :
  0 <= np_max_abs_diff A B.
Proof. exact: le_trans (normr_ge0 _) (np_max_abs_diff_ub A B ord0 ord0). Qed.

End NumpyFacts.

(** ** impurity.py: the data model *)

Section ImpurityModel.

Variable R : realFieldType.

(** The grid has [num_x] cells, the state table [tot_states] states and the
    velocity grid [num_v] points.  The first two are taken positive: on an
    empty array [np.max] and the index [-1] raise. *)
Variables nx' ns' num_v : nat.
Notation num_x := nx'.+1.
Notation tot_states := ns'.+1.

(** [transition.State(iz, statename, loc, statw, energy)]; [loc] is the
    position of the state in [self.states], the index of its row and column
    in every per-state array. *)
Record State : Type := mkState {
  iz : int;
  statename : string;
  loc : 'I_tot_states;
  statw : int;
  energy : R
}.

(** The fields of a [transition.Transition] object that [impurity.py] reads.
    The class itself is not part of the sources at hand: the cross-section
    [sigma], the threshold [thresh], the interpolant [radrec_interp] and
    [spontem_rate] are data its constructor attaches to the pair of states. *)
Record Transition : Type := mkTransition {
  trans_type : string;
  from_state : State;
  to_state : State;
  dtype : string;
  sigma : 'rV[R]_num_v;
  thresh : R;
  radrec_interp : R -> R;
  spontem_rate : R
}.

Definition from_loc (t : Transition) : 'I_tot_states := loc (from_state t).
Definition to_loc (t : Transition) : 'I_tot_states := loc (to_state t).

(** The constants of module [input]. *)
Record Input : Type := mkInput {
  COLL_ION_REC : bool;
  RAD_REC : bool;
  COLL_EX_DEEX : bool;
  SPONT_EM : bool;
  DELTA_T : R
}.

(** The attributes of [self.skrun] that the class reads: grids,
    normalisation constants and the electron profiles of [skrun.data]. *)
Record SkRun : Type := mkSkRun {
  vgrid : 'rV[R]_num_v;
  dvc : 'rV[R]_num_v;
  v_th : R;
  n_norm : R;
  t_norm : R;
  T_norm : R;
  sigma_0 : R;
  DENSITY : 'cV[R]_num_x;
  TEMPERATURE : 'cV[R]_num_x;
  DIST_F0 : 'M[R]_(num_v, num_x)
}.

(** One parsed line of [transitions.txt]:
    type, from_iz, from_statename, to_iz, to_statename, dtype. *)
Record TransLine : Type := mkTransLine {
  l_type : string;
  l_from_iz : int;
  l_from_statename : string;
  l_to_iz : int;
  l_to_statename : string;
  l_dtype : string
}.

(** One row of [nist_spontem.txt]. *)
Record SpontemRow : Type := mkSpontemRow {
  r_iz : int;
  r_lower : string;
  r_upper : string;
  r_rate : R
}.

(** The mutable attributes of an [Impurity] object. *)
Record Impurity : Type := mkImpurity {
  num_z : nat;
  states : seq State;
  iz_transitions : seq Transition;
  ex_transitions : seq Transition;
  radrec_transitions : seq Transition;
  spontem_transitions : seq Transition;
  dens : 'M[R]_(num_x, tot_states);
  dens_max : 'M[R]_(num_x, tot_states);
  tmp_dens : 'M[R]_(num_x, tot_states);
  op_mat : {ffun 'I_num_x -> 'M[R]_tot_states};
  rate_mat : {ffun 'I_num_x -> 'M[R]_tot_states};
  op_mat_max : {ffun 'I_num_x -> 'M[R]_tot_states};
  rate_mat_max : {ffun 'I_num_x -> 'M[R]_tot_states}
}.

Definition set_transitions (izs exs rrs sps : seq Transition) (s : Impurity) :=
  mkImpurity (num_z s) (states s) izs exs rrs sps (dens s) (dens_max s)
    (tmp_dens s) (op_mat s) (rate_mat s) (op_mat_max s) (rate_mat_max s).

Definition set_dens (d : 'M[R]_(num_x, tot_states)) (s : Impurity) :=
  mkImpurity (num_z s) (states s) (iz_transitions s) (ex_transitions s)
    (radrec_transitions s) (spontem_transitions s) d (dens_max s)
    (tmp_dens s) (op_mat s) (rate_mat s) (op_mat_max s) (rate_mat_max s).

Definition set_dens_max (d : 'M[R]_(num_x, tot_states)) (s : Impurity) :=
  mkImpurity (num_z s) (states s) (iz_transitions s) (ex_transitions s)
    (radrec_transitions s) (spontem_transitions s) (dens s) d
    (tmp_dens s) (op_mat s) (rate_mat s) (op_mat_max s) (rate_mat_max s).

Definition set_tmp_dens (d : 'M[R]_(num_x, tot_states)) (s : Impurity) :=
  mkImpurity (num_z s) (states s) (iz_transitions s) (ex_transitions s)
    (radrec_transitions s) (spontem_transitions s) (dens s) (dens_max s)
    d (op_mat s) (rate_mat s) (op_mat_max s) (rate_mat_max s).

Definition set_rate_mat (m : {ffun 'I_num_x -> 'M[R]_tot_states})
    (s : Impurity) :=
  mkImpurity (num_z s) (states s) (iz_transitions s) (ex_transitions s)
    (radrec_transitions s) (spontem_transitions s) (dens s) (dens_max s)
    (tmp_dens s) (op_mat s) m (op_mat_max s) (rate_mat_max s).

Definition set_rate_mat_max (m : {ffun 'I_num_x -> 'M[R]_tot_states})
    (s : Impurity) :=
  mkImpurity (num_z s) (states s) (iz_transitions s) (ex_transitions s)
    (radrec_transitions s) (spontem_transitions s) (dens s) (dens_max s)
    (tmp_dens s) (op_mat s) (rate_mat s) (op_mat_max s) m.

(** [l[i] = x] on a Python list of arrays. *)
Definition set_nth_mat (l : {ffun 'I_num_x -> 'M[R]_tot_states})
    (i : 'I_num_x) (x : 'M[R]_tot_states) : {ffun 'I_num_x -> 'M[R]_tot_states} :=
  [ffun k => if k == i then x else l k].

(** What the class calls outside itself: module [rates], the constants and
    [maxwellian] of [sk_plotting_functions], [np.sqrt] and [np.pi], and the
    atomic data a [Transition] constructor loads for
    (type, from_state, to_state, dtype). *)
Record Libs : Type := mkLibs {
  (* rates.ion_rate(f0, vgrid, dvc, sigma) *)
  ion_rate : 'rV[R]_num_v -> 'rV[R]_num_v -> 'rV[R]_num_v -> 'rV[R]_num_v -> R;
  (* rates.ex_rate(f0, vgrid, dvc, sigma) *)
  ex_rate : 'rV[R]_num_v -> 'rV[R]_num_v -> 'rV[R]_num_v -> 'rV[R]_num_v -> R;
  (* rates.tbrec_rate(f0, Te, vgrid, dvc, eps, statw_ratio, sigma) *)
  tbrec_rate : 'rV[R]_num_v -> R -> 'rV[R]_num_v -> 'rV[R]_num_v -> R -> R ->
               'rV[R]_num_v -> R;
  (* rates.deex_rate(f0, vgrid, dvc, eps, statw_ratio, sigma) *)
  deex_rate : 'rV[R]_num_v -> 'rV[R]_num_v -> 'rV[R]_num_v -> R -> R ->
              'rV[R]_num_v -> R;
  (* spf.maxwellian(Te, ne, vgrid) *)
  maxwellian : R -> R -> 'rV[R]_num_v -> 'rV[R]_num_v;
  np_sqrt : R -> R;
  np_pi : R;
  planck_h : R;
  el_mass : R;
  el_charge : R;
  load_sigma : string -> State -> State -> string -> 'rV[R]_num_v;
  load_thresh : string -> State -> State -> string -> R;
  load_radrec_interp : string -> State -> State -> string -> R -> R
}.

(** The environment of a run: the constants of [input], [self.skrun] and the
    libraries. *)
Variable input : Input.
Variable skrun : SkRun.
Variable libs : Libs.

(** [transition.Transition(type, longname, from_state, to_state, ...)]. *)
Definition new_Transition (ty : string) (f t : State) (dt : string)
    (rate : R) : Transition :=
  mkTransition ty f t dt (load_sigma libs ty f t dt) (load_thresh libs ty f t dt)
    (load_radrec_interp libs ty f t dt) rate.

(** ** Loading the transitions *)

(** [Impurity.get_state]: the first state with this [iz] and [statename];
    falls off the loop and returns [None] when there is none. *)
Fixpoint get_state (sts : seq State) (z : int) (name : string) : option State :=
  match sts with
  | [::] => None
  | st :: sts' =>
      if (iz st == z) && String.eqb (statename st) name then Some st
      else get_state sts' z name
  end.

(** The body of the loop of [load_transitions] on one line of the file. *)
Definition load_line (s : Impurity) (l : TransLine) : Impurity :=
  let from_state := get_state (states s) (l_from_iz l) (l_from_statename l) in
  let to_state := get_state (states s) (l_to_iz l) (l_to_statename l) in
  match from_state, to_state with
  | Some f, Some t =>
      let s1 :=
        if String.eqb (l_type l) "ionization" && COLL_ION_REC input then
          set_transitions
            (rcons (iz_transitions s) (new_Transition "ionization" f t (l_dtype l) 0))
            (ex_transitions s) (radrec_transitions s) (spontem_transitions s) s
        else s in
      let s2 :=
        if String.eqb (l_type l) "radrec" && RAD_REC input then
          set_transitions (iz_transitions s1) (ex_transitions s1)
            (rcons (radrec_transitions s1) (new_Transition "radrec" f t (l_dtype l) 0))
            (spontem_transitions s1) s1
        else s1 in
      if String.eqb (l_type l) "excitation" && COLL_EX_DEEX input then
        set_transitions (iz_transitions s2)
          (rcons (ex_transitions s2) (new_Transition "excitation" f t (l_dtype l) 0))
          (radrec_transitions s2) (spontem_transitions s2) s2
      else s2
  | _, _ => s
  end.

(** [pd.to_numeric(...).mean()]. *)
Definition mean (xs : seq R) : R := (\sum_(x <- xs) x) / (size xs)%:R.

(** [Impurity.load_spontem_transitions]. *)
Definition spontem_match (rows : seq SpontemRow) (z : nat) (f t : State) :=
  [seq r <- rows | [&& r_iz r == z%:Z, String.eqb (r_lower r) (statename t)
                     & String.eqb (r_upper r) (statename f)]].

Definition load_spontem_transitions (rows : seq SpontemRow) (s : Impurity) :
    Impurity :=
  foldl (fun s z =>
    foldl (fun s f =>
      foldl (fun s t =>
        if (iz f == iz t) && ~~ String.eqb (statename f) (statename t) then
          let matched := spontem_match rows z f t in
          if (0 < size matched)%N then
            set_transitions (iz_transitions s) (ex_transitions s)
              (radrec_transitions s)
              (rcons (spontem_transitions s)
                 (new_Transition "spontem" f t "" (mean (map r_rate matched)))) s
          else s
        else s) s (states s)) s (states s)) s (iota 0 (num_z s)).

(** [Impurity.load_transitions] on the parsed lines of the transition file
    and the rows of the spontaneous-emission table. *)
Definition load_transitions (lines : seq TransLine) (rows : seq SpontemRow)
    (s : Impurity) : Impurity :=
  let s0 := set_transitions [::] [::] [::] [::] s in
  let s1 := foldl load_line s0 lines in
  if SPONT_EM input then load_spontem_transitions rows s1 else s1.

(** ** Building the rate matrices *)

(** Python's [a / b] on two [int]s. *)
Definition int_truediv (a b : int) : option R :=
  if b == 0 then None else Some (a%:~R / b%:~R).

Definition ne (i : 'I_num_x) : R := DENSITY skrun i 0.
Definition Te (i : 'I_num_x) : R := TEMPERATURE skrun i 0.

(** [self.skrun.vgrid / self.skrun.v_th] and [self.skrun.dvc / self.skrun.v_th]. *)
Definition vgrid_n : 'rV[R]_num_v := map_mx (fun x => x / v_th skrun) (vgrid skrun).
Definition dvc_n : 'rV[R]_num_v := map_mx (fun x => x / v_th skrun) (dvc skrun).

(** [f0 = np.transpose(self.skrun.data['DIST_F'][0])]. *)
Definition f0 : 'M[R]_(num_x, num_v) := (DIST_F0 skrun)^T.

(** [get_maxwellians(num_x, ne, Te, vgrid, v_th, num_v)]. *)
Definition get_maxwellians : 'M[R]_(num_x, num_v) :=
  \matrix_(i, j) maxwellian libs (Te i) (ne i) vgrid_n 0 j.

Definition f0_max : 'M[R]_(num_x, num_v) := get_maxwellians.

Definition collrate_const : R :=
  n_norm skrun * v_th skrun * sigma_0 skrun * t_norm skrun.

Definition tbrec_norm : R :=
  n_norm skrun *
  np_sqrt libs
    (planck_h libs ^+ 2 /
     (2 * np_pi libs * el_mass libs * T_norm skrun * el_charge libs)) ^+ 3.

(** The local lists [op_mat], [rate_mat], [op_mat_max], [rate_mat_max]. *)
Record Locals : Type := mkLocals {
  l_op_mat : {ffun 'I_num_x -> 'M[R]_tot_states};
  l_rate_mat : {ffun 'I_num_x -> 'M[R]_tot_states};
  l_op_mat_max : {ffun 'I_num_x -> 'M[R]_tot_states};
  l_rate_mat_max : {ffun 'I_num_x -> 'M[R]_tot_states}
}.

(** [rate_mat[i][row, col] += v; rate_mat_max[i][row, col] += vmax]. *)
Definition add_rates (i : 'I_num_x) (row col : 'I_tot_states) (v vmax : R)
    (l : Locals) : Locals :=
  mkLocals (l_op_mat l)
    (set_nth_mat (l_rate_mat l) i (add_at (l_rate_mat l i) row col v))
    (l_op_mat_max l)
    (set_nth_mat (l_rate_mat_max l) i (add_at (l_rate_mat_max l i) row col vmax)).

(** The radiative recombination coefficient, clamped at zero:
    [max(radrec_trans.radrec_interp(Te[i]), 0.0)]. *)
Definition alpha_radrec (radrec_trans : Transition) (i : 'I_num_x) : R :=
  py_max (radrec_interp radrec_trans (Te i)) 0.

(** Body of [for iz_trans in self.iz_transitions]: ionization and three-body
    recombination. *)
Definition add_iz_trans (i : 'I_num_x) (iz_trans : Transition) (l : Locals) :
    outcome Locals :=
  let K_ion := collrate_const *
    ion_rate libs (row i f0) vgrid_n dvc_n (sigma iz_trans) in
  let K_ion_max := collrate_const *
    ion_rate libs (row i f0_max) vgrid_n dvc_n (sigma iz_trans) in
  (* ...loss *)
  let l := add_rates i (from_loc iz_trans) (from_loc iz_trans) (- K_ion) (- K_ion_max) l in
  (* ...gain *)
  let l := add_rates i (to_loc iz_trans) (from_loc iz_trans) K_ion K_ion_max l in
  let eps := thresh iz_trans / T_norm skrun in
  match int_truediv (statw (to_state iz_trans)) (statw (from_state iz_trans)) with
  | None => Raises ZeroDivisionError l
  | Some statw_ratio =>
      let K_rec := ne i * collrate_const * tbrec_norm *
        tbrec_rate libs (row i f0) (Te i) vgrid_n dvc_n eps statw_ratio (sigma iz_trans) in
      let K_rec_max := ne i * collrate_const * tbrec_norm *
        tbrec_rate libs (row i f0_max) (Te i) vgrid_n dvc_n eps statw_ratio (sigma iz_trans) in
      (* ...loss *)
      let l := add_rates i (to_loc iz_trans) (to_loc iz_trans) (- K_rec) (- K_rec_max) l in
      (* ...gain *)
      let l := add_rates i (from_loc iz_trans) (to_loc iz_trans) K_rec K_rec_max l in
      Returns l
  end.

(** Body of [for radrec_trans in self.radrec_transitions]. *)
Definition add_radrec_trans (i : 'I_num_x) (radrec_trans : Transition)
    (l : Locals) : outcome Locals :=
  let alpha := alpha_radrec radrec_trans i in
  (* ...loss *)
  let l := add_rates i (from_loc radrec_trans) (from_loc radrec_trans)
             (- (ne i * alpha)) (- (ne i * alpha)) l in
  (* ...gain *)
  let l := add_rates i (to_loc radrec_trans) (from_loc radrec_trans)
             (ne i * alpha) (ne i * alpha) l in
  Returns l.

(** Body of [for ex_trans in self.ex_transitions]: excitation and
    de-excitation. *)
Definition add_ex_trans (i : 'I_num_x) (ex_trans : Transition) (l : Locals) :
    outcome Locals :=
  let K_ex := collrate_const *
    ex_rate libs (row i f0) vgrid_n dvc_n (sigma ex_trans) in
  let K_ex_max := collrate_const *
    ex_rate libs (row i f0_max) vgrid_n dvc_n (sigma ex_trans) in
  (* ...loss *)
  let l := add_rates i (from_loc ex_trans) (from_loc ex_trans) (- K_ex) (- K_ex_max) l in
  (* ...gain *)
  let l := add_rates i (to_loc ex_trans) (from_loc ex_trans) K_ex K_ex_max l in
  let eps := thresh ex_trans / T_norm skrun in
  match int_truediv (statw (from_state ex_trans)) (statw (to_state ex_trans)) with
  | None => Raises ZeroDivisionError l
  | Some statw_ratio =>
      let K_deex := collrate_const *
        deex_rate libs (row i f0) vgrid_n dvc_n eps statw_ratio (sigma ex_trans) in
      let K_deex_max := collrate_const *
        deex_rate libs (row i f0_max) vgrid_n dvc_n eps statw_ratio (sigma ex_trans) in
      (* ...loss *)
      let l := add_rates i (to_loc ex_trans) (to_loc ex_trans) (- K_deex) (- K_deex_max) l in
      (* ...gain *)
      let l := add_rates i (from_loc ex_trans) (to_loc ex_trans) K_deex K_deex_max l in
      Returns l
  end.

(** Body of [for em_trans in self.spontem_transitions]. *)
Definition add_em_trans (i : 'I_num_x) (em_trans : Transition) (l : Locals) :
    outcome Locals :=
  let beta_spontem := spontem_rate em_trans in
  (* ...loss *)
  let l := add_rates i (from_loc em_trans) (from_loc em_trans)
             (- beta_spontem) (- beta_spontem) l in
  (* ...gain *)
  let l := add_rates i (to_loc em_trans) (from_loc em_trans)
             beta_spontem beta_spontem l in
  Returns l.

(** [if flag: for t in ts: body]. *)
Definition guarded_loop (flag : bool) (ts : seq Transition)
    (body : Transition -> Locals -> outcome Locals) (l : Locals) : outcome Locals :=
  if flag then for_each ts body l else Returns l.

(** The two assignments that end the loop body:
    [op_mat[i] = np.linalg.inv(np.identity(tot_states) - DELTA_T * rate_mat[i])]
    and the same for the Maxwellian matrices. *)
Definition invert_cell (i : 'I_num_x) (l : Locals) : outcome Locals :=
  match linalg_inv (1%:M - DELTA_T input *: l_rate_mat l i) with
  | None => Raises LinAlgError l
  | Some op =>
      let l := mkLocals (set_nth_mat (l_op_mat l) i op) (l_rate_mat l)
                 (l_op_mat_max l) (l_rate_mat_max l) in
      match linalg_inv (1%:M - DELTA_T input *: l_rate_mat_max l i) with
      | None => Raises LinAlgError l
      | Some op_max =>
          Returns (mkLocals (l_op_mat l) (l_rate_mat l)
                     (set_nth_mat (l_op_mat_max l) i op_max) (l_rate_mat_max l))
      end
  end.

(** Body of the loop [for i in range(self.skrun.num_x)]. *)
Definition build_cell (s : Impurity) (i : 'I_num_x) (l : Locals) : outcome Locals :=
  guarded_loop (COLL_ION_REC input) (iz_transitions s) (add_iz_trans i) l
  >>= guarded_loop (RAD_REC input) (radrec_transitions s) (add_radrec_trans i)
  >>= guarded_loop (COLL_EX_DEEX input) (ex_transitions s) (add_ex_trans i)
  >>= guarded_loop (SPONT_EM input) (spontem_transitions s) (add_em_trans i)
  >>= invert_cell i.

(** The four lists of zero matrices the method starts from. *)
Definition zero_locals : Locals :=
  mkLocals [ffun=> 0] [ffun=> 0] [ffun=> 0] [ffun=> 0].

(** [Impurity.build_rate_matrices].  The lists are local until the four
    assignments to [self] at the end: an exception leaves [self] as it was. *)
Definition build_rate_matrices (s : Impurity) : outcome Impurity :=
  match for_each (range num_x) (build_cell s) zero_locals with
  | Returns l =>
      Returns (mkImpurity (num_z s) (states s) (iz_transitions s)
                 (ex_transitions s) (radrec_transitions s)
                 (spontem_transitions s) (dens s) (dens_max s) (tmp_dens s)
                 (l_op_mat l) (l_rate_mat l) (l_op_mat_max l) (l_rate_mat_max l))
  | Raises e _ => Raises e s
  end.

(** ** Direct solve and time step *)

(** The two loops of [Impurity.solve] run the same statements, the first on
    [rate_mat] and [dens], the second on [rate_mat_max] and [dens_max]. *)
Inductive electrons : Type := Kinetic | Maxwellian.

Definition the_rate_mat (k : electrons) (s : Impurity) :=
  match k with Kinetic => rate_mat s | Maxwellian => rate_mat_max s end.

Definition the_op_mat (k : electrons) (s : Impurity) :=
  match k with Kinetic => op_mat s | Maxwellian => op_mat_max s end.

Definition the_dens (k : electrons) (s : Impurity) :=
  match k with Kinetic => dens s | Maxwellian => dens_max s end.

Definition set_the_rate_mat (k : electrons) m (s : Impurity) :=
  match k with Kinetic => set_rate_mat m s | Maxwellian => set_rate_mat_max m s end.

Definition set_the_dens (k : electrons) d (s : Impurity) :=
  match k with Kinetic => set_dens d s | Maxwellian => set_dens_max d s end.

(** Body of a loop of [solve].  [loc_mat] is an alias of the stored matrix:
    the assignment to its last row changes [self.rate_mat[i]] itself, before
    the inverse is attempted. *)
Definition solve_cell (k : electrons) (i : 'I_num_x) (s : Impurity) :
    outcome Impurity :=
  let loc_mat := set_last_row_ones (the_rate_mat k s i) in
  let s := set_the_rate_mat k (set_nth_mat (the_rate_mat k s) i loc_mat) s in
  let rhs := rhs_last ns' (np_sum (get_row (the_dens k s) i)) in
  match linalg_inv loc_mat with
  | None => Raises LinAlgError s
  | Some loc_mat_inv =>
      let dens := loc_mat_inv *m rhs in
      Returns (set_the_dens k (set_row (the_dens k s) i dens) s)
  end.

(** [Impurity.solve]. *)
Definition solve (s : Impurity) : outcome Impurity :=
  for_each (range num_x) (solve_cell Kinetic) s
  >>= for_each (range num_x) (solve_cell Maxwellian).

(** Body of a loop of [evolve]:
    [self.tmp_dens[i, :] = self.op_mat[i].dot(self.dens[i, :])]. *)
Definition evolve_cell (k : electrons) (s : Impurity) (i : 'I_num_x) : Impurity :=
  set_tmp_dens
    (set_row (tmp_dens s) i (the_op_mat k s i *m get_row (the_dens k s) i)) s.

(** [Impurity.evolve]: the new object and the returned residual. *)
Definition evolve (s : Impurity) : R * Impurity :=
  let s := foldl (evolve_cell Kinetic) s (range num_x) in
  let residual := np_max_abs_diff (tmp_dens s) (dens s) in
  let s := set_dens (tmp_dens s) s in
  let s := foldl (evolve_cell Maxwellian) s (range num_x) in
  let residual_max := np_max_abs_diff (tmp_dens s) (dens_max s) in
  let s := set_dens_max (tmp_dens s) s in
  (py_max residual residual_max, s).

(** ** Radiated power by radiative recombination *)

(** The literal [1e-6]. *)
Definition micro : R := (10 ^+ 6)^-1.

(** [Impurity.get_radrec_E]: [eps] of the last matching ionization
    transition; with no match the local [eps] is unbound at [return]. *)
Definition get_radrec_E (s : Impurity) (radrec_trans : Transition) : option R :=
  foldl (fun eps iz_trans =>
    if (iz (from_state iz_trans) == iz (to_state radrec_trans))
       && (iz (to_state iz_trans) == iz (from_state radrec_trans))
    then Some (thresh iz_trans - energy (to_state radrec_trans))
    else eps) None (iz_transitions s).

(** Body of [for radrec_trans in self.radrec_transitions] in
    [get_radrec_E_rates], on the pair of accumulators for cell [i]. *)
Definition add_radrec_E (s : Impurity) (i : 'I_num_x) (radrec_trans : Transition)
    (acc : R * R) : outcome (R * R) :=
  let alpha := alpha_radrec radrec_trans i in
  match get_radrec_E s radrec_trans with
  | None => Raises UnboundLocalError acc
  | Some e =>
      let eps := e * el_charge libs in
      Returns
        (acc.1 + eps * n_norm skrun * alpha * ne i *
                 dens s i (from_loc radrec_trans) / t_norm skrun,
         acc.2 + eps * n_norm skrun * alpha * ne i *
                 dens_max s i (from_loc radrec_trans) / t_norm skrun)
  end.

(** [Impurity.get_radrec_E_rates]: the two returned arrays, or the exception. *)
Definition get_radrec_E_rates (s : Impurity) :
    outcome ('cV[R]_num_x * 'cV[R]_num_x) :=
  for_each (range num_x)
    (fun i (arrs : 'cV[R]_num_x * 'cV[R]_num_x) =>
       if RAD_REC input then
         match for_each (radrec_transitions s) (add_radrec_E s i)
                 (arrs.1 i 0, arrs.2 i 0) with
         | Returns acc =>
             Returns (\col_k (if k == i then acc.1 else arrs.1 k 0),
                      \col_k (if k == i then acc.2 else arrs.2 k 0))
         | Raises e _ => Raises e arrs
         end
       else Returns arrs)
    (0, 0)
  >>= (fun arrs =>
         Returns (map_mx (fun x => x * micro) arrs.1,
                  map_mx (fun x => x * micro) arrs.2)).

(** ** The direct solve, cell by cell *)

Definition other (k : electrons) : electrons :=
  match k with Kinetic => Maxwellian | Maxwellian => Kinetic end.

Lemma set_nth_matE (l : {ffun 'I_num_x -> 'M[R]_tot_states}) i x k :
  set_nth_mat l i x k = if k == i then x else l k.
Proof. by rewrite /set_nth_mat ffunE. Qed.

(** What one returning iteration of a loop of [solve] does. *)
Lemma solve_cellP k i s s' :
  solve_cell k i s = Returns s' ->
  let A := set_last_row_ones (the_rate_mat k s i) in
  [/\ A \in unitmx,
      the_rate_mat k s' = set_nth_mat (the_rate_mat k s) i A,
      the_dens k s' =
        set_row (the_dens k s) i
          (invmx A *m rhs_last ns' (np_sum (get_row (the_dens k s) i))),
      the_rate_mat (other k) s' = the_rate_mat (other k) s &
      the_dens (other k) s' = the_dens (other k) s].
Proof.
by case: k; rewrite /solve_cell /=; case E: (linalg_inv _) => [B|] //= [<-];
   case: (linalg_invP E) => U ->; split.
Qed.

(** A loop of [solve] over distinct cells: the cells it visits are solved
    from their values at entry, the others are untouched. *)
Lemma solve_loopP k xs s s' :
  uniq xs -> for_each xs (solve_cell k) s = Returns s' ->
  [/\ forall i, i \in xs ->
        let A := set_last_row_ones (the_rate_mat k s i) in
        [/\ A \in unitmx, the_rate_mat k s' i = A &
            get_row (the_dens k s') i =
              invmx A *m rhs_last ns' (np_sum (get_row (the_dens k s) i))],
      forall i, i \notin xs ->
        the_rate_mat k s' i = the_rate_mat k s i /\
        get_row (the_dens k s') i = get_row (the_dens k s) i,
      the_rate_mat (other k) s' = the_rate_mat (other k) s &
      the_dens (other k) s' = the_dens (other k) s].
Proof.
elim: xs s => [|x xs IH] s /=; first by move=> _ [<-]; split.
case/andP=> xnotin uxs; case E: (solve_cell k x s) => [s1|] //= run.
have [U Hm Hd Fm Fd] := solve_cellP E.
have [Hin Hout Fm' Fd'] := IH s1 uxs run.
split.
- move=> i; rewrite inE => /orP [/eqP ->|ixs] /=.
    have [-> ->] := Hout x xnotin.
    by rewrite Hm Hd set_nth_matE get_row_set_row !eqxx.
  have ne : i != x by apply: contraNneq xnotin => <-.
  have := Hin i ixs.
  by rewrite Hm Hd set_nth_matE get_row_set_row (negbTE ne).
- move=> i; rewrite inE negb_or => /andP [ne inotin].
  have [-> ->] := Hout i inotin.
  by rewrite Hm Hd set_nth_matE get_row_set_row (negbTE ne).
- by rewrite Fm'.
- by rewrite Fd'.
Qed.

Lemma mem_range (n : nat) (i : 'I_n) : i \in range n.
Proof. by rewrite /range mem_enum. Qed.

Lemma range_uniq (n : nat) : uniq (range n).
Proof. exact: enum_uniq. Qed.

(** [Impurity.solve], when it returns: for both electron models and every
    cell, the stored matrix is the entry matrix with its last row set to
    ones, it is invertible, and the new densities are its inverse applied to
    the right-hand side that carries the entry total in its last place. *)
Lemma solveP s s' :
  solve s = Returns s' ->
  forall k i,
    let A := set_last_row_ones (the_rate_mat k s i) in
    [/\ A \in unitmx, the_rate_mat k s' i = A &
        get_row (the_dens k s') i =
          invmx A *m rhs_last ns' (np_sum (get_row (the_dens k s) i))].
Proof.
rewrite /solve.
case E1: (for_each _ _ s) => [s1|] //= E2.
have [H1 _ Fm1 Fd1] := solve_loopP (range_uniq _) E1.
have [H2 _ Fm2 Fd2] := solve_loopP (range_uniq _) E2.
case=> i /=.
- by have := H1 i (mem_range i); rewrite /= -[rate_mat s1]Fm2 -[dens s1]Fd2.
- by have := H2 i (mem_range i); rewrite /= -[rate_mat_max s]Fm1 -[dens_max s]Fd1.
Qed.

Lemma solve_loop_returns k xs s :
  (forall i, i \in xs -> set_last_row_ones (the_rate_mat k s i) \in unitmx) ->
  exists s', for_each xs (solve_cell k) s = Returns s'.
Proof.
elim: xs s => [|x xs IH] s U /=; first by exists s.
have Ux := U x (mem_head _ _).
have E : solve_cell k x s = Returns
    (set_the_dens k
       (set_row (the_dens k s) x
          (invmx (set_last_row_ones (the_rate_mat k s x)) *m
           rhs_last ns' (np_sum (get_row (the_dens k s) x))))
       (set_the_rate_mat k
          (set_nth_mat (the_rate_mat k s) x
             (set_last_row_ones (the_rate_mat k s x))) s)).
  by rewrite /solve_cell linalg_inv_unit //; case: k {IH U Ux}.
rewrite E /=; apply: IH => i ixs.
have [_ -> _ _ _] := solve_cellP E.
rewrite set_nth_matE; case: ifP => _; first by rewrite set_last_row_onesK.
by apply: U; rewrite inE ixs orbT.
Qed.

(** [solve] returns exactly when every matrix with the conservation row is
    invertible. *)
Lemma solve_returns s :
  (forall k i, set_last_row_ones (the_rate_mat k s i) \in unitmx) ->
  exists s', solve s = Returns s'.
Proof.
move=> U; rewrite /solve.
have [s1 E1] := solve_loop_returns (xs := range num_x) (fun i _ => U Kinetic i).
rewrite E1 /=; apply: solve_loop_returns => i _.
have [_ _ Fm _] := solve_loopP (range_uniq _) E1.
by rewrite -[the_rate_mat _ s1]/(the_rate_mat (other Kinetic) s1) Fm; apply: U.
Qed.

Lemma set_nth_mat_id (l : {ffun 'I_num_x -> 'M[R]_tot_states}) i :
  set_nth_mat l i (l i) = l.
Proof. by apply/ffunP => k; rewrite set_nth_matE; case: eqP => // ->. Qed.

Lemma set_row_id (m n : nat) (A : 'M[R]_(m, n)) i : set_row A i (get_row A i) = A.
Proof.
by apply/matrixP => k j; rewrite /set_row /get_row !mxE; case: eqP => // ->.
Qed.

(** An iteration on a cell that is already solved changes nothing. *)
Lemma solve_cell_fix k i s :
  set_last_row_ones (the_rate_mat k s i) = the_rate_mat k s i ->
  the_rate_mat k s i \in unitmx ->
  get_row (the_dens k s) i =
    invmx (the_rate_mat k s i) *m rhs_last ns' (np_sum (get_row (the_dens k s) i)) ->
  solve_cell k i s = Returns s.
Proof.
move=> fixA U fixD; rewrite /solve_cell fixA linalg_inv_unit // set_nth_mat_id.
have -> : set_the_rate_mat k (the_rate_mat k s) s = s by case: k {fixA U fixD}; case: s.
by rewrite -fixD set_row_id; case: k {fixA U fixD}; case: s.
Qed.

Lemma solve_loop_fix k xs s :
  (forall i, i \in xs ->
     [/\ set_last_row_ones (the_rate_mat k s i) = the_rate_mat k s i,
         the_rate_mat k s i \in unitmx &
         get_row (the_dens k s) i =
           invmx (the_rate_mat k s i) *m
           rhs_last ns' (np_sum (get_row (the_dens k s) i))]) ->
  for_each xs (solve_cell k) s = Returns s.
Proof.
elim: xs => [|x xs IH] H //=.
have [fA U fD] := H x (mem_head _ _).
by rewrite solve_cell_fix //=; apply: IH => i ixs; apply: H; rewrite inE ixs orbT.
Qed.


(** A second direct solve finds every cell solved. *)
Lemma solve_solve s s' : solve s = Returns s' -> solve s' = Returns s'.
Proof.
move=> E; rewrite /solve.
have fixk k : for_each (range num_x) (solve_cell k) s' = Returns s'.
  apply: solve_loop_fix => i _.
  have [U Hm Hd] := solveP E k i.
  rewrite Hm set_last_row_onesK; split=> //.
  by rewrite [in RHS]Hd np_sum_solution.
by rewrite fixk /= fixk.
Qed.

(** ** The time step of [Impurity.evolve] *)

Lemma evolve_loopP k xs s :
  let s' := foldl (evolve_cell k) s xs in
  [/\ forall i, i \in xs ->
        get_row (tmp_dens s') i = the_op_mat k s i *m get_row (the_dens k s) i,
      forall i, i \notin xs -> get_row (tmp_dens s') i = get_row (tmp_dens s) i
    & [/\ dens s' = dens s, dens_max s' = dens_max s,
          op_mat s' = op_mat s & op_mat_max s' = op_mat_max s]].
Proof.
elim: xs s => [|x xs IH] s /=; first by do !split.
have [Hin Hout [Hd Hdm Ho Hom]] := IH (evolve_cell k s x).
have Eop : the_op_mat k (evolve_cell k s x) = the_op_mat k s.
  by case: k {IH Hin Hout Hd Hdm Ho Hom}.
have Ed : the_dens k (evolve_cell k s x) = the_dens k s.
  by case: k {IH Hin Hout Hd Hdm Ho Hom Eop}.
split; last by rewrite Hd Hdm Ho Hom.
- move=> i; rewrite inE; case: (boolP (i \in xs)) => [ixs _|inotin].
    by rewrite Hin // Eop Ed.
  rewrite orbF => /eqP Ei; rewrite {i}Ei in inotin *; rewrite Hout //.
  by rewrite /evolve_cell /set_tmp_dens /= get_row_set_row eqxx.
- move=> i; rewrite inE negb_or => /andP [ne inotin].
  by rewrite Hout // /evolve_cell /set_tmp_dens /= get_row_set_row (negbTE ne).
Qed.

(** [Impurity.evolve]: every cell of both density arrays is multiplied by
    its operator, and the returned residual is the larger of the two largest
    absolute changes. *)
Lemma evolveP s :
  let s' := (evolve s).2 in
  [/\ forall i, get_row (dens s') i = op_mat s i *m get_row (dens s) i,
      forall i, get_row (dens_max s') i = op_mat_max s i *m get_row (dens_max s) i,
      (evolve s).1 = py_max (np_max_abs_diff (dens s') (dens s))
                            (np_max_abs_diff (dens_max s') (dens_max s)),
      op_mat s' = op_mat s & op_mat_max s' = op_mat_max s].
Proof.
rewrite /evolve /=.
set s1 := foldl (evolve_cell Kinetic) s _.
have [H1 _ [Hd1 Hdm1 Ho1 Hom1]] := evolve_loopP Kinetic (range num_x) s.
rewrite -/s1 in H1 Hd1 Hdm1 Ho1 Hom1.
set s2 := set_dens _ s1.
set s3 := foldl (evolve_cell Maxwellian) s2 _.
have [H3 _ [Hd3 Hdm3 Ho3 Hom3]] := evolve_loopP Maxwellian (range num_x) s2.
rewrite -/s3 /= in H3 Hd3 Hdm3 Ho3 Hom3.
split.
- by move=> i; rewrite Hd3 /= H1 ?mem_range.
- by move=> i; rewrite H3 ?mem_range // Hom1 Hdm1.
- by rewrite Hd3 /= Hd1 Hdm3 Hdm1.
- by rewrite Ho3 /=.
- by rewrite Hom3 /=.
Qed.

(** ** The rate matrices of [build_rate_matrices] *)

(** Every column of every matrix of the two local lists sums to zero. *)
Definition cols_ok (l : Locals) : Prop :=
  forall i j, colsum (l_rate_mat l i) j = 0 /\ colsum (l_rate_mat_max l i) j = 0.

(** The entries of the four lists at the cells other than [x] agree. *)
Definition agree_off (x : 'I_num_x) (l l' : Locals) : Prop :=
  forall i, i != x ->
    [/\ l_rate_mat l' i = l_rate_mat l i,
        l_rate_mat_max l' i = l_rate_mat_max l i,
        l_op_mat l' i = l_op_mat l i &
        l_op_mat_max l' i = l_op_mat_max l i].

Lemma agree_off_refl x l : agree_off x l l.
Proof. by []. Qed.

Lemma agree_off_trans x l1 l2 l3 :
  agree_off x l1 l2 -> agree_off x l2 l3 -> agree_off x l1 l3.
Proof.
move=> H12 H23 i ne; have [a b c d] := H12 i ne; have [a' b' c' d'] := H23 i ne.
by rewrite a' b' c' d'.
Qed.

Lemma agree_off_add_rates i row col v vm l : agree_off i l (add_rates i row col v vm l).
Proof. by move=> k /negbTE ne; rewrite /add_rates /= !set_nth_matE ne. Qed.

(** A loss on the diagonal followed by the equal gain in the same column
    keeps the column sums of both lists. *)
Lemma cols_ok_loss_gain i src dst v vm l :
  cols_ok l ->
  cols_ok (add_rates i dst src v vm (add_rates i src src (- v) (- vm) l)).
Proof.
move=> ok k j; rewrite /add_rates /= !set_nth_matE !eqxx.
by case: (k == i); rewrite ?colsum_loss_gain; apply: ok.
Qed.

Lemma add_iz_transP i t l l' :
  add_iz_trans i t l = Returns l' ->
  agree_off i l l' /\ (cols_ok l -> cols_ok l').
Proof.
rewrite /add_iz_trans; case: (int_truediv _ _) => [r|] //= [<-]; split.
  by move=> k /negbTE ne; rewrite /add_rates /= !set_nth_matE !ne.
by move=> ok; do 2!apply: cols_ok_loss_gain.
Qed.

Lemma add_ex_transP i t l l' :
  add_ex_trans i t l = Returns l' ->
  agree_off i l l' /\ (cols_ok l -> cols_ok l').
Proof.
rewrite /add_ex_trans; case: (int_truediv _ _) => [r|] //= [<-]; split.
  by move=> k /negbTE ne; rewrite /add_rates /= !set_nth_matE !ne.
by move=> ok; do 2!apply: cols_ok_loss_gain.
Qed.

Lemma add_radrec_transP i t l l' :
  add_radrec_trans i t l = Returns l' ->
  agree_off i l l' /\ (cols_ok l -> cols_ok l').
Proof.
rewrite /add_radrec_trans => -[<-]; split; last exact: cols_ok_loss_gain.
by move=> k /negbTE ne; rewrite /add_rates /= !set_nth_matE !ne.
Qed.

Lemma add_em_transP i t l l' :
  add_em_trans i t l = Returns l' ->
  agree_off i l l' /\ (cols_ok l -> cols_ok l').
Proof.
rewrite /add_em_trans => -[<-]; split; last exact: cols_ok_loss_gain.
by move=> k /negbTE ne; rewrite /add_rates /= !set_nth_matE !ne.
Qed.

Lemma guarded_loopP i flag ts body l l' :
  (forall t l l', body t l = Returns l' ->
     agree_off i l l' /\ (cols_ok l -> cols_ok l')) ->
  guarded_loop flag ts body l = Returns l' ->
  agree_off i l l' /\ (cols_ok l -> cols_ok l').
Proof.
move=> step; rewrite /guarded_loop; case: flag; last by case=> <-.
move=> run; split.
  apply: (for_each_inv (P := agree_off i l)) run => // t l1 l2 H /step [H' _].
  exact: agree_off_trans H H'.
move=> ok.
by apply: (for_each_inv (P := cols_ok)) run => // t l1 l2 H /step [_]; apply.
Qed.

Lemma invert_cellP i l l' :
  invert_cell i l = Returns l' ->
  [/\ l_rate_mat l' = l_rate_mat l, l_rate_mat_max l' = l_rate_mat_max l,
      agree_off i l l',
      (1%:M - DELTA_T input *: l_rate_mat l i \in unitmx) /\
      l_op_mat l' i = invmx (1%:M - DELTA_T input *: l_rate_mat l i) &
      (1%:M - DELTA_T input *: l_rate_mat_max l i \in unitmx) /\
      l_op_mat_max l' i = invmx (1%:M - DELTA_T input *: l_rate_mat_max l i)].
Proof.
rewrite /invert_cell.
case E: (linalg_inv _) => [op|] //=; case E': (linalg_inv _) => [opm|] //= [<-].
have [U ->] := linalg_invP E; have [U' ->] := linalg_invP E'.
split=> //=.
- by move=> k /negbTE ne /=; rewrite !set_nth_matE ne.
- by rewrite set_nth_matE eqxx.
- by rewrite set_nth_matE eqxx.
Qed.

(** One iteration of the loop over the cells. *)
Lemma build_cellP s i l l' :
  build_cell s i l = Returns l' ->
  [/\ agree_off i l l', cols_ok l -> cols_ok l',
      (1%:M - DELTA_T input *: l_rate_mat l' i \in unitmx) /\
      l_op_mat l' i = invmx (1%:M - DELTA_T input *: l_rate_mat l' i) &
      (1%:M - DELTA_T input *: l_rate_mat_max l' i \in unitmx) /\
      l_op_mat_max l' i = invmx (1%:M - DELTA_T input *: l_rate_mat_max l' i)].
Proof.
rewrite /build_cell.
case E1: (guarded_loop _ _ _ l) => [l1|] //=.
case E2: (guarded_loop _ _ _ l1) => [l2|] //=.
case E3: (guarded_loop _ _ _ l2) => [l3|] //=.
case E4: (guarded_loop _ _ _ l3) => [l4|] //= E5.
have [A1 C1] := guarded_loopP (@add_iz_transP i) E1.
have [A2 C2] := guarded_loopP (@add_radrec_transP i) E2.
have [A3 C3] := guarded_loopP (@add_ex_transP i) E3.
have [A4 C4] := guarded_loopP (@add_em_transP i) E4.
have [Hr Hrm A5 Ho Hom] := invert_cellP E5.
split; rewrite ?Hr ?Hrm //.
- by do 4![apply: agree_off_trans; first eassumption].
- move=> /C1 /C2 /C3 /C4 ok k j.
  by rewrite Hr Hrm; apply: ok.
Qed.

Lemma build_loopP s xs l l' :
  uniq xs -> for_each xs (build_cell s) l = Returns l' ->
  [/\ cols_ok l -> cols_ok l',
      forall i, i \in xs ->
        (1%:M - DELTA_T input *: l_rate_mat l' i \in unitmx) /\
        l_op_mat l' i = invmx (1%:M - DELTA_T input *: l_rate_mat l' i) &
      forall i, i \in xs ->
        (1%:M - DELTA_T input *: l_rate_mat_max l' i \in unitmx) /\
        l_op_mat_max l' i = invmx (1%:M - DELTA_T input *: l_rate_mat_max l' i)]
  /\ forall i, i \notin xs ->
       [/\ l_rate_mat l' i = l_rate_mat l i,
           l_rate_mat_max l' i = l_rate_mat_max l i,
           l_op_mat l' i = l_op_mat l i &
           l_op_mat_max l' i = l_op_mat_max l i].
Proof.
elim: xs l => [|x xs IH] l /=; first by move=> _ [<-]; split=> //; split.
case/andP=> xnotin uxs; case E: (build_cell s x l) => [l1|] //= run.
have [A C Ho Hom] := build_cellP E.
have [[C' Hin Hinm] Hout] := IH l1 uxs run.
split; first split.
- by move=> /C /C'.
- move=> i; rewrite inE => /orP [/eqP ->|/Hin //].
  by have [-> _ -> _] := Hout x xnotin.
- move=> i; rewrite inE => /orP [/eqP ->|/Hinm //].
  by have [_ -> _ ->] := Hout x xnotin.
- move=> i; rewrite inE negb_or => /andP [ne /Hout [-> -> -> ->]].
  exact: A.
Qed.

Lemma cols_ok_zero : cols_ok zero_locals.
Proof.
by move=> i j; rewrite /zero_locals /= !ffunE /colsum;
   split; apply: big1 => k _; rewrite mxE.
Qed.

(** [Impurity.build_rate_matrices], when it returns: every column of every
    stored rate matrix sums to zero, every stored operator is the inverse of
    the backward Euler matrix of its cell, and nothing else has changed. *)
Lemma build_rate_matricesP s s' :
  build_rate_matrices s = Returns s' ->
  [/\ forall k i j, colsum (the_rate_mat k s' i) j = 0,
      forall k i, (1%:M - DELTA_T input *: the_rate_mat k s' i \in unitmx) /\
        the_op_mat k s' i = invmx (1%:M - DELTA_T input *: the_rate_mat k s' i),
      dens s' = dens s, dens_max s' = dens_max s &
      [/\ iz_transitions s' = iz_transitions s,
          ex_transitions s' = ex_transitions s,
          radrec_transitions s' = radrec_transitions s &
          spontem_transitions s' = spontem_transitions s]].
Proof.
rewrite /build_rate_matrices.
case E: (for_each _ _ _) => [l|] //= [<-] /=.
have [[C Hin Hinm] _] := build_loopP (range_uniq _) E.
split=> //.
- by case=> i j; have [] := C cols_ok_zero i j.
- by case=> i /=; [apply: Hin | apply: Hinm]; apply: mem_range.
Qed.

(** ** The transitions kept by [load_transitions] *)

(** The transition that a line of the file contributes to the list of type
    [ty], guarded by [flag]: none unless the line has that type, the flag is
    set and both of its states are found. *)
Definition line_transition (sts : seq State) (ty : string) (flag : bool)
    (l : TransLine) : option Transition :=
  if String.eqb (l_type l) ty && flag then
    match get_state sts (l_from_iz l) (l_from_statename l),
          get_state sts (l_to_iz l) (l_to_statename l) with
    | Some f, Some t => Some (new_Transition ty f t (l_dtype l) 0)
    | _, _ => None
    end
  else None.

Lemma foldl_inv (T S : Type) (P : S -> Prop) (f : S -> T -> S) (xs : seq T) :
  (forall s x, P s -> P (f s x)) -> forall s, P s -> P (foldl f s xs).
Proof. by move=> step; elim: xs => [|x xs IH] s Ps //=; apply/IH/step. Qed.

Lemma load_lineP s l :
  [/\ states (load_line s l) = states s,
      iz_transitions (load_line s l) =
        iz_transitions s ++
        seq_of_opt (line_transition (states s) "ionization" (COLL_ION_REC input) l),
      radrec_transitions (load_line s l) =
        radrec_transitions s ++
        seq_of_opt (line_transition (states s) "radrec" (RAD_REC input) l),
      ex_transitions (load_line s l) =
        ex_transitions s ++
        seq_of_opt (line_transition (states s) "excitation" (COLL_EX_DEEX input) l) &
      spontem_transitions (load_line s l) = spontem_transitions s].
Proof.
rewrite /load_line /line_transition.
case: (get_state _ (l_to_iz l) _) => [t|]; case: (get_state _ _ _) => [f|];
  rewrite ?andbF ?if_same /= ?cats0 //;
  do 3![case: (String.eqb _ _) => /=]; rewrite ?cats0 //;
  case: (COLL_ION_REC input); case: (RAD_REC input); case: (COLL_EX_DEEX input);
  by rewrite /= ?cats0 -?cats1.
Qed.

Lemma load_linesP s lines :
  let s' := foldl load_line s lines in
  [/\ states s' = states s,
      iz_transitions s' =
        iz_transitions s ++
        pmap (line_transition (states s) "ionization" (COLL_ION_REC input)) lines,
      radrec_transitions s' =
        radrec_transitions s ++
        pmap (line_transition (states s) "radrec" (RAD_REC input)) lines,
      ex_transitions s' =
        ex_transitions s ++
        pmap (line_transition (states s) "excitation" (COLL_EX_DEEX input)) lines &
      spontem_transitions s' = spontem_transitions s].
Proof.
elim: lines s => [|l ls IH] s /=; first by rewrite !cats0.
have [Hs Hiz Hrr Hex Hsp] := load_lineP s l.
have [Hs' -> -> -> ->] := IH (load_line s l).
rewrite Hs' Hs Hiz Hrr Hex Hsp -!catA; split=> //; congr (_ ++ _);
  by case: (line_transition _ _ _ l).
Qed.

(** The spontaneous emission table only adds to [spontem_transitions]. *)
Lemma load_spontem_transitionsP rows s :
  let s' := load_spontem_transitions rows s in
  [/\ states s' = states s, iz_transitions s' = iz_transitions s,
      radrec_transitions s' = radrec_transitions s &
      ex_transitions s' = ex_transitions s].
Proof.
rewrite /load_spontem_transitions.
pose P (s' : Impurity) :=
  [/\ states s' = states s, iz_transitions s' = iz_transitions s,
      radrec_transitions s' = radrec_transitions s &
      ex_transitions s' = ex_transitions s].
apply: (foldl_inv (P := P)) => // s1 z P1.
apply: (foldl_inv (P := P)) => // s2 f P2.
apply: (foldl_inv (P := P)) => // s3 t P3.
by case: ifP => // _; case: ifP.
Qed.

(** [load_transitions]: the three lists read from the transition file hold
    the transitions of exactly those lines whose type is enabled and whose
    two states are both found, in the order of the file. *)
Lemma load_transitionsP lines rows s :
  let s' := load_transitions lines rows s in
  [/\ iz_transitions s' =
        pmap (line_transition (states s) "ionization" (COLL_ION_REC input)) lines,
      radrec_transitions s' =
        pmap (line_transition (states s) "radrec" (RAD_REC input)) lines &
      ex_transitions s' =
        pmap (line_transition (states s) "excitation" (COLL_EX_DEEX input)) lines].
Proof.
rewrite /load_transitions.
have := load_linesP (set_transitions [::] [::] [::] [::] s) lines.
set s1 := foldl load_line _ lines => -[/= Hs Hiz Hrr Hex _].
case: (SPONT_EM input); last by rewrite Hiz Hrr Hex.
by have [_ -> -> ->] := load_spontem_transitionsP rows s1.
Qed.

(** A line with an unknown state leaves the object as it is. *)
Lemma load_line_unresolved s l :
  get_state (states s) (l_from_iz l) (l_from_statename l) = None \/
  get_state (states s) (l_to_iz l) (l_to_statename l) = None ->
  load_line s l = s.
Proof.
by rewrite /load_line; case=> -> //; case: (get_state _ _ _).
Qed.

Lemma get_row_inj (m n : nat) (A B : 'M[R]_(m, n)) :
  (forall i, get_row A i = get_row B i) -> A = B.
Proof.
move=> H; apply/matrixP => i j.
by have /colP /(_ j) := H i; rewrite /get_row !mxE.
Qed.


(** ** The properties of [impurity.py] *)


(** C3.  Column sums.  When [build_rate_matrices] returns, every column of
    every stored rate matrix, kinetic and Maxwellian, sums to zero: each
    transition has added a loss on the diagonal and the equal gain in the
    same column. *)
Theorem rate_matrix_columns_sum_to_zero s s' :
  build_rate_matrices s = Returns s' ->
  forall i j,
    colsum (rate_mat s' i) j = 0 /\ colsum (rate_mat_max s' i) j = 0.
Proof.
move=> /build_rate_matricesP [C _ _ _ _] i j.
by split; [apply: (C Kinetic) | apply: (C Maxwellian)].
Qed.

(** C4.  Idempotence of the direct solve, in exact arithmetic.  A direct
    solve that follows a direct solve returns the object unchanged; and the
    densities a direct solve produces depend on the object only through the
    rows above the last of its rate matrices and the total density of each
    cell.  On doubles the second solve starts from the rounded sum of the
    rounded densities, and the first half holds up to rounding only, as the
    run in double precision further down shows. *)
Theorem solve_idempotent s s1 :
  solve s = Returns s1 ->
  solve s1 = Returns s1 /\
  (forall t t1,
     (forall k i r c, r != ord_max ->
        the_rate_mat k t i r c = the_rate_mat k s i r c) ->
     (forall k i, np_sum (get_row (the_dens k t) i) =
                  np_sum (get_row (the_dens k s) i)) ->
     solve t = Returns t1 ->
     forall k, the_dens k t1 = the_dens k s1).
Proof.
move=> E; split; first exact: solve_solve E.
move=> t t1 Em Et E' k; apply: get_row_inj => i.
have [_ _ ->] := solveP E' k i; have [_ _ ->] := solveP E k i.
by rewrite Et (set_last_row_ones_eq (Em k i)).
Qed.










(** C9.  Transitions with an unknown state are dropped in silence.
    [load_transitions] is a total function of the parsed file: each of the
    three lists it fills holds the transitions of exactly the lines of its
    type, with the flag of that type set, whose from-state and to-state are
    both found by [get_state]; and a line one of whose states is not found
    changes nothing, the lines after it being loaded as if it were absent. *)
Theorem unresolved_transitions_dropped lines rows s :
  let s' := load_transitions lines rows s in
  [/\ iz_transitions s' =
        pmap (line_transition (states s) "ionization" (COLL_ION_REC input)) lines,
      radrec_transitions s' =
        pmap (line_transition (states s) "radrec" (RAD_REC input)) lines,
      ex_transitions s' =
        pmap (line_transition (states s) "excitation" (COLL_EX_DEEX input)) lines &
      forall before l after,
        lines = before ++ l :: after ->
        get_state (states s) (l_from_iz l) (l_from_statename l) = None \/
        get_state (states s) (l_to_iz l) (l_to_statename l) = None ->
        s' = load_transitions (before ++ after) rows s].
Proof.
have [Hiz Hrr Hex] := load_transitionsP lines rows s.
split=> // before l after -> unres.
rewrite /load_transitions !foldl_cat /=.
set s1 := foldl load_line _ before.
have [Hs _ _ _ _] := load_linesP (set_transitions [::] [::] [::] [::] s) before.
by rewrite load_line_unresolved // -/s1 Hs.
Qed.

(** C10.  The direct solve overwrites the stored matrices.  After [solve]
    has returned, the last row of every stored rate matrix, kinetic and
    Maxwellian, is all ones and its other rows are as before; the sum of
    column [c] has changed by [1 - A[-1, c]]; the columns of the stored
    matrix no longer all sum to zero (the matrix has been inverted); and the
    last column of a matrix whose columns summed to zero and whose last
    diagonal entry is a loss sums to at least one. *)
Theorem solve_overwrites_stored_matrices s s' :
  solve s = Returns s' ->
  forall k i,
    [/\ forall c, the_rate_mat k s' i ord_max c = 1,
        forall r c, r != ord_max ->
          the_rate_mat k s' i r c = the_rate_mat k s i r c,
        forall c, colsum (the_rate_mat k s' i) c =
                  colsum (the_rate_mat k s i) c - the_rate_mat k s i ord_max c + 1,
        exists c, colsum (the_rate_mat k s' i) c != 0 &
        colsum (the_rate_mat k s i) ord_max = 0 ->
        the_rate_mat k s i ord_max ord_max <= 0 ->
        1 <= colsum (the_rate_mat k s' i) ord_max].
Proof.
move=> E k i; have [U Hm _] := solveP E k i.
rewrite Hm; split=> [c|r c /negbTE ne|c||c0 le0].
- by rewrite /set_last_row_ones mxE eqxx.
- by rewrite /set_last_row_ones mxE ne.
- exact: colsum_set_last_row_ones.
- exact: colsum_unit_neq0.
- by rewrite colsum_set_last_row_ones c0 sub0r lerDr oppr_ge0.
Qed.

(** ** More on the direct solve and the time step *)

Lemma np_max_abs_diff_same (m n : nat) (A : 'M[R]_(m.+1, n.+1)) :
  np_max_abs_diff A A = 0.
Proof.
by have [i [j ->]] := np_max_abs_diff_attained A A; rewrite subrr normr0.
Qed.

(** [solve] leaves the operators of the time step alone. *)
Lemma solve_cell_op_mat k i s s' :
  solve_cell k i s = Returns s' ->
  op_mat s' = op_mat s /\ op_mat_max s' = op_mat_max s.
Proof.
by rewrite /solve_cell; case: (linalg_inv _) => [B|] // [<-]; case: k.
Qed.

Lemma solve_op_mat s s' :
  solve s = Returns s' -> forall k, the_op_mat k s' = the_op_mat k s.
Proof.
have loop k xs t t' : for_each xs (solve_cell k) t = Returns t' ->
    op_mat t' = op_mat t /\ op_mat_max t' = op_mat_max t.
  move=> run.
  apply: (for_each_inv
    (P := fun u => op_mat u = op_mat t /\ op_mat_max u = op_mat_max t)) run => //.
  by move=> x u u' [<- <-]; apply: solve_cell_op_mat.
rewrite /solve; case E1: (for_each _ _ s) => [s1|] //= E2.
have [H1 H1m] := loop _ _ _ _ E1; have [H2 H2m] := loop _ _ _ _ E2.
by case=> /=; rewrite ?H2 ?H2m.
Qed.

(** A vector that a rate matrix with vanishing column sums sends to zero
    in all rows but the last is sent to zero. *)
Lemma kernel_last_row (n : nat) (A : 'M[R]_n.+1) (x : 'cV[R]_n.+1) :
  (forall j, colsum A j = 0) ->
  (forall r, r != ord_max -> (A *m x) r 0 = 0) ->
  A *m x = 0.
Proof.
move=> cs rows; apply/colP => r; rewrite [RHS]mxE.
case: (r =P ord_max) => [->|/eqP]; last exact: rows.
have : np_sum (A *m x) = 0.
  by rewrite np_sum_mulmx big1 // => j _; rewrite cs mul0r.
by rewrite /np_sum (bigD1 ord_max) //= big1 ?addr0.
Qed.

(** The densities of a direct solve are stationary: the rate matrix that
    [build_rate_matrices] has stored sends them to zero. *)
Lemma solve_kernel s0 s1 s2 k i :
  build_rate_matrices s0 = Returns s1 -> solve s1 = Returns s2 ->
  the_rate_mat k s1 i *m get_row (the_dens k s2) i = 0.
Proof.
move=> /build_rate_matricesP [C _ _ _ _] /solveP /(_ k i) /= [U _ Hd].
apply: kernel_last_row => [j|r /negbTE ne]; first exact: C.
set A := the_rate_mat k s1 i in U Hd *.
have <- : (set_last_row_ones A *m get_row (the_dens k s2) i) r 0 = 0.
  by rewrite Hd mulKVmx // /rhs_last mxE ne.
by rewrite !mxE; apply: eq_bigr => c _; rewrite /set_last_row_ones mxE ne.
Qed.

(** Equilibrium is a fixed point of the time step.  After
    [build_rate_matrices] and a direct solve, the stored rate matrices (as
    built) send the densities of every cell to zero, a step of [evolve]
    leaves both density arrays as they are, and the residual it returns is
    zero. *)
Theorem solved_densities_are_stationary s0 s1 s2 :
  build_rate_matrices s0 = Returns s1 -> solve s1 = Returns s2 ->
  [/\ forall k i, the_rate_mat k s1 i *m get_row (the_dens k s2) i = 0,
      forall k, the_dens k (evolve s2).2 = the_dens k s2 &
      (evolve s2).1 = 0].
Proof.
move=> B S.
have K k i := solve_kernel k i B S.
have fix_row k i :
    the_op_mat k s2 i *m get_row (the_dens k s2) i = get_row (the_dens k s2) i.
  have [_ /(_ k i) [U Eo] _ _ _] := build_rate_matricesP B.
  rewrite (solve_op_mat S) Eo.
  rewrite -[X in invmx _ *m X](mul1mx (get_row _ _)).
  have -> : 1%:M *m get_row (the_dens k s2) i =
            (1%:M - DELTA_T input *: the_rate_mat k s1 i) *m get_row (the_dens k s2) i.
    by rewrite mulmxBl -scalemxAl K scaler0 subr0.
  by rewrite mulKmx.
have [Hd Hdm Hr _ _] := evolveP s2.
have Ed : dens (evolve s2).2 = dens s2.
  by apply: get_row_inj => i; rewrite Hd (fix_row Kinetic).
have Edm : dens_max (evolve s2).2 = dens_max s2.
  by apply: get_row_inj => i; rewrite Hdm (fix_row Maxwellian).
split=> //; first by case.
by rewrite Hr Ed Edm !np_max_abs_diff_same /py_max ltxx.
Qed.

(** ** Looking states and thresholds up *)

(** The test of [get_state]. *)
Definition state_is (z : int) (name : string) (st : State) : bool :=
  (iz st == z) && String.eqb (statename st) name.

(** [get_state] finds the first state of the table with the given charge
    and name; when the table has none it falls off its loop and returns
    [None]. *)
Theorem get_state_first_match (sts : seq State) (z : int) (name : string) :
  match get_state sts z name with
  | Some st =>
      exists before after,
        [/\ sts = before ++ st :: after, iz st = z, statename st = name &
            ~~ has (state_is z name) before]
  | None => ~~ has (state_is z name) sts
  end.
Proof.
elim: sts => [|st sts IH] //=.
rewrite -/(state_is z name st); case F: (state_is z name st).
  exists [::], sts; split=> //; first by case/andP: F => /eqP.
  by case/andP: F => _ /String.eqb_eq.
case: (get_state sts z name) IH => [st'|] //=.
move=> [before [after [-> Ez En nb]]].
by exists (st :: before), after; split=> //=; rewrite F.
Qed.

(** The test of [get_radrec_E]: an ionization transition between the two
    charge states of the recombination, the other way round. *)
Definition reverse_of (radrec_trans iz_trans : Transition) : bool :=
  (iz (from_state iz_trans) == iz (to_state radrec_trans))
  && (iz (to_state iz_trans) == iz (from_state radrec_trans)).

Lemma get_radrec_E_rcons s0 (its : seq Transition) (it : Transition) t :
  foldl (fun eps iz_trans =>
    if reverse_of t iz_trans
    then Some (thresh iz_trans - energy (to_state t))
    else eps) s0 (rcons its it) =
  if reverse_of t it then Some (thresh it - energy (to_state t))
  else foldl (fun eps iz_trans =>
    if reverse_of t iz_trans
    then Some (thresh iz_trans - energy (to_state t))
    else eps) s0 its.
Proof. by rewrite -cats1 foldl_cat. Qed.

Lemma get_radrec_E_last_match_aux (s : Impurity) (radrec_trans : Transition) :
  match get_radrec_E s radrec_trans with
  | Some eps =>
      exists before iz_trans after,
        [/\ iz_transitions s = before ++ iz_trans :: after,
            reverse_of radrec_trans iz_trans,
            ~~ has (reverse_of radrec_trans) after &
            eps = thresh iz_trans - energy (to_state radrec_trans)]
  | None => ~~ has (reverse_of radrec_trans) (iz_transitions s)
  end.
Proof.
rewrite /get_radrec_E -/(reverse_of radrec_trans).
elim/last_ind: (iz_transitions s) => [|its it IH] //.
rewrite -[foldl _ _ _]/(foldl (fun eps iz_trans =>
    if reverse_of radrec_trans iz_trans
    then Some (thresh iz_trans - energy (to_state radrec_trans))
    else eps) None (rcons its it)) get_radrec_E_rcons.
case Rv: (reverse_of radrec_trans it).
  by exists its, it, [::]; rewrite cats1.
case: (foldl _ _ _) IH => [eps|] /=; last by rewrite has_rcons Rv.
move=> [before [it' [after [-> Rv' na ->]]]].
exists before, it', (rcons after it); split=> //.
  by rewrite rcons_cat.
by rewrite has_rcons Rv.
Qed.

(** [get_radrec_E] takes the threshold of the last ionization transition
    that matches; when none matches, its local [eps] is never assigned. *)
Theorem get_radrec_E_last_match (s : Impurity) (radrec_trans : Transition) :
  match get_radrec_E s radrec_trans with
  | Some eps =>
      exists before iz_trans after,
        [/\ iz_transitions s = before ++ iz_trans :: after,
            reverse_of radrec_trans iz_trans,
            ~~ has (reverse_of radrec_trans) after &
            eps = thresh iz_trans - energy (to_state radrec_trans)]
  | None => ~~ has (reverse_of radrec_trans) (iz_transitions s)
  end.
Proof. exact: get_radrec_E_last_match_aux. Qed.

(** [get_radrec_E_rates] raises [UnboundLocalError] exactly when radiative
    recombination is switched on and some radiative recombination transition
    has no ionization transition between its two charge states; otherwise it
    returns. *)
Theorem get_radrec_E_rates_raises_iff (s : Impurity) :
  if RAD_REC input
     && has (fun t => ~~ has (reverse_of t) (iz_transitions s))
            (radrec_transitions s)
  then exists arrs, get_radrec_E_rates s = Raises UnboundLocalError arrs
  else exists arrs, get_radrec_E_rates s = Returns arrs.
Proof.
have inner_ok i : ~~ has (fun t => ~~ has (reverse_of t) (iz_transitions s))
      (radrec_transitions s) ->
    forall acc, exists acc',
      for_each (radrec_transitions s) (add_radrec_E s i) acc = Returns acc'.
  elim: (radrec_transitions s) => [|t ts IH] /=; first by move=> _ acc; exists acc.
  rewrite negb_or negbK => /andP [ht hts] acc.
  rewrite {1}/add_radrec_E.
  have := get_radrec_E_last_match_aux s t.
  case: (get_radrec_E s t) => [e _|]; last by rewrite ht.
  exact: IH.
have inner_bad i : has (fun t => ~~ has (reverse_of t) (iz_transitions s))
      (radrec_transitions s) ->
    forall acc, exists acc',
      for_each (radrec_transitions s) (add_radrec_E s i) acc =
      Raises UnboundLocalError acc'.
  elim: (radrec_transitions s) => [|t ts IH] //= /orP H acc.
  rewrite {1}/add_radrec_E.
  have := get_radrec_E_last_match_aux s t.
  case: (get_radrec_E s t) => [e|_] /=; last by eexists.
  move=> [before [it [after [Ei Rv _ _]]]].
  case: H => [ht|hts]; last exact: IH.
  by move: ht; rewrite Ei has_cat /= Rv orbT.
rewrite /get_radrec_E_rates.
case RR: (RAD_REC input) => /=; last first.
  have [arrs ->] : exists arrs,
      for_each (range num_x)
        (fun (_ : 'I_num_x) (arrs : 'cV[R]_num_x * 'cV[R]_num_x) => Returns arrs)
        (0, 0) = Returns arrs.
    by apply: for_each_total => i arrs; exists arrs.
  by eexists.
case: ifPn => [bad|ok].
  rewrite /range enum_ordSl /=.
  have [acc' ->] := inner_bad ord0 bad
    ((0 : 'cV[R]_num_x) ord0 0, (0 : 'cV[R]_num_x) ord0 0).
  by eexists.
have [arrs ->] : exists arrs,
    for_each (range num_x)
      (fun i (arrs : 'cV[R]_num_x * 'cV[R]_num_x) =>
         match for_each (radrec_transitions s) (add_radrec_E s i)
                 (arrs.1 i 0, arrs.2 i 0) with
         | Returns acc =>
             Returns (\col_k (if k == i then acc.1 else arrs.1 k 0),
                      \col_k (if k == i then acc.2 else arrs.2 k 0))
         | Raises e _ => Raises e arrs
         end) (0, 0) = Returns arrs.
  apply: for_each_total => i arrs.
  by have [acc' ->] := inner_ok i ok (arrs.1 i 0, arrs.2 i 0); eexists.
by eexists.
Qed.

(** ** Charge state diagnostics *)

(** The attributes [dens_saha], [Zeff], [Zavg] and their variants are not
    among the attributes the methods above use; the array [dens_saha] is an
    argument of the functions below, and what a method stores in [self] is
    what the function returns. *)

(** [Impurity.get_Zeff]: the arrays [Zeff], [Zeff_max] and [Zeff_saha]. *)
Definition get_Zeff (s : Impurity) (dens_saha : 'M[R]_(num_x, tot_states)) :
    'cV[R]_num_x * 'cV[R]_num_x * 'cV[R]_num_x :=
  let dens_tot i := \sum_k dens s i k in
  let dens_tot_max i := \sum_k dens_max s i k in
  let dens_tot_saha i := \sum_k dens_saha i k in
  let cell i :=
    let acc :=
      foldl (fun acc state =>
        let z := iz state in
        let k := loc state in
        (acc.1.1 + dens s i k * z%:~R ^+ 2,
         acc.1.2 + dens_max s i k * z%:~R ^+ 2,
         acc.2 + dens_saha i k * z%:~R ^+ 2)) (0, 0, 0) (states s) in
    (if 0 < dens_tot i then acc.1.1 / DENSITY skrun i 0 else acc.1.1,
     if 0 < dens_tot_max i then acc.1.2 / DENSITY skrun i 0 else acc.1.2,
     if 0 < dens_tot_saha i then acc.2 / DENSITY skrun i 0 else acc.2) in
  (\col_i (cell i).1.1, \col_i (cell i).1.2, \col_i (cell i).2).

(** [Impurity.get_Zavg]: the arrays [Zavg], [Zavg_max] and [Zavg_saha]. *)
Definition get_Zavg (s : Impurity) (dens_saha : 'M[R]_(num_x, tot_states)) :
    'cV[R]_num_x * 'cV[R]_num_x * 'cV[R]_num_x :=
  let dens_tot i := \sum_k dens s i k in
  let dens_tot_max i := \sum_k dens_max s i k in
  let dens_tot_saha i := \sum_k dens_saha i k in
  let cell i :=
    let acc :=
      foldl (fun acc state =>
        let z := iz state in
        let k := loc state in
        (acc.1.1 + dens s i k * z%:~R,
         acc.1.2 + dens_max s i k * z%:~R,
         acc.2 + dens_saha i k * z%:~R)) (0, 0, 0) (states s) in
    (if 0 < dens_tot i then acc.1.1 / dens_tot i else acc.1.1,
     if 0 < dens_tot_max i then acc.1.2 / dens_tot_max i else acc.1.2,
     if 0 < dens_tot_saha i then acc.2 / dens_tot_saha i else acc.2) in
  (\col_i (cell i).1.1, \col_i (cell i).1.2, \col_i (cell i).2).

(** The array of a triple that belongs to an electron model. *)
Definition the_array (T : Type) (k : electrons) (arrs : T * T * T) : T :=
  match k with Kinetic => arrs.1.1 | Maxwellian => arrs.1.2 end.

(** The number [m] as an index below [n], if it is one. *)
Definition ord_of (n m : nat) : option 'I_n :=
  (if (m < n)%N as b return ((m < n)%N = b -> option 'I_n)
   then fun lt => Some (Ordinal lt) else fun _ => None) (erefl _).

Lemma ord_ofE (n m : nat) : ord_of n m = insub m.
Proof.
rewrite /ord_of; case: insubP => [u lt Eu|/negbTE nlt].
  move: (erefl _); rewrite {2 3}lt => lt'.
  by congr Some; apply/val_inj.
by move: (erefl _); rewrite {2 3}nlt.
Qed.

(** An index of an axis of length [n], as numpy reads an [int]: negative
    indices count from the end, and an index outside [-n, n) raises
    [IndexError] (here [None]). *)
Definition np_index (n : nat) (k : int) : option 'I_n :=
  match k with
  | Posz m => ord_of n m
  | Negz m => if (m < n)%N then ord_of n (n - m.+1) else None
  end.

(** [arr[:, z] += v]. *)
Definition add_col (m n : nat) (arr : 'M[R]_(m, n)) (z : 'I_n) (v : 'cV[R]_m) :
    'M[R]_(m, n) :=
  \matrix_(i, c) if c == z then arr i c + v i 0 else arr i c.

(** [Impurity.get_z_dens]: the densities of the charge states, the states
    of one charge summed; [None] stands for the [IndexError] of a charge
    that is no index of an axis of length [num_z]. *)
Definition get_z_dens (s : Impurity) (dens_saha : 'M[R]_(num_x, tot_states)) :
    option ('M[R]_(num_x, num_z s) * 'M[R]_(num_x, num_z s)
            * 'M[R]_(num_x, num_z s)) :=
  foldl (fun acc state =>
    match acc, np_index (num_z s) (iz state) with
    | Some arrs, Some z =>
        Some (add_col arrs.1.1 z (col (loc state) (dens s)),
              add_col arrs.1.2 z (col (loc state) (dens_max s)),
              add_col arrs.2 z (col (loc state) dens_saha))
    | _, _ => None
    end) (Some (0, 0, 0)) (states s).

(** Three sums accumulated in one loop. *)
Lemma foldl_sum3 (T : Type) (f g h : T -> R) (xs : seq T) (a b c : R) :
  foldl (fun acc x => (acc.1.1 + f x, acc.1.2 + g x, acc.2 + h x)) (a, b, c) xs =
  (a + \sum_(x <- xs) f x, b + \sum_(x <- xs) g x, c + \sum_(x <- xs) h x).
Proof.
elim: xs a b c => [|x xs IH] a b c /=; first by rewrite !big_nil !addr0.
by rewrite IH !big_cons !addrA.
Qed.

(** The state table lists every index once: what [load_states] provides
    when it numbers the states it keeps. *)
Definition locs_enumerate (sts : seq State) : Prop :=
  perm_eq (map loc sts) (enum 'I_tot_states).

Lemma sum_over_states (sts : seq State) (F : 'I_tot_states -> R) :
  locs_enumerate sts -> \sum_(st <- sts) F (loc st) = \sum_k F k.
Proof.
move=> locs; rewrite -(big_map loc xpredT F) (perm_big _ locs) /=.
by rewrite big_enum.
Qed.

(** A sum of weighted terms lies between the extreme weights times the sum. *)
Lemma weighted_sum_bounds (T : Type) (P : pred T) (w c : T -> R) (lo hi : R)
    (xs : seq T) :
  all P xs -> (forall x, P x -> lo <= c x <= hi) -> (forall x, 0 <= w x) ->
  lo * (\sum_(x <- xs) w x) <= \sum_(x <- xs) w x * c x <= hi * \sum_(x <- xs) w x.
Proof.
move=> + Hc Hw; elim: xs => [|x xs IH] /=.
  by rewrite !big_nil !mulr0 lexx.
case/andP=> Px /IH /andP [Hlo Hhi]; rewrite !big_cons !mulrDr.
have /andP [clo chi] := Hc x Px.
apply/andP; split; rewrite lerD //.
  by rewrite mulrC; apply: ler_wpM2l.
by rewrite [hi * _]mulrC; apply: ler_wpM2l.
Qed.

(** The mean charge is a mean.  In a cell where the densities of an
    electron model are not negative and their sum is positive, [Zavg] times
    that sum is the sum of charge times density over the states; and if the
    state table lists every index once, [Zavg] lies between the smallest and
    the largest charge of the table. *)
Theorem Zavg_is_a_mean (s : Impurity) (dens_saha : 'M[R]_(num_x, tot_states))
    (k : electrons) (i : 'I_num_x) (zmin zmax : int) :
  let Zavg := the_array k (get_Zavg s dens_saha) in
  (forall j, 0 <= the_dens k s i j) -> 0 < \sum_j the_dens k s i j ->
  Zavg i 0 * (\sum_j the_dens k s i j) =
    \sum_(st <- states s) the_dens k s i (loc st) * (iz st)%:~R
  /\ (locs_enumerate (states s) ->
      all (fun st => (zmin <= iz st) && (iz st <= zmax)) (states s) ->
      zmin%:~R <= Zavg i 0 <= zmax%:~R).
Proof.
move=> Zavg pos tot.
have EZ : Zavg i 0 =
    (\sum_(st <- states s) the_dens k s i (loc st) * (iz st)%:~R)
      / \sum_j the_dens k s i j.
  rewrite /Zavg /get_Zavg.
  by case: k {Zavg} pos tot => pos tot /=; rewrite mxE
       (foldl_sum3 (fun st => dens s i (loc st) * (iz st)%:~R)
                   (fun st => dens_max s i (loc st) * (iz st)%:~R)
                   (fun st => dens_saha i (loc st) * (iz st)%:~R)) /= tot !add0r.
split=> [|locs zs]; first by rewrite EZ divfK // gt_eqF.
have := weighted_sum_bounds (w := fun st => the_dens k s i (loc st))
          (c := fun st => (iz st)%:~R) (lo := zmin%:~R) (hi := zmax%:~R) zs.
rewrite (sum_over_states (fun j => the_dens k s i j) locs) EZ.
rewrite ler_pdivlMr // ler_pdivrMr //; apply=> // st.
by rewrite !ler_int.
Qed.

Lemma np_index_bounds (n : nat) (z : int) :
  (np_index n z : bool) = (- n%:Z <= z) && (z < n%:Z).
Proof.
case: z => m /=; rewrite ?ord_ofE.
  have -> : - n%:Z <= Posz m by rewrite (le_trans _ (lez_nat 0 m)) // oppr_le0.
  by rewrite ltz_nat /=; case: insubP => [u ->|/negbTE ->].
rewrite NegzE lerN2 lez_nat.
have -> : - (m.+1)%:Z < n%:Z by rewrite (lt_le_trans _ (lez_nat 0 n)) // oppr_lt0.
rewrite andbT; case: ltnP => [lt|//].
by case: insubP => //; rewrite ltn_subrL /= (leq_ltn_trans _ lt).
Qed.

(** The charge states partition the density.  [get_z_dens] raises
    [IndexError] exactly when the charge of some state lies outside
    [-num_z, num_z); when it returns and the state table lists every index
    once, the densities of the charge states of a cell have the same sum as
    the densities of its states, for the three arrays. *)
Theorem get_z_dens_conserves (s : Impurity)
    (dens_saha : 'M[R]_(num_x, tot_states)) :
  match get_z_dens s dens_saha with
  | Some arrs =>
      all (fun st => (- (num_z s)%:Z <= iz st) && (iz st < (num_z s)%:Z))
          (states s) /\
      (locs_enumerate (states s) ->
       forall i,
         [/\ \sum_z arrs.1.1 i z = \sum_j dens s i j,
             \sum_z arrs.1.2 i z = \sum_j dens_max s i j &
             \sum_z arrs.2 i z = \sum_j dens_saha i j])
  | None =>
      has (fun st => ~~ ((- (num_z s)%:Z <= iz st) && (iz st < (num_z s)%:Z)))
          (states s)
  end.
Proof.
rewrite /get_z_dens /locs_enumerate.
set body := (fun acc state => _).
set ok := (fun st : State => _ && _).
have add_sum (arr : 'M[R]_(num_x, num_z s)) z v i :
    \sum_c add_col arr z v i c = \sum_c arr i c + v i 0.
  rewrite (bigD1 z) //= [in RHS](bigD1 z) //= mxE eqxx -!addrA; congr (_ + _).
  rewrite addrC; congr (_ + _).
  by apply: eq_bigr => c /negbTE ne; rewrite mxE ne.
have none sts : foldl body None sts = None.
  by elim: sts.
have H sts : forall (arrs0 : 'M[R]_(num_x, num_z s) * 'M[R]_(num_x, num_z s)
                             * 'M[R]_(num_x, num_z s)),
    match foldl body (Some arrs0) sts with
    | Some arrs =>
        all ok sts /\
        forall i,
          [/\ \sum_z arrs.1.1 i z =
                \sum_z arrs0.1.1 i z + \sum_(st <- sts) dens s i (loc st),
              \sum_z arrs.1.2 i z =
                \sum_z arrs0.1.2 i z + \sum_(st <- sts) dens_max s i (loc st) &
              \sum_z arrs.2 i z =
                \sum_z arrs0.2 i z + \sum_(st <- sts) dens_saha i (loc st)]
    | None => has (fun st => ~~ ok st) sts
    end.
  elim: sts => [|st sts IH] arrs0 /=.
    by split=> // i; rewrite !big_nil !addr0.
  rewrite /ok -np_index_bounds.
  case Ez: (np_index (num_z s) (iz st)) => [z|] /=; last by rewrite none.
  have := IH (add_col arrs0.1.1 z (col (loc st) (dens s)),
              add_col arrs0.1.2 z (col (loc st) (dens_max s)),
              add_col arrs0.2 z (col (loc st) dens_saha)).
  case: (foldl _ _ _) => [arrs|] //= [A S]; split=> // i.
  have [S1 S2 S3] := S i.
  by rewrite S1 S2 S3 !add_sum !big_cons !mxE !addrA.
have := H (states s) (0, 0, 0).
case: (foldl _ _ _) => [arrs|] // [A S]; split=> // locs i.
have [S1 S2 S3] := S i.
rewrite S1 S2 S3 /=.
rewrite (sum_over_states (fun j => dens s i j) locs)
        (sum_over_states (fun j => dens_max s i j) locs)
        (sum_over_states (fun j => dens_saha i j) locs).
by split; rewrite big1 ?add0r // => z _; rewrite mxE.
Qed.

(** ** The effective charge *)

(** An integer is at most its square. *)
Lemma intr_le_sqr (z : int) : z%:~R <= (z%:~R ^+ 2 : R).
Proof.
rewrite -rmorphXn /= ler_int.
case: z => [[|m]|m] //.
by rewrite expr2 -PoszM lez_nat leq_pmulr.
Qed.

Lemma get_ZeffE (s : Impurity) (dens_saha : 'M[R]_(num_x, tot_states))
    (k : electrons) (i : 'I_num_x) :
  0 < \sum_j the_dens k s i j ->
  the_array k (get_Zeff s dens_saha) i 0 =
    (\sum_(st <- states s) the_dens k s i (loc st) * (iz st)%:~R ^+ 2)
      / DENSITY skrun i 0.
Proof.
rewrite /get_Zeff.
by case: k => tot /=; rewrite mxE
     (foldl_sum3 (fun st => dens s i (loc st) * (iz st)%:~R ^+ 2)
                 (fun st => dens_max s i (loc st) * (iz st)%:~R ^+ 2)
                 (fun st => dens_saha i (loc st) * (iz st)%:~R ^+ 2)) /= tot !add0r.
Qed.

Lemma get_ZavgE (s : Impurity) (dens_saha : 'M[R]_(num_x, tot_states))
    (k : electrons) (i : 'I_num_x) :
  0 < \sum_j the_dens k s i j ->
  the_array k (get_Zavg s dens_saha) i 0 =
    (\sum_(st <- states s) the_dens k s i (loc st) * (iz st)%:~R)
      / \sum_j the_dens k s i j.
Proof.
rewrite /get_Zavg.
by case: k => tot /=; rewrite mxE
     (foldl_sum3 (fun st => dens s i (loc st) * (iz st)%:~R)
                 (fun st => dens_max s i (loc st) * (iz st)%:~R)
                 (fun st => dens_saha i (loc st) * (iz st)%:~R)) /= tot !add0r.
Qed.

(** [Zeff] is normalised by the electron density, [Zavg] by the impurity
    density.  In a cell where the densities of an electron model are not
    negative, their sum is positive and the electron density [DENSITY] is not
    zero, [Zeff] times the electron density is the sum of squared charge
    times density over the states, and it is at least [Zavg] times the
    summed impurity density. *)
Theorem Zeff_dominates_Zavg (s : Impurity)
    (dens_saha : 'M[R]_(num_x, tot_states)) (k : electrons) (i : 'I_num_x) :
  let Zeff := the_array k (get_Zeff s dens_saha) in
  let Zavg := the_array k (get_Zavg s dens_saha) in
  (forall j, 0 <= the_dens k s i j) -> 0 < \sum_j the_dens k s i j ->
  DENSITY skrun i 0 != 0 ->
  Zeff i 0 * DENSITY skrun i 0 =
    \sum_(st <- states s) the_dens k s i (loc st) * (iz st)%:~R ^+ 2
  /\ Zavg i 0 * (\sum_j the_dens k s i j) <= Zeff i 0 * DENSITY skrun i 0.
Proof.
move=> Zeff Zavg pos tot ne0.
rewrite /Zeff /Zavg get_ZeffE // get_ZavgE // divfK // divfK ?gt_eqF //.
split=> //; apply: ler_sum => st _.
by apply: ler_wpM2l; [exact: pos | exact: intr_le_sqr].
Qed.

(** ** The densities by charge *)

(** The columns of a two-dimensional array, first to last. *)
Definition columns (m n : nat) (A : 'M[R]_(m, n)) : seq 'cV[R]_m :=
  [seq col j A | j <- enum 'I_n].

(** [Impurity.get_state_dens].  A slice [all_dens[:, a:b]] is the list of
    its columns; as in numpy, a slice that reaches past the last column
    stops there. *)
Definition get_state_dens (m n : nat) (s : Impurity) (all_dens : 'M[R]_(m, n)) :
    seq (seq 'cV[R]_m) :=
  (foldl (fun acc (z : nat) =>
     let: (state_dens, start_loc) := acc in
     let num_states :=
       foldl (fun num_states state =>
                if iz state == z%:Z then num_states.+1 else num_states)
             0%N (states s) in
     let end_loc := (start_loc + num_states)%N in
     (rcons state_dens
        (take (end_loc - start_loc) (drop start_loc (columns all_dens))),
      end_loc)) ([::], 0%N) (iota 0 (num_z s))).1.

(** The number of states of a charge, and of the charges below [z]. *)
Definition states_with_charge (s : Impurity) (z : nat) : nat :=
  count (fun st => iz st == z%:Z) (states s).

Definition states_below_charge (s : Impurity) (z : nat) : nat :=
  count (fun st => (0 <= iz st) && (iz st < z%:Z)) (states s).

Lemma iota0S (k : nat) : iota 0 k.+1 = rcons (iota 0 k) k.
Proof. by rewrite -{1}(addn1 k) iotaD cats1. Qed.

Lemma states_below_charge0 (s : Impurity) : states_below_charge s 0 = 0%N.
Proof.
rewrite /states_below_charge -(@eq_count _ pred0) ?count_pred0 // => st.
by rewrite /= ltNge andbN.
Qed.

Lemma foldl_count (T : Type) (p : pred T) (xs : seq T) (a : nat) :
  foldl (fun n x => if p x then n.+1 else n) a xs = (a + count p xs)%N.
Proof.
elim: xs a => [|x xs IH] a /=; first by rewrite addn0.
by rewrite IH; case: (p x); rewrite ?addSnnS ?add0n.
Qed.

Lemma states_below_chargeS (s : Impurity) (z : nat) :
  states_below_charge s z.+1 =
  (states_below_charge s z + states_with_charge s z)%N.
Proof.
rewrite /states_below_charge /states_with_charge.
elim: (states s) => [|st sts IH] //=; rewrite IH addnACA; congr (_ + _)%N.
case: (iz st) => u; last by rewrite !NegzE.
by rewrite !ltz_nat eqz_nat /= ltnS leq_eqVlt orbC; case: ltngtP.
Qed.

Lemma get_state_densE (m n : nat) (s : Impurity) (all_dens : 'M[R]_(m, n)) :
  get_state_dens s all_dens =
  [seq take (states_with_charge s z)
         (drop (states_below_charge s z) (columns all_dens))
  | z <- iota 0 (num_z s)].
Proof.
rewrite /get_state_dens.
set f := (f in foldl f); set blk := (blk in map blk).
suff E k : foldl f ([::], 0%N) (iota 0 k) =
           ([seq blk z | z <- iota 0 k], states_below_charge s k).
  by rewrite E.
elim: k => [|k IH]; first by rewrite states_below_charge0.
rewrite iota0S foldl_rcons IH map_rcons /f foldl_count add0n addKn.
by rewrite states_below_chargeS.
Qed.

(** [get_state_dens] cuts the columns into consecutive blocks.  It returns
    one block per charge below [num_z]; the blocks in order are the leading
    columns of the array, as many as there are states with a charge in
    [0, num_z); the block of the charge [z] starts at the column whose number
    is the number of states of a lower charge; and when the array has a
    column for each of these states, it has as many columns as there are
    states of the charge [z]. *)
Theorem get_state_dens_blocks (m n : nat) (s : Impurity)
    (all_dens : 'M[R]_(m, n)) :
  let state_dens := get_state_dens s all_dens in
  [/\ size state_dens = num_z s,
      seq.flatten state_dens =
        take (states_below_charge s (num_z s)) (columns all_dens),
      forall z, (z < num_z s)%N ->
        nth [::] state_dens z =
        take (states_with_charge s z)
          (drop (states_below_charge s z) (columns all_dens))
    & (states_below_charge s (num_z s) <= n)%N ->
      forall z, (z < num_z s)%N ->
        size (nth [::] state_dens z) = states_with_charge s z].
Proof.
rewrite /= get_state_densE.
set blk := (blk in map blk).
have N z : (z < num_z s)%N -> nth [::] [seq blk z | z <- iota 0 (num_z s)] z = blk z.
  by move=> lt; rewrite (nth_map 0%N) ?size_iota // nth_iota.
split=> //.
- by rewrite size_map size_iota.
- elim: (num_z s) => [|k IH]; first by rewrite states_below_charge0 take0.
  by rewrite iota0S map_rcons flatten_rcons IH states_below_chargeS takeD.
- move=> le z lt; rewrite N // /blk size_take size_drop.
  have sz : size (columns all_dens) = n by rewrite size_map size_enum_ord.
  have: (states_below_charge s z.+1 <= states_below_charge s (num_z s))%N.
    elim: (num_z s) lt => [|k IH] //; rewrite ltnS leq_eqVlt.
    case/predU1P => [->|/IH] // le'.
    by rewrite (leq_trans le') // states_below_chargeS leq_addr.
  rewrite states_below_chargeS sz => le'.
  have H := leq_trans le' le.
  have: (states_with_charge s z <= n - states_below_charge s z)%N.
    by rewrite leq_subRL // (leq_trans (leq_addr _ _) H).
  by rewrite leq_eqVlt; case/predU1P => [<-|->] //; rewrite ltnn.
Qed.

(** ** The Boltzmann distribution of the states of a charge *)

(** [np.exp] is an argument of the functions that use it. *)

(** The Boltzmann factor of a state at the temperature of a cell. *)
Definition boltzmann_factor (np_exp : R -> R) (cell : 'I_num_x) (state : State) : R :=
  np_exp (- energy state / (TEMPERATURE skrun cell 0 * T_norm skrun)).

(** [Impurity.get_boltzmann_dist]; [None] stands for the [IndexError] of an
    assignment past the end of [boltz_dens]. *)
Definition get_boltzmann_dist (np_exp : R -> R) (s : Impurity)
    (locstate_dens : seq R) (z : int) (cell : 'I_num_x) (gnormalise : bool) :
    option (seq R) :=
  let boltz_dens := nseq (size locstate_dens) 0 in
  let Te := TEMPERATURE skrun cell 0 * T_norm skrun in
  let n_tot := \sum_(x <- locstate_dens) x in
  let ex_sum :=
    foldl (fun ex_sum state =>
      if iz state == z
      then ex_sum + (statw state)%:~R * np_exp (- energy state / Te)
      else ex_sum) 0 (states s) in
  omap fst
    (foldl (fun acc state =>
       if iz state == z then
         match acc with
         | Some (boltz_dens, i) =>
             if (i < size boltz_dens)%N then
               Some (set_nth 0 boltz_dens i
                       (if gnormalise
                        then n_tot * np_exp (- energy state / Te) / ex_sum
                        else n_tot * (statw state)%:~R
                             * np_exp (- energy state / Te) / ex_sum),
                     i.+1)
             else None
         | None => None
         end
       else acc) (Some (boltz_dens, 0%N)) (states s)).

(** [Impurity.gnormalise] on a one-dimensional array. *)
Definition gnormalise (s : Impurity) (dens : seq R) (z : int) : option (seq R) :=
  omap fst
    (foldl (fun acc state =>
       if iz state == z then
         match acc with
         | Some (norm_dens, i) =>
             if (i < size norm_dens)%N then
               Some (set_nth 0 norm_dens i
                       (nth 0 norm_dens i / (statw state)%:~R), i.+1)
             else None
         | None => None
         end
       else acc) (Some (dens, 0%N)) (states s)).

Lemma set_nth_after (T : Type) (x0 : T) (pre : seq T) y rest v :
  set_nth x0 (pre ++ y :: rest) (size pre) v = pre ++ v :: rest.
Proof. by elim: pre => [|x pre IH] //=; rewrite IH. Qed.

(** A loop that fills an array from its start, one entry for each state
    that passes a test, with a value that may depend on the entry it
    replaces. *)
Lemma fill_loop (p : pred State) (val : State -> R -> R) (sts : seq State)
    (pre rest : seq R) :
  foldl (fun acc state =>
       if p state then
         match acc with
         | Some (arr, i) =>
             if (i < size arr)%N
             then Some (set_nth 0 arr i (val state (nth 0 arr i)), i.+1)
             else None
         | None => None
         end
       else acc) (Some (pre ++ rest, size pre)) sts =
  if (count p sts <= size rest)%N then
    Some (pre ++ [seq val st.1 st.2 | st <- zip (filter p sts) rest]
              ++ drop (count p sts) rest,
          (size pre + count p sts)%N)
  else None.
Proof.
elim: sts pre rest => [|st sts IH] pre rest /=.
  by rewrite drop0 addn0; case: rest.
case: (p st) => /=; last by rewrite add0n IH.
rewrite size_cat -{1}[size pre]addn0 ltn_add2l.
case: rest => [|y rest] /=.
  have none xs : foldl (fun acc state =>
       if p state then
         match acc with
         | Some (arr, i) =>
             if (i < size arr)%N
             then Some (set_nth 0 arr i (val state (nth 0 arr i)), i.+1)
             else None
         | None => None
         end
       else acc) None xs = None.
    by elim: xs => [|x xs IHx] //=; case: (p x).
  by rewrite none.
rewrite nth_cat ltnn subnn /= set_nth_after.
rewrite -cat_rcons -(size_rcons pre (val st y)) IH size_rcons.
by rewrite add1n ltnS addSnnS cat_rcons.
Qed.


Lemma foldl_sum_if (T : Type) (p : pred T) (f : T -> R) (xs : seq T) (a : R) :
  foldl (fun acc x => if p x then acc + f x else acc) a xs =
  a + \sum_(x <- xs | p x) f x.
Proof.
elim: xs a => [|x xs IH] a /=; first by rewrite big_nil addr0.
by rewrite IH big_cons; case: (p x); rewrite ?addrA.
Qed.

Lemma sum_nseq0 (n : nat) : \sum_(x <- nseq n (0 : R)) x = 0.
Proof. by rewrite big_nseq; elim: n => //= n ->; rewrite addr0. Qed.

Lemma map_zip_fst (S T U : Type) (f : S -> U) (xs : seq S) (ys : seq T) :
  (size xs <= size ys)%N -> [seq f st.1 | st <- zip xs ys] = map f xs.
Proof.
by elim: xs ys => [|x xs IH] [|y ys] //= le; rewrite IH.
Qed.

(** The states of charge [z], in the order of the table; the sum of their
    statistical weights times their Boltzmann factors. *)
Definition states_of_charge (s : Impurity) (z : int) : seq State :=
  [seq st <- states s | iz st == z].

Definition partition_function (np_exp : R -> R) (s : Impurity) (z : int)
    (cell : 'I_num_x) : R :=
  \sum_(st <- states_of_charge s z)
     (statw st)%:~R * boltzmann_factor np_exp cell st.

(** The entry that [get_boltzmann_dist] computes for a state. *)
Definition boltzmann_entry (np_exp : R -> R) (s : Impurity) (dens : seq R)
    (z : int) (cell : 'I_num_x) (g : bool) (st : State) : R :=
  if g then (\sum_(x <- dens) x) * boltzmann_factor np_exp cell st
            / partition_function np_exp s z cell
  else (\sum_(x <- dens) x) * (statw st)%:~R * boltzmann_factor np_exp cell st
       / partition_function np_exp s z cell.

(** [get_boltzmann_dist] in closed form: the entries of the states of
    charge [z], then zeros. *)
Lemma get_boltzmann_distE (np_exp : R -> R) (s : Impurity) (dens : seq R)
    (z : int) (cell : 'I_num_x) (g : bool) :
  get_boltzmann_dist np_exp s dens z cell g =
  if (size (states_of_charge s z) <= size dens)%N then
    Some (map (boltzmann_entry np_exp s dens z cell g) (states_of_charge s z)
          ++ nseq (size dens - size (states_of_charge s z)) 0)
  else None.
Proof.
have ES : foldl (fun ex_sum state =>
      if iz state == z
      then ex_sum + (statw state)%:~R
             * np_exp (- energy state / (TEMPERATURE skrun cell 0 * T_norm skrun))
      else ex_sum) 0 (states s) = partition_function np_exp s z cell.
  rewrite (foldl_sum_if (fun st => iz st == z)
          (fun st => (statw st)%:~R
             * np_exp (- energy st / (TEMPERATURE skrun cell 0 * T_norm skrun)))).
  by rewrite add0r -big_filter.
rewrite /get_boltzmann_dist ES.
have := fill_loop (fun st => iz st == z)
  (fun st (_ : R) => boltzmann_entry np_exp s dens z cell g st)
  (states s) [::] (nseq (size dens) 0).
rewrite /boltzmann_entry /boltzmann_factor /= => ->.
rewrite size_nseq -size_filter -/(states_of_charge s z).
case: leqP => // le /=.
rewrite (map_zip_fst (boltzmann_entry np_exp s dens z cell g)
           (ys := nseq (size dens) 0)) ?size_nseq //.
by rewrite drop_nseq.
Qed.

(** [gnormalise] in closed form: the first entries divided by the weights
    of the states of charge [z], the others as they were. *)
Lemma gnormaliseE (s : Impurity) (dens : seq R) (z : int) :
  gnormalise s dens z =
  if (size (states_of_charge s z) <= size dens)%N then
    Some ([seq st.2 / (statw st.1)%:~R | st <- zip (states_of_charge s z) dens]
          ++ drop (size (states_of_charge s z)) dens)
  else None.
Proof.
rewrite /gnormalise.
have := fill_loop (fun st => iz st == z)
  (fun st (y : R) => y / (statw st)%:~R) (states s) [::] dens.
rewrite /= => ->.
by rewrite -size_filter -/(states_of_charge s z); case: leqP.
Qed.

(** The Boltzmann distribution keeps the total.  [get_boltzmann_dist]
    raises [IndexError] exactly when the array it is given is shorter than
    the number of states of charge [z]; when it returns, the array it
    returns has the length of the one it was given, and without
    normalisation by the weights, the partition function not being zero, its
    entries have the same sum. *)
Theorem boltzmann_dist_conserves (np_exp : R -> R) (s : Impurity)
    (dens : seq R) (z : int) (cell : 'I_num_x) (g : bool) :
  match get_boltzmann_dist np_exp s dens z cell g with
  | Some boltz_dens =>
      [/\ (size (states_of_charge s z) <= size dens)%N,
          size boltz_dens = size dens &
          g = false -> partition_function np_exp s z cell != 0 ->
          \sum_(x <- boltz_dens) x = \sum_(x <- dens) x]
  | None => (size dens < size (states_of_charge s z))%N
  end.
Proof.
rewrite get_boltzmann_distE; case: leqP => // le; split=> //.
  by rewrite size_cat size_map size_nseq subnKC.
move=> -> nz; rewrite big_cat /= sum_nseq0 addr0 big_map.
rewrite /boltzmann_entry /= -mulr_suml.
under eq_bigr do rewrite -mulrA.
by rewrite -mulr_sumr -/(partition_function np_exp s z cell) mulfK.
Qed.

Lemma gnormalise_entries (np_exp : R -> R) (s : Impurity) (dens : seq R)
    (z : int) (cell : 'I_num_x) (sts : seq State) (zs : seq R) :
  all (fun st => statw st != 0) sts ->
  [seq st.2 / (statw st.1)%:~R
  | st <- zip sts (map (boltzmann_entry np_exp s dens z cell false) sts ++ zs)] =
  map (boltzmann_entry np_exp s dens z cell true) sts.
Proof.
elim: sts => [|st sts IH] /=; first by case: zs.
case/andP=> nz /IH ->; congr (_ :: _).
rewrite /boltzmann_entry /=.
have nzR : (statw st)%:~R != 0 :> R by rewrite intr_eq0.
set n := \sum_(x <- dens) x; set e := boltzmann_factor _ _ _.
set S := partition_function _ _ _ _; set w := _%:~R in nzR *.
by rewrite -[RHS]mulr1 -(divff nzR); ring.
Qed.

(** Normalising the Boltzmann distribution.  The array that
    [get_boltzmann_dist] returns without normalisation, once [gnormalise]
    has divided it by the statistical weights, is the array that
    [get_boltzmann_dist] returns with normalisation, provided no state of
    charge [z] has the weight zero. *)
Theorem gnormalise_boltzmann_dist (np_exp : R -> R) (s : Impurity)
    (dens : seq R) (z : int) (cell : 'I_num_x) (boltz_dens : seq R) :
  get_boltzmann_dist np_exp s dens z cell false = Some boltz_dens ->
  all (fun st => statw st != 0) (states_of_charge s z) ->
  gnormalise s boltz_dens z = get_boltzmann_dist np_exp s dens z cell true.
Proof.
rewrite !get_boltzmann_distE gnormaliseE.
case: leqP => // le [<-] nz.
rewrite size_cat size_map size_nseq leq_addr.
rewrite gnormalise_entries //.
by rewrite drop_size_cat ?size_map.
Qed.

(** ** Loading the states *)

(** One parsed line of [states.txt]: the charge, the name, the statistical
    weight and the energy. *)
Record StateRow : Type := mkStateRow {
  s_iz : int;
  s_statename : string;
  s_statw : int;
  s_energy : R
}.

(** [Impurity.load_states] on the parsed lines after the header: the
    states of charge below [num_z], numbered in the order of the file.  The
    number of states kept is what the source calls [tot_states]; here
    [tot_states] is fixed by the types, and a number below it is its own
    index. *)
Definition load_states (num_z : nat) (rows : seq StateRow) : seq State :=
  (foldl (fun acc l =>
     let: (states, i) := acc in
     if s_iz l < num_z%:Z then
       (rcons states
          (mkState (s_iz l) (s_statename l) (odflt ord0 (ord_of tot_states i))
             (s_statw l) (s_energy l)),
        i.+1)
     else (states, i)) ([::], 0%N) rows).1.

Lemma load_states_loop (num_z : nat) (rows : seq StateRow) (sts : seq State)
    (i : nat) :
  foldl (fun acc l =>
     let: (states, i) := acc in
     if s_iz l < num_z%:Z then
       (rcons states
          (mkState (s_iz l) (s_statename l) (odflt ord0 (ord_of tot_states i))
             (s_statw l) (s_energy l)),
        i.+1)
     else (states, i)) (sts, i) rows =
  let kept := [seq l <- rows | s_iz l < num_z%:Z] in
  (sts ++ [seq mkState (s_iz lk.1) (s_statename lk.1)
                 (odflt ord0 (ord_of tot_states lk.2))
                 (s_statw lk.1) (s_energy lk.1)
          | lk <- zip kept (iota i (size kept))],
   (i + size kept)%N).
Proof.
elim: rows sts i => [|l rows IH] sts i /=; first by rewrite cats0 addn0.
by case: ifP => _; rewrite IH //= -cats1 -catA addSnnS.
Qed.

Lemma map_inord_iota (n : nat) :
  [seq odflt ord0 (ord_of n.+1 i) | i <- iota 0 n.+1] = enum 'I_n.+1.
Proof.
apply: (inj_map val_inj); rewrite val_enum_ord -map_comp.
rewrite -[RHS]map_id; apply/eq_in_map => i; rewrite mem_iota add0n /= => lt.
by rewrite ord_ofE -/(insubd ord0 i) -/(inord i) inordK.
Qed.

(** [load_states] numbers the states it keeps.  It keeps the lines of
    charge below [num_z], in the order of the file and with their data; and
    the [loc] of a state is its position in the list, so that the list has
    every index once. *)
Theorem load_states_numbers_states (num_z : nat) (rows : seq StateRow) :
  let kept := [seq l <- rows | s_iz l < num_z%:Z] in
  let sts := load_states num_z rows in
  [/\ [seq (iz st, statename st, statw st, energy st) | st <- sts] =
      [seq (s_iz l, s_statename l, s_statw l, s_energy l) | l <- kept],
      all (fun st => iz st < num_z%:Z) sts,
      size sts = size kept &
      size kept = tot_states ->
      [seq loc st | st <- sts] = enum 'I_tot_states /\ locs_enumerate sts].
Proof.
rewrite /load_states load_states_loop /=.
set kept := filter _ rows.
have Hall : all (fun l => s_iz l < num_z%:Z) kept by apply: filter_all.
split.
- rewrite -map_comp.
  elim: kept {Hall} 0%N => [|l kept IH] i //=.
  by rewrite IH.
- rewrite all_map.
  elim: kept Hall 0%N => [|l kept IH] //= /andP [lt /IH Hk] i.
  by rewrite lt Hk.
- by rewrite size_map size_zip size_iota minnn.
- move=> Ek.
  have E : [seq loc st | st <- [seq mkState (s_iz lk.1) (s_statename lk.1)
               (odflt ord0 (ord_of tot_states lk.2)) (s_statw lk.1) (s_energy lk.1)
             | lk <- zip kept (iota 0 (size kept))]] = enum 'I_tot_states.
    rewrite -map_comp -map_inord_iota.
    have -> : iota 0 tot_states = iota 0 (size kept) by rewrite Ek.
    have : size kept = size (iota 0 (size kept)) by rewrite size_iota.
    elim: kept {Hall Ek} (iota _ _) => [|l kept IH] [|i js] //= [Es].
    by rewrite IH.
  by split=> //; rewrite /locs_enumerate E.
Qed.

End ImpurityModel.

(** ** solver.py: the PETSc vectors and matrices *)

(** A rank owns the cells [min_x, max_x).  Its PETSc vectors hold the
    densities of its [loc_num_x] cells one cell after the other, state [i]
    of local cell [j] at index [i + j * num_states]; its matrix has one row
    and one column per entry of such a vector, and the KSP object solves a
    system with that matrix. *)

Section FlatIndex.

Variables loc ns' : nat.
Notation num_states := ns'.+1.

Lemma flat_index_subproof (j : 'I_loc) (i : 'I_num_states) :
  (i + j * num_states < loc * num_states)%N.
Proof.
apply: leq_trans (leq_mul (ltn_ord j) (leqnn num_states)).
by rewrite mulSn ltn_add2r.
Qed.

(** The index [i + j * num_states] of state [i] of local cell [j]. *)
Definition flat_index (j : 'I_loc) (i : 'I_num_states) : 'I_(loc * num_states) :=
  Ordinal (flat_index_subproof j i).

Lemma cell_subproof (k : 'I_(loc * num_states)) : (k %/ num_states < loc)%N.
Proof. by rewrite ltn_divLR. Qed.

Lemma state_subproof (k : 'I_(loc * num_states)) : (k %% num_states < num_states)%N.
Proof. by rewrite ltn_pmod. Qed.

(** The local cell and the state that index [k] of a vector stands for. *)
Definition cell_of (k : 'I_(loc * num_states)) : 'I_loc := Ordinal (cell_subproof k).
Definition state_of (k : 'I_(loc * num_states)) : 'I_num_states :=
  Ordinal (state_subproof k).

Lemma cell_of_flat j i : cell_of (flat_index j i) = j.
Proof.
by apply/val_inj; rewrite /= addnC divnMDl // divn_small // addn0.
Qed.

Lemma state_of_flat j i : state_of (flat_index j i) = i.
Proof. by apply/val_inj; rewrite /= addnC modnMDl modn_small. Qed.

Lemma flat_indexK k : flat_index (cell_of k) (state_of k) = k.
Proof. by apply/val_inj; rewrite /= addnC -divn_eq. Qed.

Lemma flat_index_eq j i k :
  (k == flat_index j i) = (cell_of k == j) && (state_of k == i).
Proof.
apply/eqP/andP => [->|[/eqP <- /eqP <-]]; last by rewrite flat_indexK.
by rewrite cell_of_flat state_of_flat.
Qed.

Variable R : realFieldType.

(** [n_init[min_x:max_x, :].flatten()]. *)
Definition flatten (A : 'M[R]_(loc, num_states)) : 'cV[R]_(loc * num_states) :=
  \col_k A (cell_of k) (state_of k).

(** [np.array([[x[i + (j * num_states)] for i in range(num_states)]
               for j in range(loc_num_x)])]. *)
Definition unflatten (x : 'cV[R]_(loc * num_states)) : 'M[R]_(loc, num_states) :=
  \matrix_(j, i) x (flat_index j i) 0.

(** [M.setValue(row, col, v)]. *)
Definition setValue (n : nat) (M : 'M[R]_n) (row col : 'I_n) (v : R) : 'M[R]_n :=
  \matrix_(r, c) if (r == row) && (c == col) then v else M r c.

(** [arr[k] = v] on a one-dimensional array. *)
Definition set_entry (n : nat) (a : 'cV[R]_n) (k : 'I_n) (v : R) : 'cV[R]_n :=
  \col_r if r == k then v else a r 0.

(** [np.max(np.abs(a - b))] on vectors that have an entry [k0]. *)
Definition np_max_abs_diff_vec (n : nat) (k0 : 'I_n) (a b : 'cV[R]_n) : R :=
  \big[Num.max/`|a k0 0 - b k0 0|]_(k < n) `|a k 0 - b k 0|.

Lemma unflattenK A : unflatten (flatten A) = A.
Proof.
by apply/matrixP => j i; rewrite /unflatten /flatten !mxE cell_of_flat state_of_flat.
Qed.

Lemma flattenK x : flatten (unflatten x) = x.
Proof.
by apply/colP => k; rewrite /unflatten /flatten !mxE flat_indexK.
Qed.

(** Summing a vector cell by cell, state by state, is summing it. *)
Lemma sum_flat_index (x : 'cV[R]_(loc * num_states)) :
  \sum_j \sum_i x (flat_index j i) 0 = \sum_k x k 0.
Proof.
rewrite pair_big /=.
rewrite (reindex (fun k => (cell_of k, state_of k))) /=.
  apply: onW_bij; exists (fun p => flat_index p.1 p.2) => [k|[j i]] /=.
    by rewrite flat_indexK.
  by rewrite cell_of_flat state_of_flat.
by apply: eq_bigr => k _; rewrite flat_indexK.
Qed.

(** The two reshapes of [solver.py] undo each other: the flattening of the
    rows of [n_init] into a vector, cell after cell, and the nested list
    comprehension that reads a vector back into rows. *)
Theorem reshape_round_trip (A : 'M[R]_(loc, num_states))
    (x : 'cV[R]_(loc * num_states)) :
  [/\ unflatten (flatten A) = A,
      flatten (unflatten x) = x,
      forall j i, flatten A (flat_index j i) 0 = A j i &
      forall k, x k 0 = unflatten x (cell_of k) (state_of k)].
Proof.
split; [exact: unflattenK | exact: flattenK | |] => [j i|k].
  by rewrite /flatten mxE cell_of_flat state_of_flat.
by rewrite /unflatten mxE flat_indexK.
Qed.

End FlatIndex.

Section Solver.

Variable R : realFieldType.
Variable ns' : nat.
Notation num_states := ns'.+1.

(** [ksp.solve(b, x)] followed by [ksp.getConvergedReason()], for a KSP
    object of the given type and preconditioner, with the given tolerance
    and operator: the vector left in [x] and the reason, negative when the
    solve failed.  PETSc is outside the sources; nothing is assumed of it. *)
Variable ksp_solve :
  string -> option string -> R -> forall n : nat,
  'M[R]_n -> 'cV[R]_n -> 'cV[R]_n * int.

Variables (ksp_solver : string) (ksp_pc : option string) (ksp_tol : R).

(** *** [solve] *)

Section Solve.

(** The rank owns [loc_num_x = max_x - min_x] cells, after the first
    [min_x] and before the last [after_x] of the [num_x] cells. *)
Variables min_x loc_num_x after_x : nat.
Notation num_x := (min_x + (loc_num_x + after_x))%N.
Notation len := (loc_num_x * num_states)%N.

(** [n_init[min_x:max_x, :]]. *)
Definition local_rows (n_init : 'M[R]_(num_x, num_states)) :
    'M[R]_(loc_num_x, num_states) :=
  usubmx (dsubmx n_init).

(** [np.sum] of a two-dimensional array. *)
Definition np_sum2 (m n : nat) (A : 'M[R]_(m, n)) : R := \sum_j \sum_i A j i.

(** The right-hand side: zeros, then the entry [num_states * (j + 1) - 1] of
    every local cell [j] set to the total of its row of [n_init]. *)
Definition solve_rhs (n_loc : 'M[R]_(loc_num_x, num_states)) : 'cV[R]_len :=
  foldl (fun rhs_arr j => set_entry rhs_arr (flat_index j ord_max) (\sum_i n_loc j i))
    0 (range loc_num_x).

(** The two nested loops that set the last row of every cell to ones: for
    cell [j], [row = offset + num_states - 1] and [col = offset + i]. *)
Definition solve_matrix (rate_matrix : 'M[R]_len) : 'M[R]_len :=
  foldl (fun M j =>
    foldl (fun M i => setValue M (flat_index j ord_max) (flat_index j i) 1)
      M (range num_states))
    rate_matrix (range loc_num_x).

(** [solver.solve]: [None] when the KSP solve failed. *)
Definition petsc_solve (rate_matrix : 'M[R]_len)
    (n_init : 'M[R]_(num_x, num_states)) : option 'M[R]_(loc_num_x, num_states) :=
  let n_loc := local_rows n_init in
  let rhs := solve_rhs n_loc in
  let rate_matrix := solve_matrix rate_matrix in
  let: (n_solved, reason) :=
    ksp_solve ksp_solver ksp_pc (ksp_tol * np_sum2 n_loc) rate_matrix rhs in
  if reason < 0 then None else Some (unflatten n_solved).

End Solve.

(** *** [evolve] *)

(** The program runs on [nprocs] ranks, rank 0 being the root of the
    gathers and broadcasts.  Rank [r] owns [loc_num_x r] cells, at least
    one: [np.max] raises on an empty array. *)
Variable nprocs' : nat.
Notation nprocs := nprocs'.+1.
Variable loc' : 'I_nprocs -> nat.
Notation loc_num_x r := (loc' r).+1.
Notation len r := (loc_num_x r * num_states)%N.

(** The arguments of [evolve] on each rank: its matrix and its rows
    [n_init[min_x:max_x, :]]; and those all ranks share. *)
Variable rate_matrix : forall r : 'I_nprocs, 'M[R]_(len r).
Variable n_init : forall r : 'I_nprocs, 'M[R]_(loc_num_x r, num_states).
Variables (dt : R) (num_t : nat) (dndt_thresh : R).

(** The variables of a rank that the loop updates. *)
Record rank_state (n : nat) : Type := RankState {
  n_old : 'cV[R]_n;
  n_new : 'cV[R]_n;
  prev_residual : R
}.

(** What a rank contributes to the gathers of a step.  (The iteration count
    is gathered too, but only printed.) *)
Record sent : Type := Sent {
  ksp_failed : nat;
  dndt : R
}.

(** The global state: the variables of every rank. *)
Definition gstate : Type := forall r : 'I_nprocs, rank_state (len r).

(** [I - dt * rate_matrix]. *)
Definition be_op_mat (r : 'I_nprocs) : 'M[R]_(len r) :=
  1%:M - dt *: rate_matrix r.

(** The state of a rank when it enters the loop: [n_old] holds the
    flattened initial densities, [n_new] is a fresh vector and
    [prev_residual = 1e20]. *)
Definition init_state : gstate :=
  fun r => RankState (flatten (n_init r)) 0 (10 ^+ 20).

(** The part of the loop body before the communication: the solve, the
    failure flag, the local residual and the copy of [n_new] to [n_old]. *)
Definition local_solve (r : 'I_nprocs) (st : rank_state (len r)) :
    rank_state (len r) * sent :=
  let: (x, reason) :=
    ksp_solve ksp_solver ksp_pc (ksp_tol * np_sum2 (n_init r))
      (be_op_mat r) (n_old st) in
  let ksp_failed := if reason < 0 then 1%N else 0%N in
  let dndt := np_max_abs_diff_vec (flat_index ord0 ord0) (n_old st) x / dt in
  (RankState x x (prev_residual st), Sent ksp_failed dndt).

(** The gathers at rank 0, its reductions and the broadcasts:
    [exit_flag = sum(all_ksp_failed)] and [dndt_global = max(all_dndts)]. *)
Definition exit_flag (sts : gstate) : nat :=
  \sum_(r < nprocs) ksp_failed (local_solve (sts r)).2.

Definition dndt_global (sts : gstate) : R :=
  \big[Num.max/dndt (local_solve (sts ord0)).2]_(r < nprocs)
     dndt (local_solve (sts r)).2.

(** How a rank leaves an iteration. *)
Inductive control (n : nat) : Type :=
| Continue (st : rank_state n)
| Break (st : rank_state n)
| ReturnNone.

Arguments ReturnNone {n}.

(** The part of the loop body after the broadcasts, in iteration [i]. *)
Definition after_bcast (i : nat) (flag : nat) (residual : R) (n : nat)
    (st : rank_state n) : control n :=
  if (0 < flag)%N then ReturnNone
  else if (prev_residual st < residual) && (10^-1 < i%:R / num_t%:R :> R)
  then Break st
  else
    let st := RankState (n_old st) (n_new st) residual in
    if residual < dndt_thresh then Break st else Continue st.

(** Iteration [i] on every rank. *)
Definition step (i : nat) (sts : gstate) (r : 'I_nprocs) : control (len r) :=
  after_bcast i (exit_flag sts) (dndt_global sts) (local_solve (sts r)).1.

Definition is_continue (n : nat) (c : control n) : bool :=
  if c is Continue _ then true else false.

Definition continued (n : nat) (c : control n) (st : rank_state n) : rank_state n :=
  if c is Continue st' then st' else st.

(** What a call of [evolve] comes to on a rank: it returns [None] or the
    densities, or it waits for ever in a gather that the other ranks do not
    enter. *)
Inductive result (T : Type) : Type :=
| Returned (x : option T)
| Blocked.

Arguments Blocked {T}.

(** The code after the loop: [n_solved] is [n_new] reshaped. *)
Definition finish (r : 'I_nprocs) (st : rank_state (len r)) :
    result 'M[R]_(loc_num_x r, num_states) :=
  Returned (Some (unflatten (n_new st))).

Definition leave (r : 'I_nprocs) (c : control (len r)) :
    result 'M[R]_(loc_num_x r, num_states) :=
  match c with
  | Continue _ => Blocked
  | Break st => finish st
  | ReturnNone => Returned None
  end.

(** The loop [for i in range(num_t)], all ranks in step. *)
Fixpoint evolve_loop (steps : seq nat) (sts : gstate) (r : 'I_nprocs) :
    result 'M[R]_(loc_num_x r, num_states) :=
  match steps with
  | [::] => finish (sts r)
  | i :: steps' =>
      if [forall q, is_continue (step i sts q)] then
        evolve_loop steps' (fun q => continued (step i sts q) (sts q)) r
      else leave (step i sts r)
  end.

(** [solver.evolve] on rank [r]. *)
Definition petsc_evolve (r : 'I_nprocs) : result 'M[R]_(loc_num_x r, num_states) :=
  evolve_loop (iota 0 num_t) init_state r.

(** The global state in which iteration [i] starts, if the loop gets there. *)
Fixpoint state_at (i : nat) : option gstate :=
  match i with
  | 0 => Some init_state
  | i'.+1 =>
      match state_at i' with
      | Some sts =>
          if [forall q, is_continue (step i' sts q)] then
            Some (fun q => continued (step i' sts q) (sts q))
          else None
      | None => None
      end
  end.

(** ** The linear system of [solver.solve] *)

Section SolveFacts.

Variables min_x loc_num_x after_x : nat.
Notation len := (loc_num_x * num_states)%N.

Lemma solve_rhs_loop (tot : 'I_loc_num_x -> R) xs (a : 'cV[R]_len) k :
  foldl (fun rhs_arr j => set_entry rhs_arr (flat_index j ord_max) (tot j)) a xs k 0 =
  if (state_of k == ord_max) && (cell_of k \in xs) then tot (cell_of k) else a k 0.
Proof.
elim: xs a => [|x xs IH] a /=; first by rewrite andbF.
rewrite IH /set_entry mxE flat_index_eq in_cons.
case: (state_of k == _); rewrite ?andbF ?andbT //=.
by case: (cell_of k \in xs); case: (cell_of k =P x) => [->|_] /=.
Qed.

Lemma solve_rhsE (n_loc : 'M[R]_(loc_num_x, num_states)) k :
  solve_rhs n_loc k 0 =
  if state_of k == ord_max then \sum_i n_loc (cell_of k) i else 0.
Proof.
by rewrite /solve_rhs (solve_rhs_loop (fun j => \sum_i n_loc j i)) mem_range andbT mxE.
Qed.

Lemma solve_matrix_inner (row : 'I_len) (j : 'I_loc_num_x) xs (M : 'M[R]_len) r c :
  foldl (fun M i => setValue M row (flat_index j i) 1) M xs r c =
  if [&& r == row, cell_of c == j & state_of c \in xs] then 1 else M r c.
Proof.
elim: xs M => [|x xs IH] M /=; first by rewrite !andbF.
rewrite IH /setValue mxE flat_index_eq in_cons.
case: (r == row); rewrite //=; case: (cell_of c == j); rewrite //=.
by case: (state_of c \in xs); case: (state_of c == x) => /=.
Qed.

Lemma solve_matrix_outer xs (M : 'M[R]_len) r c :
  foldl (fun M j =>
    foldl (fun M i => setValue M (flat_index j ord_max) (flat_index j i) 1)
      M (range num_states)) M xs r c =
  if [&& state_of r == ord_max, cell_of r \in xs & cell_of c == cell_of r]
  then 1 else M r c.
Proof.
elim: xs M => [|x xs IH] M /=; first by rewrite andbF.
rewrite IH solve_matrix_inner mem_range andbT flat_index_eq in_cons.
case: (state_of r == _); rewrite ?andbF ?andbT //=.
case: (cell_of r \in xs); rewrite ?orbT ?orbF /=; last first.
  by case: (cell_of r =P x) => [->|_] /=.
case: (cell_of c =P cell_of r) => [//|ne].
case: (cell_of r =P x) => [Er|//]; case: (cell_of c =P x) => [Ec|//].
by case: ne; rewrite Er Ec.
Qed.

Lemma solve_matrixE (M : 'M[R]_len) r c :
  solve_matrix M r c =
  if (state_of r == ord_max) && (cell_of c == cell_of r) then 1 else M r c.
Proof. by rewrite /solve_matrix solve_matrix_outer mem_range. Qed.

End SolveFacts.

(** ** The loop of [solver.evolve] *)

(** The vector and the converged reason that the solve of a rank produces
    from its state. *)
Definition solution (r : 'I_nprocs) (st : rank_state (len r)) : 'cV[R]_(len r) :=
  (ksp_solve ksp_solver ksp_pc (ksp_tol * np_sum2 (n_init r))
     (be_op_mat r) (n_old st)).1.

Definition converged_reason (r : 'I_nprocs) (st : rank_state (len r)) : int :=
  (ksp_solve ksp_solver ksp_pc (ksp_tol * np_sum2 (n_init r))
     (be_op_mat r) (n_old st)).2.

Lemma local_solveE (r : 'I_nprocs) (st : rank_state (len r)) :
  local_solve st =
  (RankState (solution st) (solution st) (prev_residual st),
   Sent (if converged_reason st < 0 then 1%N else 0%N)
        (np_max_abs_diff_vec (flat_index ord0 ord0) (n_old st) (solution st) / dt)).
Proof.
by rewrite /local_solve /solution /converged_reason; case: (ksp_solve _ _ _ _ _).
Qed.

(** In exact arithmetic the test [i / num_t > 0.1] is [10 * i > num_t]. *)
Lemma tenth_ltE (i : nat) :
  (0 < num_t)%N -> (10^-1 < i%:R / num_t%:R :> R) = (num_t < 10 * i)%N.
Proof.
move=> nt; rewrite ltr_pdivlMr ?ltr0n // ltr_pdivrMl ?ltr0n //.
by rewrite -natrM ltr_nat.
Qed.

Lemma after_bcast_fail i flag g n (st : rank_state n) :
  (0 < flag)%N -> after_bcast i flag g st = ReturnNone.
Proof. by rewrite /after_bcast => ->. Qed.

Lemma after_bcast_diverge i g n (st : rank_state n) :
  prev_residual st < g -> 10^-1 < i%:R / num_t%:R :> R ->
  after_bcast i 0 g st = Break st.
Proof. by rewrite /after_bcast /= => -> ->. Qed.

Lemma after_bcast_continue i flag g n (st st0 : rank_state n) :
  is_continue (after_bcast i flag g st) ->
  continued (after_bcast i flag g st) st0 = RankState (n_old st) (n_new st) g.
Proof.
rewrite /after_bcast; case: ifP => // _; case: ifP => // _ /=.
by case: ifP.
Qed.

Lemma exit_flag_gt0 (sts : gstate) (r0 : 'I_nprocs) :
  converged_reason (sts r0) < 0 -> (0 < exit_flag sts)%N.
Proof.
by move=> neg; rewrite /exit_flag (bigD1 r0) //= local_solveE /= neg.
Qed.

Lemma exit_flag_eq0 (sts : gstate) :
  (forall r, 0 <= converged_reason (sts r)) -> exit_flag sts = 0%N.
Proof.
move=> ok; rewrite /exit_flag big1 // => r _.
by rewrite local_solveE /= ltNge ok.
Qed.

Lemma state_at_succ i sts :
  state_at i.+1 = Some sts ->
  exists sts0,
    [/\ state_at i = Some sts0, [forall q, is_continue (step i sts0 q)] &
        sts = fun q => continued (step i sts0 q) (sts0 q)].
Proof.
rewrite /=; case: (state_at i) => [sts0|] //; case: ifP => // C [<-].
by exists sts0.
Qed.

(** A rank enters an iteration with the residual that was broadcast in the
    iteration before. *)
Lemma prev_residual_at i sts0 sts :
  state_at i = Some sts0 -> state_at i.+1 = Some sts ->
  forall r, prev_residual (sts r) = dndt_global sts0.
Proof.
move=> E0 /state_at_succ [sts1 [E1 /forallP C ->]] r.
move: E1; rewrite E0 => -[E1]; rewrite -{sts1}E1 in C *.
by rewrite /step after_bcast_continue //; apply: C.
Qed.

(** All ranks enter an iteration with the same [prev_residual]. *)
Lemma prev_residual_uniform i sts :
  state_at i = Some sts ->
  forall r, prev_residual (sts r) = prev_residual (sts ord0).
Proof.
case: i => [[<-]|i] // E r.
have [sts0 [E0 _ _]] := state_at_succ E.
by rewrite !(prev_residual_at E0 E).
Qed.

(** The loop of a call that reaches iteration [i] goes on from there. *)
Lemma evolve_loop_state_at i sts :
  state_at i = Some sts -> (i <= num_t)%N ->
  forall r, petsc_evolve r = evolve_loop (iota i (num_t - i)) sts r.
Proof.
elim: i sts => [|i IH] sts; first by case=> <- _ r; rewrite subn0.
move=> /state_at_succ [sts0 [E0 C ->]] lt r.
by rewrite (IH _ E0 (ltnW lt)) -(subnSK lt) /= C.
Qed.

Lemma evolve_loop_at i sts :
  state_at i = Some sts -> (i < num_t)%N ->
  forall r, petsc_evolve r =
    if [forall q, is_continue (step i sts q)] then
      evolve_loop (iota i.+1 (num_t - i.+1)) (fun q => continued (step i sts q) (sts q)) r
    else leave (step i sts r).
Proof.
move=> E lt r; rewrite (evolve_loop_state_at E (ltnW lt)).
by rewrite -(subnSK lt).
Qed.

(** A maximum over a finite type, started from one of the values, is one
    of the values. *)
Lemma bigmax_attained (I : finType) (i0 : I) (F : I -> R) :
  exists i, \big[Num.max/F i0]_i F i = F i.
Proof.
elim/big_ind: _ => [|x y [ix Hx] [iy Hy]|i _]; first by exists i0.
- by rewrite /Num.max; case: ifP => _; [exists iy | exists ix].
- by exists i.
Qed.

(** The broadcast residual of a step bounds the rate of change of every
    entry of every rank, and is the rate of change of one of them. *)
Lemma dndt_globalP (sts : gstate) :
  0 < dt ->
  (forall r k, `|solution (sts r) k 0 - n_old (sts r) k 0| / dt <= dndt_global sts)
  /\
  (exists r k, dndt_global sts = `|solution (sts r) k 0 - n_old (sts r) k 0| / dt).
Proof.
move=> dt0; rewrite /dndt_global; split=> [r k|].
  apply: le_trans (le_bigmax _ _ r); rewrite local_solveE /=.
  rewrite ler_pM2r ?invr_gt0 // distrC /np_max_abs_diff_vec.
  exact: (le_bigmax _ (fun k => `|n_old (sts r) k 0 - solution (sts r) k 0|) k).
have [r ->] := bigmax_attained ord0 (fun r => dndt (local_solve (sts r)).2).
rewrite local_solveE /= /np_max_abs_diff_vec.
have [k ->] := bigmax_attained (flat_index ord0 ord0)
                 (fun k => `|n_old (sts r) k 0 - solution (sts r) k 0|).
by exists r, k; rewrite distrC.
Qed.

(** An iteration in which no solve fails and neither test breaks the loop
    is left by every rank with the new densities and the broadcast residual. *)
Lemma step_continue (i : nat) (sts : gstate) :
  exit_flag sts = 0%N ->
  ~~ ((prev_residual (sts ord0) < dndt_global sts)
      && (10^-1 < i%:R / num_t%:R :> R)) ->
  (forall r, prev_residual (sts r) = prev_residual (sts ord0)) ->
  ~~ (dndt_global sts < dndt_thresh) ->
  forall q, step i sts q =
    Continue (RankState (solution (sts q)) (solution (sts q)) (dndt_global sts)).
Proof.
move=> F0 /negbTE nb U /negbTE nc q.
by rewrite /step /after_bcast F0 local_solveE /= U nb nc.
Qed.

Lemma state_at_next (i : nat) (sts : gstate) :
  state_at i = Some sts -> (forall q, is_continue (step i sts q)) ->
  state_at i.+1 = Some (fun q => continued (step i sts q) (sts q)).
Proof. by move=> /= -> C; rewrite ifT //; apply/forallP. Qed.

(** With a single rank the broadcast residual is that of the rank. *)
Lemma dndt_global_single (sts : gstate) :
  (forall r : 'I_nprocs, r = ord0) ->
  dndt_global sts = dndt (local_solve (sts ord0)).2.
Proof.
move=> one; rewrite /dndt_global.
have [r ->] := bigmax_attained ord0 (fun r => dndt (local_solve (sts r)).2).
by rewrite (one r).
Qed.

Lemma np_max_abs_diff_vec_single (n : nat) (k0 : 'I_n) (a b : 'cV[R]_n) :
  (forall k : 'I_n, k = k0) ->
  np_max_abs_diff_vec k0 a b = `|a k0 0 - b k0 0|.
Proof.
move=> one; rewrite /np_max_abs_diff_vec.
have [k ->] := bigmax_attained k0 (fun k => `|a k 0 - b k 0|).
by rewrite (one k).
Qed.

(** An iteration in which the solve of some rank fails is the last: every
    rank returns [None] from it. *)
Lemma failed_step (i : nat) (sts : gstate) (r0 : 'I_nprocs) :
  state_at i = Some sts -> (i < num_t)%N ->
  converged_reason (sts r0) < 0 ->
  [/\ forall r, step i sts r = ReturnNone &
      forall r, petsc_evolve r = Returned None].
Proof.
move=> E lt neg.
have S r : step i sts r = ReturnNone.
  by rewrite /step after_bcast_fail //; apply: exit_flag_gt0 neg.
split=> // r; rewrite (evolve_loop_at E lt) S ifF //.
by apply/negbTE/negP => /forallP /(_ ord0); rewrite S.
Qed.

(** ** The properties of [solver.evolve] *)

(** C7.  A failed solve aborts the run on every rank.  The failure flags of
    the ranks are summed at rank 0 and the sum is broadcast; if in an
    iteration that the run reaches the solve of some rank fails (its
    converged reason is negative), the sum is positive, every rank takes
    the [return None] of that iteration, and so [evolve] returns [None] on
    every rank. *)
Theorem failure_aborts_every_rank (i : nat) (sts : gstate) (r0 : 'I_nprocs) :
  state_at i = Some sts -> (i < num_t)%N ->
  converged_reason (sts r0) < 0 ->
  [/\ exit_flag sts =
        (\sum_(r < nprocs) (if (converged_reason (sts r) < 0)%R then 1 else 0))%N,
      (0 < exit_flag sts)%N,
      forall r, step i sts r = ReturnNone &
      forall r, petsc_evolve r = Returned None].
Proof.
move=> E lt neg; have [S N] := failed_step E lt neg.
split=> //; last exact: exit_flag_gt0 neg.
by rewrite /exit_flag; apply: eq_bigr => r _; rewrite local_solveE.
Qed.

(** C6, as the code has it.  If in an iteration that the run reaches no
    solve has failed, the broadcast residual exceeds that of the iteration
    before and [i / num_t > 0.1], every rank leaves the loop and returns
    densities, not [None]: the densities its solve has just produced in that
    very iteration. *)
Theorem divergence_stops_early (i : nat) (sts0 sts : gstate) :
  state_at i = Some sts0 -> state_at i.+1 = Some sts -> (i.+1 < num_t)%N ->
  exit_flag sts = 0%N ->
  dndt_global sts0 < dndt_global sts ->
  10^-1 < i.+1%:R / num_t%:R :> R ->
  forall r, petsc_evolve r = Returned (Some (unflatten (solution (sts r)))).
Proof.
move=> E0 E lt F0 incr tenth r.
have S q : step i.+1 sts q = Break (local_solve (sts q)).1.
  rewrite /step F0 after_bcast_diverge // local_solveE /=.
  by rewrite (prev_residual_at E0 E).
rewrite (evolve_loop_at E lt) S ifF; last by rewrite /leave /finish local_solveE.
by apply/negbTE/negP => /forallP /(_ ord0); rewrite S.
Qed.

(** ** How a run of [solver.evolve] ends *)

(** The two tests that break the loop, on the values a step has broadcast. *)
Definition diverging (i : nat) (sts : gstate) : bool :=
  (prev_residual (sts ord0) < dndt_global sts)
  && (10^-1 < i%:R / num_t%:R :> R).

Definition below_threshold (sts : gstate) : bool :=
  dndt_global sts < dndt_thresh.

(** The sum of the failure flags is positive exactly when a solve failed. *)
Lemma exit_flag_gt0E (sts : gstate) :
  (0 < exit_flag sts)%N = [exists r, converged_reason (sts r) < 0].
Proof.
apply/idP/existsP => [pos|[r0]]; last exact: exit_flag_gt0.
apply/existsP; rewrite -[[exists r, _]]negbK negb_exists.
apply/negP => /forallP ok; move: pos; rewrite exit_flag_eq0 // => r.
by rewrite leNgt.
Qed.

(** The ranks decide alike: in a step that all enter with the same
    [prev_residual], either all return [None], or all break and return what
    their solves have produced, or all go on. *)
Lemma step_cases (i : nat) (sts : gstate) :
  (forall r, prev_residual (sts r) = prev_residual (sts ord0)) ->
  [\/ (0 < exit_flag sts)%N /\ (forall r, step i sts r = ReturnNone),
      [/\ exit_flag sts = 0%N, diverging i sts || below_threshold sts,
          forall r, ~~ is_continue (step i sts r) &
          forall r, leave (step i sts r) =
                    Returned (Some (unflatten (solution (sts r))))]
    | [/\ exit_flag sts = 0%N, ~~ (diverging i sts || below_threshold sts) &
          forall r, step i sts r =
            Continue (RankState (solution (sts r)) (solution (sts r))
                        (dndt_global sts))]].
Proof.
move=> U; case: (posnP (exit_flag sts)) => [F0|pos]; last first.
  by apply: Or31; split=> // r; rewrite /step after_bcast_fail.
have S r : step i sts r =
    if diverging i sts then Break (local_solve (sts r)).1
    else if below_threshold sts
      then Break (RankState (solution (sts r)) (solution (sts r)) (dndt_global sts))
      else Continue (RankState (solution (sts r)) (solution (sts r)) (dndt_global sts)).
  by rewrite /step /after_bcast F0 local_solveE /= U.
case D: (diverging i sts).
  apply: Or32; split=> // r; rewrite S D //.
  by rewrite /leave /finish local_solveE.
case B: (below_threshold sts).
  by apply: Or32; split=> // r; rewrite S D B.
by apply: Or33; split=> // r; rewrite S D B.
Qed.

(** A run stops at some iteration that it reaches, in one of three ways: a
    solve has failed and every rank returns [None]; no solve has failed, one
    of the two tests breaks the loop and every rank returns what its solve
    has just produced; or the [num_t] iterations are over. *)
Lemma evolve_ends :
  exists j stsj,
    [/\ state_at j = Some stsj, (j <= num_t)%N &
      [\/ [/\ (j < num_t)%N, (0 < exit_flag stsj)%N &
              forall r, petsc_evolve r = Returned None],
          [/\ (j < num_t)%N, exit_flag stsj = 0%N,
              diverging j stsj || below_threshold stsj &
              forall r, petsc_evolve r =
                        Returned (Some (unflatten (solution (stsj r))))]
        | j = num_t /\ forall r, petsc_evolve r = finish (stsj r)]].
Proof.
have H n : forall i sts, state_at i = Some sts -> (i + n = num_t)%N ->
    exists j stsj,
    [/\ state_at j = Some stsj, (j <= num_t)%N &
      [\/ [/\ (j < num_t)%N, (0 < exit_flag stsj)%N &
              forall r, evolve_loop (iota i n) sts r = Returned None],
          [/\ (j < num_t)%N, exit_flag stsj = 0%N,
              diverging j stsj || below_threshold stsj &
              forall r, evolve_loop (iota i n) sts r =
                        Returned (Some (unflatten (solution (stsj r))))]
        | j = num_t /\ forall r, evolve_loop (iota i n) sts r = finish (stsj r)]].
  elim: n => [|n IH] i sts E En.
    exists i, sts; rewrite -En addn0 leqnn; split=> //.
    by apply: Or33.
  have lt : (i < num_t)%N by rewrite -En -addSnnS leq_addr.
  have notall : (forall r, ~~ is_continue (step i sts r)) ->
      [forall q, is_continue (step i sts q)] = false.
    by move=> nc; apply/negbTE/negP => /forallP /(_ ord0); apply/negP.
  case: (step_cases i (prev_residual_uniform E)) => [[pos S]|[F0 T nc L]|[F0 T S]].
  - exists i, sts; split=> //; first exact: ltnW.
    apply: Or31; split=> // r /=.
    by rewrite notall ?S // => q; rewrite S.
  - exists i, sts; split=> //; first exact: ltnW.
    by apply: Or32; split=> // r /=; rewrite notall.
  - have C : forall q, is_continue (step i sts q) by move=> q; rewrite S.
    have [j [stsj [Ej lej Hj]]] :=
      IH i.+1 _ (state_at_next E C) (etrans (addSnnS i n) En).
    exists j, stsj; split=> //.
    have all : [forall q, is_continue (step i sts q)] by apply/forallP.
    by case: Hj => [[? ? Hr]|[? ? ? Hr]|[? Hr]];
       [apply: Or31 | apply: Or32 | apply: Or33]; split=> // r /=; rewrite all.
exact: (H num_t 0%N init_state erefl (add0n _)).
Qed.

(** The state in which an iteration after the first starts holds, in both
    vectors, what the solves of the iteration before have produced, and no
    solve of that iteration had failed. *)
Lemma state_at_solution i sts :
  state_at i.+1 = Some sts ->
  exists sts0,
    [/\ state_at i = Some sts0, exit_flag sts0 = 0%N,
        forall r, n_old (sts r) = solution (sts0 r) &
        forall r, n_new (sts r) = solution (sts0 r)].
Proof.
move=> /state_at_succ [sts0 [E0 /forallP C ->]]; exists sts0.
case: (step_cases i (prev_residual_uniform E0)) => [[_ S]|[_ _ nc _]|[F0 _ S]].
- by have := C ord0; rewrite S.
- by have := C ord0; rewrite (negbTE (nc ord0)).
- by split=> // r; rewrite S.
Qed.

(** After a step that breaks the loop no further iteration starts. *)
Lemma state_at_break (i : nat) (sts : gstate) :
  state_at i = Some sts -> exit_flag sts = 0%N ->
  diverging i sts || below_threshold sts -> state_at i.+1 = None.
Proof.
move=> E F0 B /=; rewrite E.
case: (step_cases i (prev_residual_uniform E)) => [[]|[_ _ nc _]|[_]].
- by rewrite F0.
- by case: ifP => // /forallP /(_ ord0); rewrite (negbTE (nc ord0)).
- by rewrite B.
Qed.

(** The densities that a run returns after at least one iteration are the
    solution of the last iteration that the run executes: the loop is either
    exhausted after it or broken in it. *)
Lemma evolve_last_solution (r : 'I_nprocs)
    (x : 'M[R]_(loc_num_x r, num_states)) :
  (0 < num_t)%N -> petsc_evolve r = Returned (Some x) ->
  exists i sts,
    [/\ state_at i = Some sts, (i < num_t)%N, exit_flag sts = 0%N,
        i.+1 = num_t \/ state_at i.+1 = None &
        x = unflatten (solution (sts r))].
Proof.
move=> nt.
have [j [stsj [E _ [[_ _ H]|[lt F0 B H]|[Ej H]]]]] := evolve_ends.
- by rewrite H.
- rewrite H => -[<-]; exists j, stsj; split=> //.
  by right; apply: state_at_break E F0 B.
- rewrite H /finish => -[<-].
  case: j Ej E => [Ej|j Ej E]; first by rewrite -Ej in nt.
  have [sts0 [E0 F0 _ Hn]] := state_at_solution E.
  by exists j, sts0; rewrite Hn -Ej; split=> //; left.
Qed.

(** A step in which no solve fails and one of the two tests holds is the
    last: every rank returns what its solve has produced. *)
Lemma break_returns_solution (i : nat) (sts : gstate) :
  state_at i = Some sts -> (i < num_t)%N ->
  exit_flag sts = 0%N -> diverging i sts || below_threshold sts ->
  forall r, petsc_evolve r = Returned (Some (unflatten (solution (sts r)))).
Proof.
move=> E lt F0 B r; rewrite (evolve_loop_at E lt).
case: (step_cases i (prev_residual_uniform E)) => [[]|[_ _ nc L]|[_]].
- by rewrite F0.
- rewrite ifF ?L //.
  by apply/negbTE/negP => /forallP /(_ ord0); apply/negP.
- by rewrite B.
Qed.

(** ** More properties of [solver.evolve] *)

(** The ranks of a run end alike: either [evolve] returns [None] on every
    rank, or it returns densities on every rank.  No rank is left waiting in
    a gather or a broadcast that another rank has left. *)
Theorem evolve_ranks_agree :
  (forall r, petsc_evolve r = Returned None) \/
  (forall r, exists x, petsc_evolve r = Returned (Some x)).
Proof.
have [j [stsj [_ _ [[_ _ H]|[_ _ _ H]|[_ H]]]]] := evolve_ends.
- by left.
- by right=> r; rewrite H; eexists.
- by right=> r; rewrite H; eexists.
Qed.

(** [evolve] returns [None] only when a solve has failed: if it returns
    [None] on some rank, then in an iteration that the run has reached the
    converged reason of some rank was negative. *)
Theorem None_only_after_failure (r : 'I_nprocs) :
  petsc_evolve r = Returned None ->
  exists i sts r0,
    [/\ state_at i = Some sts, (i < num_t)%N & converged_reason (sts r0) < 0].
Proof.
have [j [stsj [E _ [[lt pos _] _|[_ _ _ H]|[_ H]]]]] := evolve_ends.
- move: pos; rewrite exit_flag_gt0E => /existsP [r0 neg].
  by exists j, stsj, r0.
- by rewrite H.
- by rewrite H.
Qed.

(** The threshold stops a run.  Let the time step be positive (with a time
    step of zero the residual of the code is a quotient by zero).  If in an
    iteration that the run reaches no solve fails and the broadcast residual
    is below [dndt_thresh], the loop ends there: no further iteration starts,
    and every rank returns the densities that its solve has produced in that
    iteration. *)
Theorem threshold_stops (i : nat) (sts : gstate) :
  0 < dt ->
  state_at i = Some sts -> (i < num_t)%N ->
  exit_flag sts = 0%N -> dndt_global sts < dndt_thresh ->
  state_at i.+1 = None /\
  forall r, petsc_evolve r = Returned (Some (unflatten (solution (sts r)))).
Proof.
move=> _ E lt F0 B.
have T : diverging i sts || below_threshold sts by rewrite /below_threshold B orbT.
by split; [apply: state_at_break E F0 T | apply: break_returns_solution E lt F0 T].
Qed.

(** What [evolve] returns.  Let the time step be positive.  When [evolve]
    returns densities after at least one iteration, they are the vector that
    the solve of the rank has produced in the last iteration that the run
    has executed: an iteration in which no solve had failed, and after which
    either the [num_t] iterations were over or the loop was broken, so that
    no further iteration started. *)
Theorem evolve_returns_last_solution (r : 'I_nprocs)
    (x : 'M[R]_(loc_num_x r, num_states)) :
  0 < dt -> (0 < num_t)%N -> petsc_evolve r = Returned (Some x) ->
  exists i sts,
    [/\ state_at i = Some sts, (i < num_t)%N, exit_flag sts = 0%N,
        i.+1 = num_t \/ state_at i.+1 = None &
        x = unflatten (solution (sts r))].
Proof. by move=> _; apply: evolve_last_solution. Qed.

(** The sum of the entries of a backward Euler solution.  If the columns
    of the rate matrix of a rank sum to zero and [x] solves
    [(I - dt * rate_matrix) x = b] exactly, then [x] and [b] have the same
    sum. *)
Lemma be_op_mat_sum (r : 'I_nprocs) (x b : 'cV[R]_(len r)) :
  (forall c, colsum (rate_matrix r) c = 0) ->
  be_op_mat r *m x = b -> \sum_k x k 0 = \sum_k b k 0.
Proof.
move=> cs <-; rewrite -[RHS]/(np_sum _) np_sum_mulmx.
by apply: eq_bigr => c _; rewrite /be_op_mat colsum_euler // mul1r.
Qed.

(** Conservation in [solver.evolve].  Let the columns of the rate matrix of
    a rank sum to zero, let every solve of the rank be exact and let the time
    step be positive.  Then the densities that [evolve] returns on that rank
    after at least one iteration have the same sum as its rows of [n_init]:
    the difference that the conservation check prints is zero. *)
Theorem evolve_conserves_total (r : 'I_nprocs)
    (x : 'M[R]_(loc_num_x r, num_states)) :
  (forall c, colsum (rate_matrix r) c = 0) ->
  (forall b : 'cV[R]_(len r),
     be_op_mat r *m
       (ksp_solve ksp_solver ksp_pc (ksp_tol * np_sum2 (n_init r))
          (be_op_mat r) b).1 = b) ->
  0 < dt -> (0 < num_t)%N -> petsc_evolve r = Returned (Some x) ->
  np_sum2 x = np_sum2 (n_init r).
Proof.
move=> cs exact _ nt Ex.
have step_sum (st : rank_state (len r)) :
    \sum_k solution st k 0 = \sum_k n_old st k 0.
  exact: be_op_mat_sum (exact (n_old st)).
have inv i : forall sts, state_at i = Some sts ->
    \sum_k n_old (sts r) k 0 = np_sum2 (n_init r).
  elim: i => [|i IH] sts.
    case=> <-; rewrite /init_state /= -sum_flat_index /np_sum2.
    by apply: eq_bigr => j _; apply: eq_bigr => k _;
       rewrite /flatten mxE cell_of_flat state_of_flat.
  move=> /state_at_solution [sts0 [E0 _ -> _]].
  by rewrite step_sum; apply: IH.
have [i [sts [E _ _ _ ->]]] := evolve_last_solution nt Ex.
rewrite -(inv i sts E) -step_sum -sum_flat_index /np_sum2.
by apply: eq_bigr => j _; apply: eq_bigr => k _; rewrite /unflatten mxE.
Qed.

(** Conservation in [solver.solve].  Let the solve be exact, and let the
    last row of every local cell of the rate matrix vanish outside the columns
    of that cell.  Then in every local cell the densities that [solve]
    returns have the same sum as the row of [n_init] of that cell. *)
Theorem solve_conserves_cell_totals (mx lx ax : nat)
    (M : 'M[R]_(lx * num_states))
    (n0 : 'M[R]_(mx + (lx + ax), num_states))
    (n_solved : 'M[R]_(lx, num_states)) :
  petsc_solve M n0 = Some n_solved ->
  solve_matrix M *m
    (ksp_solve ksp_solver ksp_pc (ksp_tol * np_sum2 (local_rows n0))
       (solve_matrix M) (solve_rhs (local_rows n0))).1 =
    solve_rhs (local_rows n0) ->
  (forall j c, cell_of c != j -> M (flat_index j ord_max) c = 0) ->
  forall j, \sum_i n_solved j i = \sum_i local_rows n0 j i.
Proof.
rewrite /petsc_solve.
case: (ksp_solve _ _ _ _ _) => x reason /=; case: ifP => // _ [<-] Ex blk j.
have := congr1 (fun v : 'cV_(lx * num_states) => v (flat_index j ord_max) 0) Ex.
rewrite /= solve_rhsE state_of_flat eqxx cell_of_flat => <-.
rewrite mxE.
have -> : \sum_c solve_matrix M (flat_index j ord_max) c * x c 0 =
          \sum_k (\col_c (solve_matrix M (flat_index j ord_max) c * x c 0)) k 0.
  by apply: eq_bigr => c _; rewrite mxE.
rewrite -sum_flat_index (bigD1 j) //= [X in _ + X]big1 ?addr0 => [j' ne|].
  apply: big1 => i _.
  by rewrite mxE solve_matrixE state_of_flat !cell_of_flat eqxx (negbTE ne) blk
             ?cell_of_flat // mul0r.
apply: eq_bigr => i _.
by rewrite /unflatten !mxE solve_matrixE state_of_flat !cell_of_flat !eqxx mul1r.
Qed.

End Solver.

(** * core.py: the widths of the grids *)

Section GridWidths.

Variable R : realFieldType.

(** [a[k]] and [a[k] = v] on a one-dimensional array; [None] stands for
    [IndexError]. *)
Definition np_get (a : seq R) (k : int) : option R :=
  if np_index (size a) k is Some i then Some (nth 0 a i) else None.

Definition np_set (a : seq R) (k : int) (v : R) : option (seq R) :=
  if np_index (size a) k is Some i then Some (set_nth 0 a i v) else None.

(** [SIKERun.generate_grid_widths]: the arrays [dxc] and [dvc].  [num_x] is
    the number of cells that [init_from_dist] and [init_from_profiles] have
    read off the plasma profiles; [num_v] is the length of [vgrid]. *)
Definition generate_grid_widths (num_x : nat) (xgrid vgrid : seq R) :
    option (seq R * seq R) :=
  let num_v := size vgrid in
  (* Spatial grid widths *)
  let dxc := nseq num_x 0 in
  if np_get xgrid 1 is Some x1 then
  if np_set dxc 0 (2 * x1) is Some dxc then
  if np_get xgrid (- 1) is Some xl then
  if np_get xgrid (- 2%:Z) is Some xl2 then
  if np_set dxc (- 1) (2 * (xl - xl2)) is Some dxc then
  if foldl (fun acc (i : nat) =>
       if acc is Some dxc then
         if np_get xgrid (i%:Z + 1) is Some a then
           if np_get xgrid (i%:Z - 1) is Some b then np_set dxc i%:Z (a - b)
           else None
         else None
       else None) (Some dxc) (iota 1 (num_x - 2)) is Some dxc then
  (* Velocity grid widths *)
  let dvc := nseq num_v 0 in
  if np_get vgrid 0 is Some v0 then
  if np_set dvc 0 (2 * v0) is Some dvc then
  if foldl (fun acc (i : nat) =>
       if acc is Some dvc then
         if np_get vgrid i%:Z is Some vi then
           if np_get vgrid (i%:Z - 1) is Some vp then
             if np_get dvc (i%:Z - 1) is Some dp then
               np_set dvc i%:Z (2 * (vi - vp) - dp)
             else None
           else None
         else None
       else None) (Some dvc) (iota 1 (num_v - 1)) is Some dvc then
  Some (dxc, dvc)
  else None else None else None else None else None else None else None
  else None else None.

Lemma np_get_nat (a : seq R) (i : nat) :
  np_get a i%:Z = if (i < size a)%N then Some (nth 0 a i) else None.
Proof.
by rewrite /np_get /= ord_ofE; case: insubP => [u -> <-|/negbTE ->].
Qed.

Lemma np_set_nat (a : seq R) (i : nat) (v : R) :
  np_set a i%:Z v = if (i < size a)%N then Some (set_nth 0 a i v) else None.
Proof.
by rewrite /np_set /= ord_ofE; case: insubP => [u -> <-|/negbTE ->].
Qed.

Lemma np_get_neg (a : seq R) (i : nat) :
  np_get a (- i.+1%:Z) =
  if (i < size a)%N then Some (nth 0 a (size a - i.+1)) else None.
Proof.
rewrite /np_get -NegzE /=; case: ltnP => // lt; rewrite ord_ofE.
by case: insubP => [u _ ->|] //; rewrite ltn_subrL /= (leq_ltn_trans _ lt).
Qed.

Lemma np_set_neg (a : seq R) (i : nat) (v : R) :
  np_set a (- i.+1%:Z) v =
  if (i < size a)%N then Some (set_nth 0 a (size a - i.+1) v) else None.
Proof.
rewrite /np_set -NegzE /=; case: ltnP => // lt; rewrite ord_ofE.
by case: insubP => [u _ ->|] //; rewrite ltn_subrL /= (leq_ltn_trans _ lt).
Qed.

Lemma predz (i : nat) : i.+1%:Z - 1 = i%:Z.
Proof. by rewrite -addn1 PoszD addrK. Qed.

Lemma succz (i : nat) : i%:Z + 1 = i.+1%:Z.
Proof. by rewrite -addn1 PoszD. Qed.

(** The widths that the loop over the velocity grid computes, after a point
    [vprev] of width [wprev]. *)
Fixpoint widths (vprev wprev : R) (vs : seq R) : seq R :=
  if vs is v :: vs' then
    let w := 2 * (v - vprev) - wprev in w :: widths v w vs'
  else [::].

Lemma size_widths vprev wprev vs : size (widths vprev wprev vs) = size vs.
Proof. by elim: vs vprev wprev => [|v vs IH] vprev wprev //=; rewrite IH. Qed.

Lemma foldl_None (T S : Type) (f : option S -> T -> option S) (xs : seq T) :
  (forall x, f None x = None) -> foldl f None xs = None.
Proof. by move=> fN; elim: xs => [|x xs IH] //=; rewrite fN. Qed.

Lemma np_get_at (a b : seq R) (x : R) :
  np_get (a ++ x :: b) (size a)%:Z = Some x.
Proof.
by rewrite np_get_nat size_cat /= -addSnnS ltn_addr // nth_cat ltnn subnn.
Qed.

Lemma np_set_at (a b : seq R) (x v : R) :
  np_set (a ++ x :: b) (size a)%:Z v = Some (a ++ v :: b).
Proof.
by rewrite np_set_nat size_cat /= -addSnnS ltn_addr // set_nth_after.
Qed.

(** The loop over the velocity grid: with the widths up to that of the
    point [vp] computed, it computes the others. *)
Lemma dvc_loop (vpre vrest pre : seq R) (vp wp : R) :
  size pre = size vpre ->
  foldl (fun acc (i : nat) =>
       if acc is Some dvc then
         if np_get (vpre ++ vp :: vrest) i%:Z is Some vi then
           if np_get (vpre ++ vp :: vrest) (i%:Z - 1) is Some vp then
             if np_get dvc (i%:Z - 1) is Some dp then
               np_set dvc i%:Z (2 * (vi - vp) - dp)
             else None
           else None
         else None
       else None) (Some (pre ++ wp :: nseq (size vrest) 0))
     (iota (size pre).+1 (size vrest)) =
  Some (pre ++ wp :: widths vp wp vrest).
Proof.
elim: vrest vpre pre vp wp => [|v vrest IH] vpre pre vp wp Es //=.
rewrite predz.
have -> : np_get (vpre ++ [:: vp, v & vrest]) (size pre).+1%:Z = Some v.
  by rewrite -cat_rcons Es -(size_rcons vpre vp) np_get_at.
have -> : np_get (vpre ++ [:: vp, v & vrest]) (size pre)%:Z = Some vp.
  by rewrite Es np_get_at.
rewrite np_get_at.
have -> w : np_set (pre ++ [:: wp, 0 & nseq (size vrest) 0]) (size pre).+1%:Z w
            = Some (rcons pre wp ++ w :: nseq (size vrest) 0).
  by rewrite -cat_rcons -(size_rcons pre wp) np_set_at.
have := IH (rcons vpre vp) (rcons pre wp) v (2 * (v - vp) - wp).
rewrite !size_rcons Es => /(_ erefl).
by rewrite !cat_rcons.
Qed.

(** Every point is the centre of its width: with the widths laid end to
    end from [c], the point [vprev] of width [wprev] being the centre of the
    one that starts at [c]. *)
Lemma widths_centres (vprev wprev c : R) (vs : seq R) (i : nat) :
  c + wprev / 2 = vprev -> (i < size vs)%N ->
  c + wprev + \sum_(w <- take i (widths vprev wprev vs)) w
    + nth 0 (widths vprev wprev vs) i / 2 = nth 0 vs i.
Proof.
elim: vs vprev wprev c i => [|v vs IH] vprev wprev c [|i] //= Hc lt.
  by rewrite big_nil; lra.
rewrite big_cons -(IH v (2 * (v - vprev) - wprev) (c + wprev) i) //; first by lra.
by lra.
Qed.

(** The loop over the spatial grid returns exactly when [xgrid] has an
    entry after each of the cells it visits. *)
Lemma dxc_loop (xgrid : seq R) (m j : nat) (dxc : seq R) :
  (0 < j)%N -> (j + m <= size dxc)%N ->
  let res :=
    foldl (fun acc (i : nat) =>
       if acc is Some dxc then
         if np_get xgrid (i%:Z + 1) is Some a then
           if np_get xgrid (i%:Z - 1) is Some b then np_set dxc i%:Z (a - b)
           else None
         else None
       else None) (Some dxc) (iota j m) in
  (res : bool) = (m == 0%N) || (j + m < size xgrid)%N
  /\ (forall d, res = Some d -> size d = size dxc).
Proof.
elim: m j dxc => [|m IH] [|j] dxc // _ le /=.
  by split=> // d [<-].
rewrite succz predz !np_get_nat.
have ltd : (j.+1 < size dxc)%N by apply: leq_trans le; rewrite -addSnnS leq_addr.
case: (ltnP j.+2 (size xgrid)) => [ltx|gex]; last first.
  rewrite foldl_None //; split=> //.
  by apply/esym/negbTE; rewrite -leqNgt (leq_trans gex) // -addSnnS leq_addr.
rewrite (ltn_trans (ltn_trans (ltnSn j) (ltnSn _)) ltx) np_set_nat ltd.
have [] := IH j.+2 (set_nth 0 dxc j.+1 (nth 0 xgrid j.+2 - nth 0 xgrid j)) isT.
  by rewrite size_set_nth (maxn_idPr ltd) addSnnS.
rewrite addSnnS => -> Hs; split.
  by case: m {IH le Hs} => [|m] //=; rewrite addn1.
by move=> d /Hs ->; rewrite size_set_nth (maxn_idPr ltd).
Qed.

Lemma np_get0 (a : seq R) :
  np_get a 0 = if (0 < size a)%N then Some (nth 0 a 0) else None.
Proof. exact: (np_get_nat a 0). Qed.

Lemma np_get1 (a : seq R) :
  np_get a 1 = if (1 < size a)%N then Some (nth 0 a 1) else None.
Proof. exact: (np_get_nat a 1). Qed.

Lemma np_set0 (a : seq R) (v : R) :
  np_set a 0 v = if (0 < size a)%N then Some (set_nth 0 a 0 v) else None.
Proof. exact: (np_set_nat a 0). Qed.

Lemma np_get_last (a : seq R) :
  np_get a (- 1) = if (0 < size a)%N then Some (nth 0 a (size a - 1)) else None.
Proof. exact: (np_get_neg a 0). Qed.

Lemma np_get_last2 (a : seq R) :
  np_get a (- 2%:Z) =
  if (1 < size a)%N then Some (nth 0 a (size a - 2)) else None.
Proof. exact: (np_get_neg a 1). Qed.

Lemma np_set_last (a : seq R) (v : R) :
  np_set a (- 1) v =
  if (0 < size a)%N then Some (set_nth 0 a (size a - 1) v) else None.
Proof. exact: (np_set_neg a 0). Qed.

(** [generate_grid_widths] returns when [xgrid] has two entries at least,
    there is a cell, no more cells than entries of [xgrid], and [vgrid] is
    not empty; it raises [IndexError] otherwise, in particular for a grid
    of a single cell whose [xgrid] has a single entry. *)
Theorem generate_grid_widths_returns (num_x : nat) (xgrid vgrid : seq R) :
  (generate_grid_widths num_x xgrid vgrid : bool) =
  [&& (1 < size xgrid)%N, (0 < num_x)%N, (num_x <= size xgrid)%N
    & (0 < size vgrid)%N].
Proof.
rewrite /generate_grid_widths np_get1.
case: ltnP => //= x2.
rewrite np_set0 size_nseq.
case nx: (0 < num_x)%N => //=.
rewrite np_get_last np_get_last2 (ltn_trans _ x2) // x2 np_set_last.
rewrite size_set_nth size_nseq.
have -> : (0 < maxn 1 num_x)%N by rewrite leq_max.
set dxc1 := set_nth _ _ _ _.
have sz : size dxc1 = num_x.
  by rewrite !size_set_nth size_nseq (maxn_idPr nx) (maxn_idPr _) // subn1 ltn_predL.
have [] := @dxc_loop xgrid (num_x - 2) 1 dxc1 isT.
  by rewrite sz; case: (num_x) nx => [|[|n]] //= _; rewrite subn2.
have -> : (num_x - 2 == 0)%N || (1 + (num_x - 2) < size xgrid)%N
          = (num_x <= size xgrid)%N.
  by case: (num_x) nx => [|[|[|n]]] //= _; rewrite ?subn2 ?x2 ?(ltnW x2).
case: (foldl _ _ _) => [dxc2|] /= <- _ //.
rewrite np_get0.
case nv: (0 < size vgrid)%N => //=.
rewrite np_set0 size_nseq nv.
case: (vgrid) nv => [|v0 vs] // _.
have := @dvc_loop [::] vs [::] v0 (2 * v0) erefl.
by rewrite /= subn1 /= => ->.
Qed.

(** The velocity grid points are the centres of the widths.  When
    [generate_grid_widths] returns, [dvc] has one width for each point of
    [vgrid], and with the widths laid end to end from zero, every point of
    [vgrid] is the middle of its width. *)
Theorem velocity_points_are_centres (num_x : nat) (xgrid vgrid dxc dvc : seq R) :
  generate_grid_widths num_x xgrid vgrid = Some (dxc, dvc) ->
  size dvc = size vgrid /\
  forall i, (i < size vgrid)%N ->
    \sum_(w <- take i dvc) w + nth 0 dvc i / 2 = nth 0 vgrid i.
Proof.
rewrite /generate_grid_widths.
do 6![case: (X in if X is Some _ then _ else _) => [?|] //].
rewrite np_get0.
case: vgrid => [|v0 vs] //=.
rewrite ?np_set0 /= subn1 /=.
have := @dvc_loop [::] vs [::] v0 (2 * v0) erefl.
rewrite /= => -> [_ <-] /=; rewrite size_widths; split=> // -[|i] /= lt.
  by rewrite big_nil; lra.
rewrite big_cons -(@widths_centres v0 (2 * v0) 0 vs i) //; first by lra.
by lra.
Qed.

End GridWidths.

(** * The direct solve in double precision *)

(** The model of [impurity.py] above computes in a field, where a sum or a
    product has no rounding error.  To run [Impurity.solve] on doubles, the
    method is modelled once more, on the kernel's binary64 floats (IEEE 754,
    rounding to nearest even): the densities are the rows of a list of lists,
    a rate matrix is the list of its rows, and [np.linalg.inv] is a
    parameter.  [None] stands for an exception ([LinAlgError] of the
    inversion, [IndexError] of an index out of range).  The arrays are taken
    to have the shapes the class gives them. *)

(** [np.sum] of a one-dimensional array of fewer than eight entries: numpy
    adds them from left to right. *)
Definition np_sum_f64 (a : seq float) : float := foldl PrimFloat.add 0%float a.

(** [A.dot(x)] for a matrix and a vector: row by row, the products added
    from left to right. *)
Definition dot_f64 (A : seq (seq float)) (x : seq float) : seq float :=
  [seq foldl (fun acc p => PrimFloat.add acc (PrimFloat.mul p.1 p.2)) 0%float
         (zip row x)
  | row <- A].

(** [loc_mat[-1, :] = 1.0]. *)
Definition set_last_row_ones_f64 (loc_mat : seq (seq float)) :
    option (seq (seq float)) :=
  if loc_mat is row :: _ then
    Some (set_nth [::] loc_mat (size loc_mat).-1 (nseq (size row) 1%float))
  else None.

(** [rhs = np.zeros(tot_states); rhs[-1] = total]. *)
Definition rhs_last_f64 (tot_states : nat) (total : float) : option (seq float) :=
  if tot_states is n.+1 then Some (rcons (nseq n 0%float) total) else None.

(** [a[i]], with its [IndexError]. *)
Definition index_f64 (T : Type) (a : seq T) (i : nat) : option T :=
  ohead (drop i a).

(** The object: the attributes that [solve] reads and writes. *)
Record Impurity_f64 : Type := mkImpurity_f64 {
  num_x_f64 : nat;
  tot_states_f64 : nat;
  dens_f64 : seq (seq float);
  dens_max_f64 : seq (seq float);
  rate_mat_f64 : seq (seq (seq float));
  rate_mat_max_f64 : seq (seq (seq float))
}.

Section SolveDoubles.

Variable linalg_inv_f64 : seq (seq float) -> option (seq (seq float)).

(** Body of a loop of [solve], on the list of matrices and the array of
    densities that the loop works on. *)
Definition solve_cell_f64 (tot_states : nat)
    (arrs : seq (seq (seq float)) * seq (seq float)) (i : nat) :
    option (seq (seq (seq float)) * seq (seq float)) :=
  let: (mats, dens) := arrs in
  if index_f64 mats i is Some loc_mat then
  if set_last_row_ones_f64 loc_mat is Some loc_mat then
  let mats := set_nth [::] mats i loc_mat in
  if index_f64 dens i is Some dens_i then
  if rhs_last_f64 tot_states (np_sum_f64 dens_i) is Some rhs then
  if linalg_inv_f64 loc_mat is Some loc_mat_inv then
  Some (mats, set_nth [::] dens i (dot_f64 loc_mat_inv rhs))
  else None else None else None else None else None.

Definition solve_loop_f64 (num_x tot_states : nat)
    (arrs : seq (seq (seq float)) * seq (seq float)) :
    option (seq (seq (seq float)) * seq (seq float)) :=
  foldl (fun acc i => if acc is Some arrs then solve_cell_f64 tot_states arrs i
                      else None)
    (Some arrs) (iota 0 num_x).

(** [Impurity.solve] on doubles. *)
Definition solve_f64 (s : Impurity_f64) : option Impurity_f64 :=
  if solve_loop_f64 (num_x_f64 s) (tot_states_f64 s) (rate_mat_f64 s, dens_f64 s)
    is Some (rate_mat, dens) then
  if solve_loop_f64 (num_x_f64 s) (tot_states_f64 s)
       (rate_mat_max_f64 s, dens_max_f64 s)
    is Some (rate_mat_max, dens_max) then
  Some (mkImpurity_f64 (num_x_f64 s) (tot_states_f64 s) dens dens_max
          rate_mat rate_mat_max)
  else None else None.

End SolveDoubles.

(** A stand-in for [np.linalg.inv] on 2 x 2 matrices: the steps of LAPACK's
    [dgesv] on the identity, which is what numpy calls.  The larger entry
    of the first column is the pivot, the other row is reduced with the
    multiplier [c * (1 / a)], and the two columns of the identity are solved
    by forward and back substitution.  A zero pivot is the [LinAlgError]. *)
Definition gauss_inv_f64 (A : seq (seq float)) : option (seq (seq float)) :=
  let lu (r1 r2 e1 e2 : seq float) :=
    (* rows [r1] (the pivot row) and [r2]; [e1], [e2]: the rows of the
       permuted identity *)
    let a := nth 0%float r1 0 in let b := nth 0%float r1 1 in
    let c := nth 0%float r2 0 in let d := nth 0%float r2 1 in
    if PrimFloat.eqb a 0%float then None else
    let l := PrimFloat.mul c (PrimFloat.div 1%float a) in
    let u22 := PrimFloat.sub d (PrimFloat.mul l b) in
    if PrimFloat.eqb u22 0%float then None else
    let col (j : nat) :=
      let y1 := nth 0%float e1 j in
      let y2 := PrimFloat.sub (nth 0%float e2 j) (PrimFloat.mul y1 l) in
      let x2 := PrimFloat.div y2 u22 in
      let x1 := PrimFloat.div (PrimFloat.sub y1 (PrimFloat.mul x2 b)) a in
      (x1, x2) in
    Some [:: [:: (col 0%N).1; (col 1%N).1]; [:: (col 0%N).2; (col 1%N).2]] in
  if A is [:: [:: a; b]; [:: c; d]] then
    if PrimFloat.ltb (PrimFloat.abs a) (PrimFloat.abs c)
    then lu [:: c; d] [:: a; b] [:: 0%float; 1%float] [:: 1%float; 0%float]
    else lu [:: a; b] [:: c; d] [:: 1%float; 0%float] [:: 0%float; 1%float]
  else None.

(** * The two programs side by side *)

(** C2.  The linear system of the direct solve.  In [Impurity.solve], for
    both electron models and every cell, the matrix that is inverted is the
    stored rate matrix with its last row replaced by ones, the right-hand
    side is zero except for its last entry, the total density of the cell at
    entry, and the new densities of the cell are the solution of that square
    system.  In [solver.solve] the matrix handed to the KSP solve is the
    rate matrix with the last row of every local cell set to one in the
    columns of that cell, the right-hand side is zero except for the last
    entry of every cell, the total of its row of [n_init], and what is
    returned is the vector that the KSP solve leaves, reshaped. *)
Theorem direct_solve_construction :
  (forall (R : realFieldType) (nx' ns' num_v : nat)
          (s s' : Impurity R nx' ns' num_v),
     solve s = Returns s' ->
     forall k i, exists (A : 'M[R]_ns'.+1) (b : 'cV[R]_ns'.+1),
       [/\ forall r c, A r c = if r == ord_max then 1 else the_rate_mat k s i r c,
           forall r, b r 0 = if r == ord_max then \sum_j the_dens k s i j else 0,
           A \in unitmx,
           A *m get_row (the_dens k s') i = b &
           forall x, A *m x = b -> x = get_row (the_dens k s') i])
  /\
  (forall (R : realFieldType) (ns' : nat) ksp_solve ksp_solver ksp_pc ksp_tol
          (min_x loc_num_x after_x : nat)
          (rate_matrix : 'M[R]_(loc_num_x * ns'.+1))
          (n_init : 'M[R]_(min_x + (loc_num_x + after_x), ns'.+1)),
     exists (A : 'M[R]_(loc_num_x * ns'.+1)) (b : 'cV[R]_(loc_num_x * ns'.+1)),
       [/\ forall r c, A r c =
             if (state_of r == ord_max) && (cell_of c == cell_of r) then 1
             else rate_matrix r c,
           forall k, b k 0 =
             if state_of k == ord_max
             then \sum_i n_init (rshift min_x (lshift after_x (cell_of k))) i
             else 0 &
           petsc_solve ksp_solve ksp_solver ksp_pc ksp_tol rate_matrix n_init =
             let: (x, reason) :=
               ksp_solve ksp_solver ksp_pc
                 (ksp_tol * np_sum2 (local_rows n_init)) _ A b in
             if reason < 0 then None else Some (unflatten x)]).
Proof.
split=> [R nx' ns' num_v s s' E k i|R ns' ksp ty pc tol min_x loc_num_x after_x M n0].
  have [U Hm Hd] := solveP E k i.
  exists (set_last_row_ones (the_rate_mat k s i)),
         (rhs_last ns' (np_sum (get_row (the_dens k s) i))).
  split=> // [r c|r| |x Ex].
  - by rewrite /set_last_row_ones mxE.
  - rewrite /rhs_last mxE; case: (r == ord_max) => //.
    by rewrite /np_sum; apply: eq_bigr => j _; rewrite /get_row !mxE.
  - by rewrite Hd mulKVmx.
  - by rewrite Hd -Ex mulKmx.
exists (solve_matrix M), (solve_rhs (local_rows n0)); split=> // [r c|k].
  exact: solve_matrixE.
rewrite solve_rhsE; case: (state_of k == ord_max) => //.
by apply: eq_bigr => i _; rewrite /local_rows !mxE.
Qed.

(** C5, as the code has it.  [Impurity.evolve] returns the largest absolute
    change of a density over all cells, all states and both electron models;
    it is not divided by the time step.  In [solver.evolve], with a positive
    time step, the residual that is broadcast in a step and tested against
    the threshold is the largest, over all ranks, cells and states, of
    [|n_new - n_old| / dt]. *)
Theorem residual_definition :
  (forall (R : realFieldType) (nx' ns' num_v : nat) (s : Impurity R nx' ns' num_v),
     let s' := (evolve s).2 in
     (forall k i j, `|the_dens k s' i j - the_dens k s i j| <= (evolve s).1) /\
     (exists k i j, (evolve s).1 = `|the_dens k s' i j - the_dens k s i j|))
  /\
  (forall (R : realFieldType) (ns' : nat) ksp_solve ksp_solver ksp_pc ksp_tol
          (nprocs' : nat) (loc' : 'I_nprocs'.+1 -> nat)
          (rate_matrix : forall r, 'M[R]_((loc' r).+1 * ns'.+1))
          (n_init : forall r, 'M[R]_((loc' r).+1, ns'.+1))
          (dt : R) (sts : gstate R ns' loc'),
     let n_new r := solution ksp_solve ksp_solver ksp_pc ksp_tol rate_matrix n_init dt (sts r) in
     let residual := dndt_global ksp_solve ksp_solver ksp_pc ksp_tol rate_matrix n_init dt sts in
     0 < dt ->
     (forall r k, `|n_new r k 0 - n_old (sts r) k 0| / dt <= residual) /\
     (exists r k, residual = `|n_new r k 0 - n_old (sts r) k 0| / dt)).
Proof.
split=> [R nx' ns' num_v s s'|R ns' ksp ty pc tol nprocs' loc' M n0 dt sts n_new g dt0];
  last exact: dndt_globalP.
have [_ _ -> _ _] := evolveP s; rewrite -/s'; split=> [k i j|].
  by case: k => /=; [apply: le_trans (py_max_ge_l _ _) | apply: le_trans (py_max_ge_r _ _)];
     apply: np_max_abs_diff_ub.
rewrite /py_max; case: ifP => _.
  have [i [j ->]] := np_max_abs_diff_attained (dens_max s') (dens_max s).
  by exists Maxwellian, i, j.
have [i [j ->]] := np_max_abs_diff_attained (dens s') (dens s).
by exists Kinetic, i, j.
Qed.

(** * A two-level system *)

(** ** Small matrices *)

Section SmallMatrices.

Variable R : realFieldType.

Lemma invmx_right (n : nat) (A B : 'M[R]_n) :
  A *m B = 1%:M -> A \in unitmx /\ invmx A = B.
Proof.
move=> AB; have [U _] := mulmx1_unit AB; split=> //.
by rewrite -[RHS](mulKmx U) AB mulmx1.
Qed.

Lemma ord2_cases (i : 'I_2) : i = ord0 \/ i = ord_max.
Proof.
by case: i => [[|[|i]]] // Hi; [left | right]; apply/val_inj.
Qed.

Lemma sum_ord2 (F : 'I_2 -> R) : \sum_i F i = F ord0 + F ord_max.
Proof.
rewrite big_ord_recl big_ord_recl big_ord0 addr0; congr (_ + F _).
exact/val_inj.
Qed.

Lemma sum_ord1 (F : 'I_1 -> R) : \sum_i F i = F ord0.
Proof. by rewrite big_ord_recl big_ord0 addr0. Qed.

Lemma mx22P (A B : 'M[R]_2) :
  A ord0 ord0 = B ord0 ord0 -> A ord0 ord_max = B ord0 ord_max ->
  A ord_max ord0 = B ord_max ord0 -> A ord_max ord_max = B ord_max ord_max ->
  A = B.
Proof.
move=> H00 H01 H10 H11; apply/matrixP => i j.
by case: (ord2_cases i) => ->; case: (ord2_cases j) => ->.
Qed.

Lemma mx12P (A B : 'M[R]_(1, 2)) :
  A ord0 ord0 = B ord0 ord0 -> A ord0 ord_max = B ord0 ord_max -> A = B.
Proof.
move=> H0 H1; apply/matrixP => i j; rewrite (ord1 i).
by case: (ord2_cases j) => ->.
Qed.

Lemma cv2P (u v : 'cV[R]_2) :
  u ord0 0 = v ord0 0 -> u ord_max 0 = v ord_max 0 -> u = v.
Proof.
move=> H0 H1; apply/colP => i.
by case: (ord2_cases i) => ->.
Qed.

Lemma ffun1P (T : Type) (f g : {ffun 'I_1 -> T}) : f ord0 = g ord0 -> f = g.
Proof. by move=> H; apply/ffunP => i; rewrite (ord1 i). Qed.

Lemma range1 : range 1 = [:: ord0].
Proof. by rewrite /range; apply: (inj_map val_inj); rewrite val_enum_ord. Qed.

Lemma add_atE (n : nat) (A : 'M[R]_n) row col v r c :
  add_at A row col v r c = if (r == row) && (c == col) then A r c + v else A r c.
Proof. by rewrite /add_at mxE. Qed.

Variables nx' ns' num_v : nat.

Lemma l_rate_mat_add_rates (i : 'I_nx'.+1) (row col : 'I_ns'.+1) v vm
    (l : Locals R nx' ns') :
  l_rate_mat (add_rates i row col v vm l) i = add_at (l_rate_mat l i) row col v.
Proof. by rewrite /add_rates /= set_nth_matE eqxx. Qed.

Lemma l_rate_mat_max_add_rates (i : 'I_nx'.+1) (row col : 'I_ns'.+1) v vm
    (l : Locals R nx' ns') :
  l_rate_mat_max (add_rates i row col v vm l) i =
  add_at (l_rate_mat_max l i) row col vm.
Proof. by rewrite /add_rates /= set_nth_matE eqxx. Qed.

End SmallMatrices.

(** ** The system *)

(** One cell, two states of the neutral atom, an upper one at index 0 and a
    lower one at index 1, and spontaneous emission from the upper to the lower
    at rate 2 as the only process; the time step is 1/2, the numbers are
    rationals and all the density starts in the upper state. *)

Definition st_upper : State rat 1 := mkState 0 "3s" ord0 2 7.
Definition st_lower : State rat 1 := mkState 0 "2p" ord_max 6 0.

Definition ex_libs : Libs rat 1 0 :=
  mkLibs (fun _ _ _ _ => 0) (fun _ _ _ _ => 0) (fun _ _ _ _ _ _ _ => 0)
    (fun _ _ _ _ _ _ => 0) (fun _ _ v => v) (fun x => x) 3 1 1 1
    (fun _ _ _ _ => 0) (fun _ _ _ _ => 0) (fun _ _ _ _ _ => 0).

Definition ex_input : Input rat := mkInput false false false true (1 / 2).

Definition ex_skrun : SkRun rat 0 0 :=
  mkSkRun 0 0 1 1 1 1 1 (const_mx 1) (const_mx 1) 0.

Definition t_em : Transition rat 1 0 :=
  new_Transition ex_libs "spontem" st_upper st_lower EmptyString 2.

Definition mx_of_rows (m n : nat) (rows : seq (seq rat)) : 'M[rat]_(m, n) :=
  \matrix_(i, j) nth 0 (nth [::] rows i) j.

Definition cv_of_seq (n : nat) (xs : seq rat) : 'cV[rat]_n := \col_i nth 0 xs i.

Definition ex_dens : 'M[rat]_(1, 2) := mx_of_rows 1 2 [:: [:: 1; 0]].

(** The object before [build_rate_matrices], after it, after a direct solve
    that follows, and the matrices and densities that appear on the way. *)
Definition ex_imp : Impurity rat 0 1 0 :=
  mkImpurity 1 [:: st_upper; st_lower] [::] [::] [::] [:: t_em]
    ex_dens ex_dens 0 [ffun=> 0] [ffun=> 0] [ffun=> 0] [ffun=> 0].

Definition ex_R : 'M[rat]_2 := mx_of_rows 2 2 [:: [:: -2; 0]; [:: 2; 0]].
Definition ex_op : 'M[rat]_2 := mx_of_rows 2 2 [:: [:: 1/2; 0]; [:: 1/2; 1]].
Definition ex_A : 'M[rat]_2 := mx_of_rows 2 2 [:: [:: -2; 0]; [:: 1; 1]].
Definition ex_Ainv : 'M[rat]_2 := mx_of_rows 2 2 [:: [:: -(1/2); 0]; [:: 1/2; 1]].
Definition ex_dens1 : 'M[rat]_(1, 2) := mx_of_rows 1 2 [:: [:: 0; 1]].
Definition ex_dens_half : 'M[rat]_(1, 2) := mx_of_rows 1 2 [:: [:: 1/2; 1/2]].

Definition ex_built : Impurity rat 0 1 0 :=
  mkImpurity 1 [:: st_upper; st_lower] [::] [::] [::] [:: t_em]
    ex_dens ex_dens 0 [ffun=> ex_op] [ffun=> ex_R] [ffun=> ex_op] [ffun=> ex_R].

Definition ex_solved : Impurity rat 0 1 0 :=
  mkImpurity 1 [:: st_upper; st_lower] [::] [::] [::] [:: t_em]
    ex_dens1 ex_dens1 0 [ffun=> ex_op] [ffun=> ex_A] [ffun=> ex_op] [ffun=> ex_A].

(** Three lines of a transition file: the first names two states of the
    table, the second a to-state and the third a from-state that the table
    does not have. *)
Definition ex_flags : Input rat := mkInput true true true false (1 / 2).

Definition line_ex : TransLine := mkTransLine "excitation" 0 "2p" 0 "3s" "SunoKato".
Definition line_iz : TransLine := mkTransLine "ionization" 0 "2p" 1 "1s2" "SunoKato".
Definition line_rr : TransLine := mkTransLine "radrec" 1 "1s2" 0 "2p" "ADAS".

Ltac mx_entries :=
  rewrite ?(mxE, ffunE, set_nth_matE, sum_ord2, sum_ord1, add_atE).

Ltac mx_unfold :=
  rewrite /mx_of_rows /cv_of_seq /set_last_row_ones /rhs_last /get_row /set_row
          /np_sum /colsum.

Ltac mx_compute := mx_unfold; do 4?[mx_entries]; by apply/eqP; vm_compute.

Lemma ex_euler_inv :
  1%:M - (1 / 2) *: ex_R \in unitmx /\ invmx (1%:M - (1 / 2) *: ex_R) = ex_op.
Proof. by apply: invmx_right; apply: mx22P; mx_compute. Qed.

Lemma build_ex :
  build_rate_matrices ex_input ex_skrun ex_libs ex_imp = Returns ex_built.
Proof.
rewrite /build_rate_matrices range1 /= /build_cell /guarded_loop /= /add_em_trans /=.
set L := add_rates _ _ _ _ _ _.
have HR : l_rate_mat L ord0 = ex_R.
  by rewrite /L !l_rate_mat_add_rates /zero_locals /=; apply: mx22P; mx_compute.
have HRm : l_rate_mat_max L ord0 = ex_R.
  by rewrite /L !l_rate_mat_max_add_rates /zero_locals /=; apply: mx22P; mx_compute.
have [U E] := ex_euler_inv.
rewrite /invert_cell HR linalg_inv_unit //= E.
rewrite /ex_built; congr (Returns (mkImpurity _ _ _ _ _ _ _ _ _ _ _ _ _));
  apply: ffun1P; rewrite [RHS]ffunE.
- by rewrite set_nth_matE eqxx.
- by rewrite -HR.
- by rewrite set_nth_matE eqxx.
- by rewrite -HRm.
Qed.

Lemma ex_A_last_row : set_last_row_ones ex_R = ex_A.
Proof. by apply: mx22P; mx_compute. Qed.

Lemma ex_A_inv : ex_A \in unitmx /\ invmx ex_A = ex_Ainv.
Proof. by apply: invmx_right; apply: mx22P; mx_compute. Qed.

Lemma ex_total : np_sum (get_row ex_dens ord0) = 1.
Proof. by mx_compute. Qed.

Lemma ex_solution : ex_Ainv *m rhs_last 1 1 = cv_of_seq 2 [:: 0; 1].
Proof. by apply: cv2P; mx_compute. Qed.

Lemma ex_set_row : set_row ex_dens ord0 (cv_of_seq 2 [:: 0; 1]) = ex_dens1.
Proof. by apply: mx12P; mx_compute. Qed.

Lemma solve_ex : solve ex_built = Returns ex_solved.
Proof.
have [U E] := ex_A_inv.
rewrite /solve range1 /= /solve_cell /= !ffunE ex_A_last_row linalg_inv_unit //.
rewrite E ex_total ex_solution ex_set_row /=.
rewrite !ffunE ex_A_last_row linalg_inv_unit // E ex_total ex_solution ex_set_row.
rewrite /ex_solved; congr (Returns (mkImpurity _ _ _ _ _ _ _ _ _ _ _ _ _));
  by apply: ffun1P; rewrite set_nth_matE eqxx ffunE.
Qed.

Lemma ex_step : ex_op *m get_row ex_dens ord0 = get_row ex_dens_half ord0.
Proof. by apply: cv2P; mx_compute. Qed.

Lemma evolve_ex_dens :
  dens (evolve ex_built).2 = ex_dens_half /\
  dens_max (evolve ex_built).2 = ex_dens_half.
Proof.
have [Hd Hdm _ _ _] := evolveP ex_built.
by split; apply: get_row_inj => i; rewrite ?Hd ?Hdm (ord1 i) /= ffunE ex_step.
Qed.

Lemma ex_change : np_max_abs_diff ex_dens_half ex_dens = 1 / 2.
Proof. by rewrite /np_max_abs_diff !big_ord_recl !big_ord0; mx_compute. Qed.

Lemma evolve_ex_residual : (evolve ex_built).1 = 1 / 2.
Proof.
have [_ _ -> _ _] := evolveP ex_built.
have [-> ->] := evolve_ex_dens.
by rewrite /= ex_change; apply/eqP; vm_compute.
Qed.

Lemma ex_R_last_column :
  colsum (the_rate_mat Kinetic ex_built ord0) ord_max = 0 /\
  the_rate_mat Kinetic ex_built ord0 ord_max ord_max <= 0.
Proof. by split; rewrite /= ffunE; [apply/eqP|]; mx_compute. Qed.

Lemma line_iz_unresolved :
  get_state (states ex_imp) (l_to_iz line_iz) (l_to_statename line_iz) = None.
Proof. by []. Qed.

(** ** The properties on the two-level system *)


Lemma direct_solve_construction_witness :
  exists (A : 'M[rat]_2) (b : 'cV[rat]_2),
    [/\ forall r c, A r c =
          if r == ord_max then 1 else the_rate_mat Kinetic ex_built ord0 r c,
        forall r, b r 0 =
          if r == ord_max then \sum_j the_dens Kinetic ex_built ord0 j else 0,
        A \in unitmx,
        A *m get_row (the_dens Kinetic ex_solved) ord0 = b &
        forall x, A *m x = b -> x = get_row (the_dens Kinetic ex_solved) ord0].
Proof.
have [H _] := direct_solve_construction.
exact: (H _ _ _ _ _ _ solve_ex Kinetic ord0).
Defined.

Lemma rate_matrix_columns_sum_to_zero_witness :
  colsum (rate_mat ex_built ord0) ord0 = 0 /\
  colsum (rate_mat_max ex_built ord0) ord0 = 0.
Proof. exact: (rate_matrix_columns_sum_to_zero build_ex ord0 ord0). Defined.

Lemma solve_idempotent_witness : solve ex_solved = Returns ex_solved.
Proof. by have [H _] := solve_idempotent solve_ex. Defined.

Lemma unresolved_transitions_dropped_witness :
  load_transitions ex_flags ex_libs [:: line_ex; line_iz; line_rr] [::] ex_imp =
  load_transitions ex_flags ex_libs [:: line_ex; line_rr] [::] ex_imp.
Proof.
have [_ _ _ H] :=
  unresolved_transitions_dropped ex_flags ex_libs [:: line_ex; line_iz; line_rr]
    [::] ex_imp.
apply: (H [:: line_ex] line_iz [:: line_rr] erefl).
by right; exact: line_iz_unresolved.
Defined.

Lemma solve_overwrites_stored_matrices_witness :
  [/\ the_rate_mat Kinetic ex_solved ord0 ord_max ord0 = 1,
      the_rate_mat Kinetic ex_solved ord0 ord0 ord0 =
        the_rate_mat Kinetic ex_built ord0 ord0 ord0 &
      1 <= colsum (the_rate_mat Kinetic ex_solved ord0) ord_max].
Proof.
have [H1 H2 _ _ H4] := solve_overwrites_stored_matrices solve_ex Kinetic ord0.
have [c0 le0] := ex_R_last_column.
split; [exact: H1 | exact: H2 | exact: H4].
Defined.

(** C5: a step of [Impurity.evolve] in which the residual returned is not
    the largest change divided by the time step.  The step takes the
    densities from (1, 0) to (1/2, 1/2) with the time step 1/2: the largest
    change is 1/2, and that is what is returned; divided by the time step
    it is 1. *)
Lemma evolve_residual_is_not_a_rate :
  [/\ build_rate_matrices ex_input ex_skrun ex_libs ex_imp = Returns ex_built,
      DELTA_T ex_input = 1 / 2,
      dens ex_built = ex_dens /\ dens_max ex_built = ex_dens &
      dens (evolve ex_built).2 = ex_dens_half /\
      dens_max (evolve ex_built).2 = ex_dens_half]
  /\
  [/\ (evolve ex_built).1 = 1 / 2,
      Num.max (np_max_abs_diff (dens (evolve ex_built).2) (dens ex_built))
              (np_max_abs_diff (dens_max (evolve ex_built).2) (dens_max ex_built))
        / DELTA_T ex_input = 1 &
      (evolve ex_built).1 !=
        Num.max (np_max_abs_diff (dens (evolve ex_built).2) (dens ex_built))
                (np_max_abs_diff (dens_max (evolve ex_built).2) (dens_max ex_built))
          / DELTA_T ex_input].
Proof.
have [Ed Edm] := evolve_ex_dens.
have Em : Num.max (np_max_abs_diff (dens (evolve ex_built).2) (dens ex_built))
              (np_max_abs_diff (dens_max (evolve ex_built).2) (dens_max ex_built))
        / DELTA_T ex_input = 1.
  by rewrite Ed Edm [dens _]/= [dens_max _]/= ex_change; apply/eqP; vm_compute.
split; first by split=> //; exact: build_ex.
by split=> //; [exact: evolve_ex_residual | rewrite Em evolve_ex_residual].
Qed.

(** * Runs of [solver.evolve] *)

(** A stand-in for the KSP object: it leaves the exact solution, and reports
    a divergence (reason -3) when an entry of the right-hand side has reached
    [limit], convergence (reason 2) otherwise. *)
Definition ex_ksp (limit : rat) (_ : string) (_ : option string) (_ : rat)
    (n : nat) (A : 'M[rat]_n) (b : 'cV[rat]_n) : 'cV[rat]_n * int :=
  (invmx A *m b, if [exists k, limit <= b k 0] then - 3%:Z else 2%:Z).

(** Every rank owns one cell with one state; the rate matrix of a rank is
    the 1 x 1 matrix (1), its initial density is [init r], and the time step
    is 1/2: a step doubles the density. *)
Section Ranks.

Variables (P : nat) (init : 'I_P.+1 -> rat) (limit : rat).

Definition ex_loc (r : 'I_P.+1) : nat := 0.

Definition ex_rate_matrix (r : 'I_P.+1) : 'M[rat]_((ex_loc r).+1 * 1) := 1%:M.

Definition ex_n_init (r : 'I_P.+1) : 'M[rat]_((ex_loc r).+1, 1) :=
  const_mx (init r).

Lemma ex_one_entry (r : 'I_P.+1) (k : 'I_((ex_loc r).+1 * 1)) :
  k = flat_index ord0 ord0.
Proof. by case: k => [[|k]] // H; apply/val_inj. Qed.

Lemma ex_doubles x r (st : rank_state rat ((ex_loc r).+1 * 1)) :
  n_old st = const_mx x ->
  solution (ex_ksp limit) "gmres" None 0 ex_rate_matrix ex_n_init (1 / 2) st =
  const_mx (2 * x).
Proof.
rewrite /solution /ex_ksp /= /be_op_mat /ex_rate_matrix => ->.
rewrite scalemx1 -raddfB /= invmx_scalar mul_scalar_mx.
by apply/colP => k; rewrite !mxE; congr (_ * _).
Qed.

Lemma ex_reason x r (st : rank_state rat ((ex_loc r).+1 * 1)) :
  n_old st = const_mx x ->
  converged_reason (ex_ksp limit) "gmres" None 0 ex_rate_matrix ex_n_init (1 / 2) st =
  if limit <= x then - 3%:Z else 2%:Z.
Proof.
rewrite /converged_reason /ex_ksp /= => ->.
have -> // : [exists k, limit <= (const_mx x : 'cV[rat]_((ex_loc r).+1 * 1)) k 0]
             = (limit <= x).
apply/existsP/idP => [[k]|le]; first by rewrite mxE.
by exists (flat_index ord0 ord0); rewrite mxE.
Qed.

Lemma ex_init_old r : n_old (init_state ex_n_init r) = const_mx (init r).
Proof. by apply/colP => k; rewrite /init_state /flatten [LHS]mxE !mxE. Qed.

End Ranks.

(** ** One rank, whose density starts at 1 *)

Section OneRank.

Variable limit : rat.

Let init1 (r : 'I_1) : rat := 1.

Notation run_state_at :=
  (state_at (ex_ksp limit) "gmres" None 0 (@ex_rate_matrix 0) (ex_n_init init1)
     (1 / 2) 5 0).
Notation run_solution :=
  (solution (ex_ksp limit) "gmres" None 0 (@ex_rate_matrix 0) (ex_n_init init1)
     (1 / 2)).
Notation run_exit_flag :=
  (exit_flag (ex_ksp limit) "gmres" None 0 (@ex_rate_matrix 0) (ex_n_init init1)
     (1 / 2)).
Notation run_dndt_global :=
  (dndt_global (ex_ksp limit) "gmres" None 0 (@ex_rate_matrix 0) (ex_n_init init1)
     (1 / 2)).
Notation run_step :=
  (step (ex_ksp limit) "gmres" None 0 (@ex_rate_matrix 0) (ex_n_init init1)
     (1 / 2) 5 0).

Lemma one_rank (r : 'I_1) : r = ord0.
Proof. exact: ord1. Qed.

Lemma ex_dndt_global x (sts : gstate rat 0 (@ex_loc 0)) :
  n_old (sts ord0) = const_mx x ->
  run_dndt_global sts = `|x - 2 * x| / (1 / 2).
Proof.
move=> E; rewrite dndt_global_single; first exact: one_rank.
rewrite local_solveE /= (ex_doubles _ _ E) E np_max_abs_diff_vec_single ?mxE //.
exact: ex_one_entry.
Qed.

Lemma ex_exit_flag x (sts : gstate rat 0 (@ex_loc 0)) :
  n_old (sts ord0) = const_mx x ->
  run_exit_flag sts = if limit <= x then 1%N else 0%N.
Proof.
move=> E.
rewrite /exit_flag big_ord_recl big_ord0 addn0 local_solveE /= (ex_reason _ _ E).
by case: (limit <= x).
Qed.

Definition ex_sts0 : gstate rat 0 (@ex_loc 0) := init_state (ex_n_init init1).

Lemma ex_sts0_old r : n_old (ex_sts0 r) = const_mx 1.
Proof. exact: ex_init_old. Qed.

Lemma ex_tenth0 : (10^-1 < 0%:R / 5%:R :> rat) = false.
Proof. by vm_compute. Qed.

Lemma ex_tenth : 10^-1 < 1%:R / 5%:R :> rat.
Proof. by vm_compute. Qed.

Hypothesis limit_gt1 : 1 < limit.

(** The state in which iteration 1 starts. *)
Definition ex_sts1 : gstate rat 0 (@ex_loc 0) :=
  fun q => continued (run_step 0 ex_sts0 q) (ex_sts0 q).

Lemma ex_step0 q :
  run_step 0 ex_sts0 q =
  Continue (RankState (run_solution (ex_sts0 q)) (run_solution (ex_sts0 q))
              (run_dndt_global ex_sts0)).
Proof.
apply: step_continue.
- by rewrite (ex_exit_flag (ex_sts0_old _)) leNgt limit_gt1.
- by rewrite [X in _ && X]ex_tenth0 andbF.
- move=> r; rewrite (one_rank r); exact: erefl.
- by rewrite (ex_dndt_global (ex_sts0_old _)); vm_compute.
Qed.

Lemma ex_state_at1 : run_state_at 1 = Some ex_sts1.
Proof. by apply: state_at_next => [|q]; [|rewrite ex_step0]. Qed.

Lemma ex_sts1_old r : n_old (ex_sts1 r) = const_mx 2.
Proof.
rewrite /ex_sts1 ex_step0 /continued /n_old (ex_doubles _ _ (ex_sts0_old _)).
by congr const_mx; apply/eqP; vm_compute.
Qed.

Lemma ex_residual0 : run_dndt_global ex_sts0 = 2.
Proof. by rewrite (ex_dndt_global (ex_sts0_old _)); apply/eqP; vm_compute. Qed.

Lemma ex_residual1 : run_dndt_global ex_sts1 = 4.
Proof. by rewrite (ex_dndt_global (ex_sts1_old _)); apply/eqP; vm_compute. Qed.

Lemma ex_residuals : run_dndt_global ex_sts0 < run_dndt_global ex_sts1.
Proof. by rewrite ex_residual0 ex_residual1. Qed.

Lemma ex_solution1 r : unflatten (run_solution (ex_sts1 r)) = const_mx 4.
Proof.
rewrite (ex_doubles _ _ (ex_sts1_old _)).
by apply/matrixP => j i; rewrite /unflatten !mxE; apply/eqP; vm_compute.
Qed.

End OneRank.

Lemma lt_1_2 : 1 < 2 :> rat.
Proof. by vm_compute. Qed.

Lemma lt_1_3 : 1 < 3 :> rat.
Proof. by vm_compute. Qed.

(** ** Two ranks, whose densities start at 1 and 2 *)

Definition init2 (r : 'I_2) : rat := if r == ord0 then 1 else 2.

Lemma ex_two_rank_failure :
  converged_reason (ex_ksp 2) "gmres" None 0 (@ex_rate_matrix 1) (ex_n_init init2)
    (1 / 2) (init_state (ex_n_init init2) ord_max) < 0.
Proof. by rewrite (ex_reason _ _ (ex_init_old _ _)). Qed.

(** ** The properties on these runs *)

Lemma residual_definition_witness :
  (forall r k,
     `|solution (ex_ksp 2) "gmres" None 0 (@ex_rate_matrix 0)
         (ex_n_init (fun=> 1)) (1 / 2) (ex_sts0 r) k 0 - n_old (ex_sts0 r) k 0|
       / (1 / 2) <=
     dndt_global (ex_ksp 2) "gmres" None 0 (@ex_rate_matrix 0)
       (ex_n_init (fun=> 1)) (1 / 2) ex_sts0) /\
  (exists r k,
     dndt_global (ex_ksp 2) "gmres" None 0 (@ex_rate_matrix 0)
       (ex_n_init (fun=> 1)) (1 / 2) ex_sts0 =
     `|solution (ex_ksp 2) "gmres" None 0 (@ex_rate_matrix 0)
         (ex_n_init (fun=> 1)) (1 / 2) (ex_sts0 r) k 0 - n_old (ex_sts0 r) k 0|
       / (1 / 2)).
Proof.
have [_ H] := residual_definition.
apply: (H _ _ (ex_ksp 2) "gmres"%string None 0 _ _ (@ex_rate_matrix 0)
          (ex_n_init (fun=> 1)) (1 / 2) ex_sts0).
by [].
Defined.

Lemma failure_aborts_every_rank_witness :
  petsc_evolve (ex_ksp 2) "gmres" None 0 (@ex_rate_matrix 1) (ex_n_init init2)
    (1 / 2) 5 0 ord0 = Returned None /\
  petsc_evolve (ex_ksp 2) "gmres" None 0 (@ex_rate_matrix 1) (ex_n_init init2)
    (1 / 2) 5 0 ord_max = Returned None.
Proof.
have [_ _ _ H] :=
  @failure_aborts_every_rank _ _ (ex_ksp 2) "gmres" None 0 _ _
    (@ex_rate_matrix 1) (ex_n_init init2) (1 / 2) 5 0 0 _ ord_max
    erefl isT ex_two_rank_failure.
by split; apply: H.
Defined.

Lemma divergence_stops_early_witness :
  petsc_evolve (ex_ksp 3) "gmres" None 0 (@ex_rate_matrix 0)
    (ex_n_init (fun=> 1)) (1 / 2) 5 0 ord0 =
  Returned (Some (const_mx 4)).
Proof.
rewrite -(ex_solution1 lt_1_3 ord0).
apply: (@divergence_stops_early _ _ (ex_ksp 3) "gmres" None 0 _ _
          (@ex_rate_matrix 0) (ex_n_init (fun=> 1)) (1 / 2) 5 0 0
          ex_sts0 (ex_sts1 3)).
- exact: erefl.
- exact: (ex_state_at1 lt_1_3).
- exact: isT.
- by rewrite (ex_exit_flag _ (ex_sts1_old lt_1_3 _)).
- exact: (ex_residuals lt_1_3).
- exact: ex_tenth.
Defined.

(** C6: a run in which the residual of iteration 1 exceeds that of
    iteration 0 with more than a tenth of the steps elapsed, and which
    returns [None].  One rank, the density 1, the 1 x 1 rate matrix (1),
    the time step 1/2 and five steps at most: iteration 0 takes the density
    to 2 with the residual 2, iteration 1 takes it to 4 with the residual 4,
    and its solve reports a failure. *)
Lemma divergence_with_failed_solve_returns_None :
  [/\ state_at (ex_ksp 2) "gmres" None 0 (@ex_rate_matrix 0)
        (ex_n_init (fun=> 1)) (1 / 2) 5 0 0 = Some ex_sts0,
      state_at (ex_ksp 2) "gmres" None 0 (@ex_rate_matrix 0)
        (ex_n_init (fun=> 1)) (1 / 2) 5 0 1 = Some (ex_sts1 2),
      dndt_global (ex_ksp 2) "gmres" None 0 (@ex_rate_matrix 0)
        (ex_n_init (fun=> 1)) (1 / 2) ex_sts0 = 2,
      dndt_global (ex_ksp 2) "gmres" None 0 (@ex_rate_matrix 0)
        (ex_n_init (fun=> 1)) (1 / 2) (ex_sts1 2) = 4 &
      10^-1 < 1%:R / 5%:R :> rat]
  /\
  petsc_evolve (ex_ksp 2) "gmres" None 0 (@ex_rate_matrix 0)
    (ex_n_init (fun=> 1)) (1 / 2) 5 0 ord0 = Returned None.
Proof.
split.
  split; [exact: erefl | exact: (ex_state_at1 lt_1_2) | exact: ex_residual0
         | exact: (ex_residual1 lt_1_2) | exact: ex_tenth].
have [] // := @failed_step _ _ (ex_ksp 2) "gmres" None 0 _ _ (@ex_rate_matrix 0)
             (ex_n_init (fun=> 1)) (1 / 2) 5 0 1 _ ord0 (ex_state_at1 lt_1_2) isT.
by rewrite (ex_reason _ _ (ex_sts1_old lt_1_2 _)).
Qed.

(** * The further properties on concrete inputs *)

(** ** The two-level system again *)

Lemma solved_densities_are_stationary_witness :
  [/\ the_rate_mat Kinetic ex_built ord0
        *m get_row (the_dens Kinetic ex_solved) ord0 = 0,
      the_dens Kinetic (evolve ex_solved).2 = the_dens Kinetic ex_solved &
      (evolve ex_solved).1 = 0].
Proof.
have [H1 H2 H3] := solved_densities_are_stationary build_ex solve_ex.
by split; [exact: H1 | exact: H2 | exact: H3].
Defined.

(** ** The direct solve twice, in double precision *)

(** One cell with two states, the rate matrix [[-4, 1], [4, -1]] and the
    density 7 in the first state. *)
Definition ex_f64 : Impurity_f64 :=
  mkImpurity_f64 1 2 [:: [:: 7%float; 0%float]] [:: [:: 7%float; 0%float]]
    [:: [:: [:: (-4)%float; 1%float]; [:: 4%float; (-1)%float]]]
    [:: [:: [:: (-4)%float; 1%float]; [:: 4%float; (-1)%float]]].

Definition ex_f64_once : seq (seq float) :=
  [:: [:: 1.4000000000000001%float; 5.6000000000000005%float]].

Definition ex_f64_twice : seq (seq float) :=
  [:: [:: 1.4000000000000004%float; 5.600000000000001%float]].

Definition ex_f64_ones : seq (seq (seq float)) :=
  [:: [:: [:: (-4)%float; 1%float]; [:: 1%float; 1%float]]].

Lemma ex_f64_inv :
  gauss_inv_f64 [:: [:: (-4)%float; 1%float]; [:: 1%float; 1%float]] =
  Some [:: [:: (-0.2)%float; 0.2%float];
           [:: 0.2%float; 0.8%float]].
Proof. by vm_compute. Qed.

(** C4: a direct solve that follows a direct solve and returns other
    densities.  The first solve takes the densities (7, 0) to
    (1.4000000000000001, 5.6000000000000005), whose sum in doubles is
    7.000000000000001; the second solve starts from this sum and returns
    (1.4000000000000004, 5.600000000000001). *)
Lemma solve_twice_differs_in_doubles :
  [/\ solve_f64 gauss_inv_f64 ex_f64 =
        Some (mkImpurity_f64 1 2 ex_f64_once ex_f64_once ex_f64_ones ex_f64_ones),
      solve_f64 gauss_inv_f64
        (mkImpurity_f64 1 2 ex_f64_once ex_f64_once ex_f64_ones ex_f64_ones) =
        Some (mkImpurity_f64 1 2 ex_f64_twice ex_f64_twice ex_f64_ones ex_f64_ones),
      np_sum_f64 [:: 1.4000000000000001%float; 5.6000000000000005%float] =
        7.000000000000001%float &
      ex_f64_twice <> ex_f64_once].
Proof.
by split; vm_compute.
Qed.

(** ** An ion with two charge states *)

(** One cell and two states, of charge 1 and of charge 2, with the densities
    1 and 3; the electron density of the cell is 2.  The mean charge is
    7/4 and the effective charge 13/2. *)
Definition st_once : State rat 1 := mkState 1 "1s2.2s" ord0 2 0.
Definition st_twice : State rat 1 := mkState 2 "1s2" ord_max 1 5.

Definition ex_ion_dens : 'M[rat]_(1, 2) := mx_of_rows 1 2 [:: [:: 1; 3]].

Definition ex_ion : Impurity rat 0 1 0 :=
  mkImpurity 3 [:: st_once; st_twice] [::] [::] [::] [::]
    ex_ion_dens ex_ion_dens 0 [ffun=> 0] [ffun=> 0] [ffun=> 0] [ffun=> 0].

Definition ex_ion_skrun : SkRun rat 0 0 :=
  mkSkRun 0 0 1 1 1 1 1 (const_mx 2) (const_mx 1) 0.

Lemma ex_ion_nonneg (j : 'I_2) : 0 <= the_dens Kinetic ex_ion ord0 j.
Proof.
by case: (ord2_cases j) => ->; rewrite /= /ex_ion_dens /mx_of_rows mxE.
Qed.

Lemma ex_ion_total : \sum_j the_dens Kinetic ex_ion ord0 j = 4.
Proof.
by rewrite sum_ord2 /= /ex_ion_dens /mx_of_rows !mxE /=; apply/eqP; vm_compute.
Qed.

Lemma ex_ion_total_gt0 : 0 < \sum_j the_dens Kinetic ex_ion ord0 j.
Proof. by rewrite ex_ion_total. Qed.

Lemma ex_ion_charge :
  \sum_(st <- states ex_ion) the_dens Kinetic ex_ion ord0 (loc st) * (iz st)%:~R = 7.
Proof.
rewrite /= !big_cons big_nil /= /ex_ion_dens /mx_of_rows !mxE /=.
by apply/eqP; vm_compute.
Qed.

Lemma ex_ion_charge2 :
  \sum_(st <- states ex_ion)
     the_dens Kinetic ex_ion ord0 (loc st) * (iz st)%:~R ^+ 2 = 13.
Proof.
rewrite /= !big_cons big_nil /= /ex_ion_dens /mx_of_rows !mxE /=.
by apply/eqP; vm_compute.
Qed.

Lemma ex_ion_locs : locs_enumerate (states ex_ion).
Proof.
have -> : states ex_ion = [:: st_once; st_twice] by [].
rewrite /locs_enumerate (_ : enum 'I_2 = [:: ord0; ord_max]) //.
by apply: (inj_map val_inj); rewrite val_enum_ord.
Qed.

Lemma ex_ion_electrons : DENSITY ex_ion_skrun ord0 0 = 2.
Proof. by rewrite /= mxE. Qed.

Lemma ex_ion_electrons_neq0 : DENSITY ex_ion_skrun ord0 0 != 0.
Proof. by rewrite ex_ion_electrons. Qed.

Lemma Zavg_is_a_mean_witness :
  the_array Kinetic (get_Zavg ex_ion 0) ord0 0 * 4 = 7
  /\ 1%:~R <= the_array Kinetic (get_Zavg ex_ion 0) ord0 0 <= 2%:~R.
Proof.
have [H1 H2] := @Zavg_is_a_mean _ _ _ _ ex_ion 0 Kinetic ord0 1 2
                  ex_ion_nonneg ex_ion_total_gt0.
split; first by rewrite -ex_ion_total -ex_ion_charge.
by apply: H2; [exact: ex_ion_locs | by []].
Defined.

Lemma Zeff_dominates_Zavg_witness :
  the_array Kinetic (get_Zeff ex_ion_skrun ex_ion 0) ord0 0 * 2 = 13
  /\ the_array Kinetic (get_Zavg ex_ion 0) ord0 0 * 4
     <= the_array Kinetic (get_Zeff ex_ion_skrun ex_ion 0) ord0 0 * 2.
Proof.
rewrite -ex_ion_total -ex_ion_charge2 -ex_ion_electrons.
exact: (@Zeff_dominates_Zavg _ _ _ _ ex_ion_skrun ex_ion 0 Kinetic ord0
          ex_ion_nonneg ex_ion_total_gt0 ex_ion_electrons_neq0).
Defined.

(** ** The Boltzmann distribution of the two-level system *)

(** A Boltzmann factor that does not depend on the energy. *)
Definition ex_exp (x : rat) : rat := 1.

Lemma ex_boltzmann :
  get_boltzmann_dist ex_skrun ex_exp ex_built [:: 1; 0] 0 ord0 false =
  Some [:: 1 / 4; 3 / 4].
Proof.
rewrite get_boltzmann_distE /= /boltzmann_entry /partition_function /=.
rewrite /boltzmann_factor /ex_exp !big_cons !big_nil /=.
by congr (Some [:: _; _]); apply/eqP; vm_compute.
Qed.

Lemma gnormalise_boltzmann_dist_witness :
  gnormalise ex_built [:: 1 / 4; 3 / 4] 0 =
  get_boltzmann_dist ex_skrun ex_exp ex_built [:: 1; 0] 0 ord0 true.
Proof. exact: (gnormalise_boltzmann_dist ex_boltzmann isT). Defined.

(** ** A grid of two cells and two velocities *)

Lemma ex_grid :
  generate_grid_widths 2 [:: 0; 1] [:: 1 / 2; 3 / 2] =
  Some ([:: 2; 2], [:: 1; 1] : seq rat).
Proof. by apply/eqP; vm_compute. Qed.

Lemma velocity_points_are_centres_witness :
  size ([:: 1; 1] : seq rat) = size ([:: 1 / 2; 3 / 2] : seq rat) /\
  forall i, (i < size ([:: 1 / 2; 3 / 2] : seq rat))%N ->
    \sum_(w <- take i ([:: 1; 1] : seq rat)) w + nth 0 [:: 1; 1] i / 2 =
    nth 0 [:: 1 / 2; 3 / 2] i.
Proof. exact: (velocity_points_are_centres ex_grid). Defined.

(** ** Runs with other solves *)

(** The run of one rank whose solve fails in iteration 1. *)
Lemma ex_failing_run :
  petsc_evolve (ex_ksp 2) "gmres" None 0 (@ex_rate_matrix 0)
    (ex_n_init (fun=> 1)) (1 / 2) 5 0 ord0 = Returned None.
Proof.
have [] // := @failed_step _ _ (ex_ksp 2) "gmres" None 0 _ _ (@ex_rate_matrix 0)
             (ex_n_init (fun=> 1)) (1 / 2) 5 0 1 _ ord0 (ex_state_at1 lt_1_2) isT.
by rewrite (ex_reason _ _ (ex_sts1_old lt_1_2 _)).
Qed.

Lemma None_only_after_failure_witness :
  exists i sts r0,
    [/\ state_at (ex_ksp 2) "gmres" None 0 (@ex_rate_matrix 0)
          (ex_n_init (fun=> 1)) (1 / 2) 5 0 i = Some sts,
        (i < 5)%N &
        converged_reason (ex_ksp 2) "gmres" None 0 (@ex_rate_matrix 0)
          (ex_n_init (fun=> 1)) (1 / 2) (sts r0) < 0].
Proof. exact: (None_only_after_failure ex_failing_run). Defined.

(** A stand-in for KSP that solves exactly and always reports convergence. *)
Definition ex_exact_ksp (_ : string) (_ : option string) (_ : rat)
    (n : nat) (A : 'M[rat]_n) (b : 'cV[rat]_n) : 'cV[rat]_n * int :=
  (invmx A *m b, 2%:Z).

(** ** A run that the threshold stops *)

(** One rank with one cell that holds the two-level system: the rate matrix
    is [ex_R], all the density starts in the upper state, the time step is
    1/2, there are five steps at most and the threshold is 3/4.  The
    densities go from (1, 0) to (1/2, 1/2) and then to (1/4, 3/4); the
    residuals are 1 and 1/2, so iteration 1 is below the threshold. *)
Section TwoLevelRun.

Definition ex2_rate_matrix (r : 'I_1) : 'M[rat]_((@ex_loc 0 r).+1 * 2) := ex_R.

Definition ex2_n_init (r : 'I_1) : 'M[rat]_((@ex_loc 0 r).+1, 2) := ex_dens.

Definition ex2_result : 'M[rat]_(1, 2) := mx_of_rows 1 2 [:: [:: 1 / 4; 3 / 4]].

Notation run2_state_at :=
  (state_at ex_exact_ksp "gmres" None 0 ex2_rate_matrix ex2_n_init (1 / 2) 5
     (3 / 4)).
Notation run2_solution :=
  (solution ex_exact_ksp "gmres" None 0 ex2_rate_matrix ex2_n_init (1 / 2)).
Notation run2_exit_flag :=
  (exit_flag ex_exact_ksp "gmres" None 0 ex2_rate_matrix ex2_n_init (1 / 2)).
Notation run2_dndt_global :=
  (dndt_global ex_exact_ksp "gmres" None 0 ex2_rate_matrix ex2_n_init (1 / 2)).
Notation run2_step :=
  (step ex_exact_ksp "gmres" None 0 ex2_rate_matrix ex2_n_init (1 / 2) 5
     (3 / 4)).
Notation run2_evolve :=
  (petsc_evolve ex_exact_ksp "gmres" None 0 ex2_rate_matrix ex2_n_init (1 / 2) 5
     (3 / 4)).

Definition ex2_sts0 : gstate rat 1 (@ex_loc 0) := init_state ex2_n_init.

Definition ex2_sts1 : gstate rat 1 (@ex_loc 0) :=
  fun q => continued (run2_step 0%N ex2_sts0 q) (ex2_sts0 q).

Lemma ex2_solution (r : 'I_1) (st : rank_state rat ((@ex_loc 0 r).+1 * 2)) :
  run2_solution st = ex_op *m n_old st.
Proof.
have [_ E] := ex_euler_inv.
by rewrite /solution /ex_exact_ksp /= /be_op_mat /ex2_rate_matrix E.
Qed.

Lemma ex2_exit_flag (sts : gstate rat 1 (@ex_loc 0)) :
  run2_exit_flag sts = 0%N.
Proof. exact: exit_flag_eq0. Qed.

Lemma ex2_step_entries (a b : rat) :
  ex_op *m cv_of_seq 2 [:: a; b] = cv_of_seq 2 [:: 1 / 2 * a + 0 * b; 1 / 2 * a + 1 * b].
Proof. by apply: cv2P; rewrite /ex_op /mx_of_rows /cv_of_seq !mxE sum_ord2 !mxE. Qed.

Lemma ex2_dndt_global (sts : gstate rat 1 (@ex_loc 0)) (a b : rat) :
  n_old (sts ord0) = cv_of_seq 2 [:: a; b] ->
  run2_dndt_global sts =
  Num.max `|a - (1 / 2 * a + 0 * b)|
    (Num.max `|b - (1 / 2 * a + 1 * b)| `|a - (1 / 2 * a + 0 * b)|) / (1 / 2).
Proof.
move=> E; rewrite dndt_global_single; first exact: one_rank.
rewrite local_solveE /= ex2_solution E /np_max_abs_diff_vec ex2_step_entries.
by rewrite 2!big_ord_recl big_ord0 /cv_of_seq !mxE.
Qed.

Lemma ex2_sts0_old (r : 'I_1) : n_old (ex2_sts0 r) = cv_of_seq 2 [:: 1; 0].
Proof.
apply: cv2P; rewrite /ex2_sts0 /init_state /flatten /= /ex2_n_init /ex_dens
  /mx_of_rows /cv_of_seq !mxE; by apply/eqP; vm_compute.
Qed.

Lemma ex2_residual0 : run2_dndt_global ex2_sts0 = 1.
Proof. by rewrite (ex2_dndt_global (ex2_sts0_old _)); apply/eqP; vm_compute. Qed.

Lemma ex2_step0 q :
  run2_step 0 ex2_sts0 q =
  Continue (RankState (run2_solution (ex2_sts0 q)) (run2_solution (ex2_sts0 q))
              (run2_dndt_global ex2_sts0)).
Proof.
apply: step_continue.
- exact: ex2_exit_flag.
- by rewrite [X in _ && X]ex_tenth0 andbF.
- move=> r; rewrite (one_rank r); exact: erefl.
- by rewrite ex2_residual0; vm_compute.
Qed.

Lemma ex2_state_at1 : run2_state_at 1 = Some ex2_sts1.
Proof. by apply: state_at_next => [|q]; [|rewrite ex2_step0]. Qed.

Lemma ex2_sts1_old (r : 'I_1) : n_old (ex2_sts1 r) = cv_of_seq 2 [:: 1 / 2; 1 / 2].
Proof.
rewrite /ex2_sts1 ex2_step0 /continued /n_old ex2_solution ex2_sts0_old.
by rewrite ex2_step_entries; apply: cv2P; rewrite /cv_of_seq !mxE; apply/eqP; vm_compute.
Qed.

Lemma ex2_residual1 : run2_dndt_global ex2_sts1 = 1 / 2.
Proof. by rewrite (ex2_dndt_global (ex2_sts1_old _)); apply/eqP; vm_compute. Qed.

Lemma ex2_solution1 (r : 'I_1) : unflatten (run2_solution (ex2_sts1 r)) = ex2_result.
Proof.
rewrite ex2_solution ex2_sts1_old ex2_step_entries.
apply: mx12P; rewrite /unflatten /ex2_result /mx_of_rows /cv_of_seq !mxE;
  by apply/eqP; vm_compute.
Qed.

(** The run returns the densities of iteration 1. *)
Lemma ex2_run : run2_evolve ord0 = Returned (Some ex2_result).
Proof.
rewrite -(ex2_solution1 ord0).
apply: (@break_returns_solution _ _ ex_exact_ksp "gmres" None 0 _ _
          ex2_rate_matrix ex2_n_init (1 / 2) 5 (3 / 4) 1 ex2_sts1).
- exact: ex2_state_at1.
- exact: isT.
- exact: ex2_exit_flag.
- by rewrite /below_threshold ex2_residual1 orbT.
Qed.

Lemma ex2_colsum (r : 'I_1) c : colsum (ex2_rate_matrix r) c = 0.
Proof.
by case: (ord2_cases c) => ->; rewrite /ex2_rate_matrix /ex_R; mx_compute.
Qed.

Lemma ex2_exact (r : 'I_1) (b : 'cV[rat]_((@ex_loc 0 r).+1 * 2)) :
  be_op_mat ex2_rate_matrix (1 / 2) r *m
    (ex_exact_ksp "gmres" None (0 * np_sum2 (ex2_n_init r))
       (be_op_mat ex2_rate_matrix (1 / 2) r) b).1 = b.
Proof.
have [U _] := ex_euler_inv.
by rewrite /= mulKVmx.
Qed.

Lemma half_gt0 : 0 < 1 / 2 :> rat.
Proof. by vm_compute. Qed.

Lemma ex2_below : run2_dndt_global ex2_sts1 < 3 / 4.
Proof. by rewrite ex2_residual1; vm_compute. Qed.

Lemma threshold_stops_witness :
  run2_state_at 2 = None /\ run2_evolve ord0 = Returned (Some ex2_result).
Proof.
rewrite -(ex2_solution1 ord0).
have [H1 H2] :=
  @threshold_stops _ _ ex_exact_ksp "gmres" None 0 _ _ ex2_rate_matrix
    ex2_n_init (1 / 2) 5 (3 / 4) 1 ex2_sts1 half_gt0 ex2_state_at1 isT
    (ex2_exit_flag _) ex2_below.
by split; [exact: H1 | exact: H2].
Defined.

Lemma evolve_returns_last_solution_witness :
  exists i sts,
    [/\ run2_state_at i = Some sts, (i < 5)%N, run2_exit_flag sts = 0%N,
        i.+1 = 5%N \/ run2_state_at i.+1 = None &
        ex2_result = unflatten (run2_solution (sts ord0))].
Proof.
exact: (evolve_returns_last_solution half_gt0 (isT : 0 < 5)%N ex2_run).
Defined.

Lemma evolve_conserves_total_witness :
  np_sum2 ex2_result = np_sum2 (ex2_n_init ord0).
Proof.
exact: (evolve_conserves_total (@ex2_colsum ord0) (@ex2_exact ord0) half_gt0
          (isT : 0 < 5)%N ex2_run).
Defined.

End TwoLevelRun.

(** ** A direct solve with the KSP stand-in *)

(** The two-level system as one local cell of [solver.solve]. *)
Definition ex_solve_matrix : 'M[rat]_(1 * 2) := ex_R.
Definition ex_solve_init : 'M[rat]_(0 + (1 + 0), 2) := ex_dens.

Lemma ex_solve_matrix_unit : solve_matrix ex_solve_matrix \in unitmx.
Proof.
have [U _] := ex_A_inv.
rewrite (_ : solve_matrix ex_solve_matrix = ex_A) //.
apply/matrixP => r c; rewrite solve_matrixE.
by case: (ord2_cases r) => ->; case: (ord2_cases c) => ->;
   rewrite /ex_solve_matrix /ex_A /ex_R /mx_of_rows !mxE; apply/eqP; vm_compute.
Qed.

Lemma ex_petsc_solve :
  petsc_solve ex_exact_ksp "gmres" None 0 ex_solve_matrix ex_solve_init =
  Some (unflatten (invmx (solve_matrix ex_solve_matrix)
                   *m solve_rhs (local_rows ex_solve_init))).
Proof. by []. Qed.

Lemma solve_conserves_cell_totals_witness :
  \sum_i unflatten (invmx (solve_matrix ex_solve_matrix)
                    *m solve_rhs (local_rows ex_solve_init)) ord0 i =
  \sum_i local_rows ex_solve_init ord0 i.
Proof.
apply: (solve_conserves_cell_totals ex_petsc_solve).
  by rewrite /= mulKVmx // ex_solve_matrix_unit.
by move=> j c; rewrite (ord1 j) (ord1 (cell_of c)) eqxx.
Defined.
